(** * ItemManager: the world-state machine of the collection arena

    A shallow embedding of [assessment/item_manager.py]: the in-memory
    registry of robots, items, clusters and zones, the two request handlers
    ([pick_up_item], [offload_item]), the zone rule, the two placement
    generators and the periodic [control_loop].

    Modelling conventions.
    - Python dicts keep insertion order and several loops of the source depend
      on it (the first item in range, the first zone, the first colour with a
      count), so a dict is an association list in insertion order.
    - Coordinates are Python floats, that is binary64 numbers.  Every such
      number is a rational, so a coordinate is a [Q], and a [Q] that is no
      binary64 number (the two-decimal value of [round(v, 2)], a literal
      such as [0.35]) stands for the binary64 number nearest to it, [float].
      A float addition is the exact sum rounded by [float]; [math.dist] is
      the correctly rounded norm of the rounded coordinate differences, as
      CPython computes it from version 3.10 on (the module uses [match]).
      An item made by [generate_item_position] is stored with the exact
      binary64 coordinates of the sum; cluster centres are integers, for
      which the distance test against 1.0 is exact.
    - [random] and the simulation backend are the environment: each operation
      receives the draws and the backend answers it consumes.
    - Logger calls have no effect on the state and are left out. *)

From Stdlib Require Import String Ascii List Bool ZArith QArith Qabs Qround.
From Stdlib Require Import Qpower Lia DecimalString DecimalNat.
From Stdlib Require Import Reals Qreals Lqa.
From Stdlib Require Lra.
Import ListNotations.

Local Open Scope string_scope.
Local Open Scope Z_scope.

(** ** Enumerations *)

Inductive Colour := RED | GREEN | BLUE.

Inductive ZoneLocation := TOP_LEFT | TOP_RIGHT | BOTTOM_RIGHT | BOTTOM_LEFT.

(** [list(Colour)]: the members in definition order. *)
Definition Colour_members : list Colour := [RED; GREEN; BLUE].

(** ** Keys and insertion-ordered dicts *)

Class Key (K : Type) := { keyb : K -> K -> bool }.

Definition Colour_eqb (a b : Colour) : bool :=
  match a, b with
  | RED, RED | GREEN, GREEN | BLUE, BLUE => true
  | _, _ => false
  end.

Definition ZoneLocation_eqb (a b : ZoneLocation) : bool :=
  match a, b with
  | TOP_LEFT, TOP_LEFT | TOP_RIGHT, TOP_RIGHT
  | BOTTOM_RIGHT, BOTTOM_RIGHT | BOTTOM_LEFT, BOTTOM_LEFT => true
  | _, _ => false
  end.

#[export] Instance Key_string : Key string := { keyb := String.eqb }.
#[export] Instance Key_Colour : Key Colour := { keyb := Colour_eqb }.
#[export] Instance Key_ZoneLocation : Key ZoneLocation :=
  { keyb := ZoneLocation_eqb }.

Module Dict.
Section Ops.
Context {K V : Type} `{Key K}.

(** [d[k]], [None] standing for the KeyError. *)
Fixpoint get (d : list (K * V)) (k : K) : option V :=
  match d with
  | [] => None
  | (k', v) :: d' => if keyb k k' then Some v else get d' k
  end.

(** [d[k] = v]: an existing key keeps its place, a new one goes last. *)
Fixpoint set (d : list (K * V)) (k : K) (v : V) : list (K * V) :=
  match d with
  | [] => [(k, v)]
  | (k', v') :: d' =>
      if keyb k k' then (k', v) :: d' else (k', v') :: set d' k v
  end.

(** [k in d] *)
Definition mem (d : list (K * V)) (k : K) : bool :=
  match get d k with Some _ => true | None => false end.

Definition keys (d : list (K * V)) : list K := map fst d.
Definition values (d : list (K * V)) : list V := map snd d.
End Ops.
End Dict.

Definition dict (K V : Type) := list (K * V).

(** ** The classes of the module *)

Module Zone.
Record t := mk {
  location : ZoneLocation;
  x : Q;
  y : Q;
  items_returned : dict Colour Z
}.
Definition with_items_returned (z : t) (r : dict Colour Z) : t :=
  mk (location z) (x z) (y z) r.
End Zone.

Module Item.
Record t := mk {
  x : Q;
  y : Q;
  colour : Colour;
  cluster_id : string
}.
Definition with_xy (i : t) (x' y' : Q) : t :=
  mk x' y' (colour i) (cluster_id i).
End Item.

Module Cluster.
Record t := mk {
  x : Z;
  y : Z;
  colour : Colour
}.
End Cluster.

Module Robot.
Record t := mk {
  x : Q;
  y : Q;
  item_held : option string;
  previous_item_held : option string
}.
(** [Robot(x, y)] *)
Definition init (x0 y0 : Q) : t := mk x0 y0 None None.
Definition with_xy (r : t) (x' y' : Q) : t :=
  mk x' y' (item_held r) (previous_item_held r).
Definition with_item_held (r : t) (h : option string) : t :=
  mk (x r) (y r) h (previous_item_held r).
Definition with_previous_item_held (r : t) (h : option string) : t :=
  mk (x r) (y r) (item_held r) h.
End Robot.

(** The fields of [ItemManager] that the handlers and the loop read or write. *)
Record ItemManager := mkItemManager {
  first_run : bool;
  clusters : dict string Cluster.t;
  robots : dict string Robot.t;
  items : dict string Item.t;
  zones : dict ZoneLocation Zone.t;
  cluster_counter : nat;
  item_counter : nat
}.

Definition with_robots (s : ItemManager) (r : dict string Robot.t) :=
  mkItemManager (first_run s) (clusters s) r (items s) (zones s)
                (cluster_counter s) (item_counter s).
Definition with_items (s : ItemManager) (i : dict string Item.t) :=
  mkItemManager (first_run s) (clusters s) (robots s) i (zones s)
                (cluster_counter s) (item_counter s).
Definition with_zones (s : ItemManager) (z : dict ZoneLocation Zone.t) :=
  mkItemManager (first_run s) (clusters s) (robots s) (items s) z
                (cluster_counter s) (item_counter s).
Definition with_clusters (s : ItemManager) (c : dict string Cluster.t) :=
  mkItemManager (first_run s) c (robots s) (items s) (zones s)
                (cluster_counter s) (item_counter s).
Definition with_first_run (s : ItemManager) (b : bool) :=
  mkItemManager b (clusters s) (robots s) (items s) (zones s)
                (cluster_counter s) (item_counter s).
Definition with_cluster_counter (s : ItemManager) (n : nat) :=
  mkItemManager (first_run s) (clusters s) (robots s) (items s) (zones s)
                n (item_counter s).
Definition with_item_counter (s : ItemManager) (n : nat) :=
  mkItemManager (first_run s) (clusters s) (robots s) (items s) (zones s)
                (cluster_counter s) n.

(** The [ItemRequest] response. *)
Record Response := mkResponse {
  success : bool;
  message : string
}.

(** What a call leaves outside the state: backend requests and publications. *)
Record ItemHolder := mkItemHolder {
  holder_robot_id : string;
  holding_item : bool;
  item_colour : string;
  item_value : Z
}.

Record ItemLog := mkItemLog {
  red_count : Z;
  green_count : Z;
  blue_count : Z;
  total_count : Z;
  red_value : Z;
  green_value : Z;
  blue_value : Z;
  total_value : Z
}.

Inductive event :=
| SpawnEntity (name : string) (model : Colour) (px py pz : Q)
| GetModelList
| GetEntityState (name : string)
| SetEntityState (name reference_frame : string) (px py pz : Q)
| PublishItemHolders (data : list ItemHolder)
| PublishItemLog (log : ItemLog).

(** A call either returns, raises the KeyError of a failed dict access, or is
    still inside a rejection-sampling loop when the supplied draws end. *)
Inductive result (A : Type) :=
| Ok (a : A)
| KeyError
| Starved.
Arguments Ok {A} a.
Arguments KeyError {A}.
Arguments Starved {A}.

Definition bind {A B} (m : result A) (f : A -> result B) : result B :=
  match m with
  | Ok a => f a
  | KeyError => KeyError
  | Starved => Starved
  end.

Notation "x <- m ;; k" := (bind m (fun x => k))
  (at level 61, m at next level, right associativity).
Notation "' p <- m ;; k" := (bind m (fun p => k))
  (at level 61, p pattern, m at next level, right associativity).

Definition lookup {K V} `{Key K} (d : dict K V) (k : K) : result V :=
  match Dict.get d k with
  | Some v => Ok v
  | None => KeyError
  end.

(** ** Geometry *)

Definition Qltb (a b : Q) : bool :=
  match Qcompare a b with Lt => true | _ => false end.

Definition Qleb (a b : Q) : bool :=
  match Qcompare a b with Gt => false | _ => true end.

Definition dist2 (p q : Q * Q) : Q :=
  ((fst p - fst q) * (fst p - fst q) + (snd p - snd q) * (snd p - snd q))%Q.

(** [math.dist(p, q) <= d] for points with integer coordinates and
    [0 <= d]: the differences and the sum of their squares are exact, so the
    rounded norm is on the same side of an integer [d] as the exact one. *)
Definition dist_le (p q : Q * Q) (d : Q) : bool := Qleb (dist2 p q) (d * d).

(** [round(v, 2)]: the nearest multiple of 0.01, ties to the even one. *)
Definition round_half_even (q : Q) : Z :=
  let f := Qfloor q in
  match Qcompare (q - inject_Z f) (1 # 2) with
  | Lt => f
  | Gt => f + 1
  | Eq => if Z.even f then f else f + 1
  end.

Definition round2 (q : Q) : Q := Qmake (round_half_even (q * 100)) 100.

(** ** Binary64 arithmetic

    A binary64 number is [m * 2 ^ e] with [|m| < 2 ^ 53].  The exponent range
    is not bounded here: a value beyond the largest binary64 number stands
    for an infinity, which compares with [0.35] and [0.3] as that value
    does, and the sums and differences of binary64 numbers never fall
    between two subnormal numbers. *)

Definition pow2 (e : Z) : Q := Qpower 2 e.

(** The exponent of the leading bit of a positive rational. *)
Definition ilog2 (q : Q) : Z :=
  let k := Z.log2 (Qnum q) - Z.log2 (Zpos (Qden q)) in
  if Qle_bool (pow2 k) q then k else k - 1.

(** The binary64 number nearest to a positive [q], ties to the even
    significand. *)
Definition float_pos (q : Q) : Q :=
  let e := ilog2 q - 52 in
  Qred (inject_Z (round_half_even (q / pow2 e)) * pow2 e).

(** The binary64 number nearest to [q]: the value of the Python float
    written [q], and the rounding of every float operation. *)
Definition float (q : Q) : Q :=
  match Qcompare q 0 with
  | Eq => 0%Q
  | Gt => float_pos q
  | Lt => Qopp (float_pos (Qopp q))
  end.

(** The correctly rounded square root of a rational. *)
Definition float_sqrt (s : Q) : Q :=
  match Qcompare s 0 with
  | Gt =>
      let e := ilog2 s / 2 - 52 in
      let scaled := (s / pow2 (2 * e))%Q in
      let t := Z.sqrt (Qfloor scaled) in
      let half := (inject_Z t + (1 # 2))%Q in
      let m := match Qcompare scaled (half * half) with
               | Lt => t
               | Gt => t + 1
               | Eq => if Z.even t then t else t + 1
               end in
      Qred (inject_Z m * pow2 e)
  | _ => 0%Q
  end.

(** [math.dist(p, q)]: the coordinates are read as floats, their differences
    are float subtractions, and the norm of the two differences is rounded
    once. *)
Definition math_dist (p q : Q * Q) : Q :=
  let dx := float (float (fst p) - float (fst q)) in
  let dy := float (float (snd p) - float (snd q)) in
  float_sqrt (dx * dx + dy * dy).

(** [math.dist(p, q) < d] for a float literal [d]. *)
Definition dist_lt (p q : Q * Q) (d : Q) : bool :=
  Qltb (math_dist p q) (float d).

(** ** Text *)

(** [str(n)] for a non-negative int. *)
Definition str_of_nat (n : nat) : string :=
  NilEmpty.string_of_uint (Nat.to_uint n).

(** How an f-string renders an optional id: [None] prints as its name. *)
Definition fmt_opt (o : option string) : string :=
  match o with
  | Some s => s
  | None => "None"
  end.

Definition fmt_ZoneLocation (l : ZoneLocation) : string :=
  match l with
  | TOP_LEFT => "ZoneLocation.TOP_LEFT"
  | TOP_RIGHT => "ZoneLocation.TOP_RIGHT"
  | BOTTOM_RIGHT => "ZoneLocation.BOTTOM_RIGHT"
  | BOTTOM_LEFT => "ZoneLocation.BOTTOM_LEFT"
  end.

(** [colour.name] *)
Definition Colour_name (c : Colour) : string :=
  match c with
  | RED => "RED"
  | GREEN => "GREEN"
  | BLUE => "BLUE"
  end.

(** [self.item_values] *)
Definition item_values (c : Colour) : Z :=
  match c with
  | RED => 5
  | GREEN => 10
  | BLUE => 15
  end.

(** ** Start-up: [ItemManager.__init__] *)

(** The four ROS parameters enabling the corner zones. *)
Record Config := mkConfig {
  zone_top_left : bool;
  zone_top_right : bool;
  zone_bottom_left : bool;
  zone_bottom_right : bool
}.

Definition add_zone (enabled : bool) (l : ZoneLocation) (zx zy : Q)
  (zs : dict ZoneLocation Zone.t) : dict ZoneLocation Zone.t :=
  if enabled then Dict.set zs l (Zone.mk l zx zy []) else zs.

(** [for colour in Colour: for _, zone in zones: zone.items_returned[colour] = 0] *)
Definition zero_counts (zs : dict ZoneLocation Zone.t)
  : dict ZoneLocation Zone.t :=
  fold_left
    (fun zs colour =>
       map (fun '(l, z) =>
              (l, Zone.with_items_returned z
                    (Dict.set (Zone.items_returned z) colour 0)))
           zs)
    Colour_members zs.

Definition init_zones (cfg : Config) : dict ZoneLocation Zone.t :=
  zero_counts
    (add_zone (zone_bottom_left cfg) BOTTOM_LEFT (-342 # 100) (25 # 10)
    (add_zone (zone_bottom_right cfg) BOTTOM_RIGHT (-342 # 100) (-246 # 100)
    (add_zone (zone_top_right cfg) TOP_RIGHT (257 # 100) (-246 # 100)
    (add_zone (zone_top_left cfg) TOP_LEFT (257 # 100) (25 # 10) [])))).

Definition init (cfg : Config) : ItemManager :=
  mkItemManager true [] [] [] (init_zones cfg) 0 0.

(** ** [pick_up_item] *)

Definition DISTANCE : Q := 35 # 100.

(** The scan of [self.items.items()]: the id of the first item in range. *)
Fixpoint first_item_in_range (its : dict string Item.t) (robot : Robot.t)
  : option string :=
  match its with
  | [] => None
  | (item_id, item) :: rest =>
      if dist_lt (Robot.x robot, Robot.y robot) (Item.x item, Item.y item)
                 DISTANCE
      then Some item_id
      else first_item_in_range rest robot
  end.

Definition pick_up_item (s : ItemManager) (robot_id : string)
  : Response * ItemManager :=
  match Dict.get (robots s) robot_id with
  | None =>
      (mkResponse false ("Unable to find robot_id '" ++ robot_id ++ "'"), s)
  | Some robot =>
      match Robot.item_held robot with
      | Some _ =>
          (mkResponse false
             ("Robot '" ++ robot_id ++ "' is already holding an item"), s)
      | None =>
          match first_item_in_range (items s) robot with
          | Some item_id =>
              (mkResponse true
                 ("Robot '" ++ robot_id ++ "' collected item successfully"),
               with_robots s
                 (Dict.set (robots s) robot_id
                    (Robot.with_item_held robot (Some item_id))))
          | None =>
              (mkResponse false
                 ("Robot '" ++ robot_id ++ "' unable to pick any item."), s)
          end
      end
  end.

(** ** The zone rule *)

Definition ZONE_SIZE : Q := 5 # 10.

Definition in_zone (robot : Robot.t) (zone : Zone.t) : bool :=
  Qleb (Robot.x robot) (Zone.x zone + ZONE_SIZE)
  && Qleb (Zone.x zone - ZONE_SIZE) (Robot.x robot)
  && Qleb (Robot.y robot) (Zone.y zone + ZONE_SIZE)
  && Qleb (Zone.y zone - ZONE_SIZE) (Robot.y robot).

(** The first zone containing the robot.  The source returns the zone object
    itself, which [offload_item] then mutates; here the zone comes with the key
    under which the dict holds it. *)
Fixpoint get_robot_zone (zs : dict ZoneLocation Zone.t) (robot : Robot.t)
  : option (ZoneLocation * Zone.t) :=
  match zs with
  | [] => None
  | (l, zone) :: rest =>
      if in_zone robot zone then Some (l, zone) else get_robot_zone rest robot
  end.

(** The loop with [break]: the first colour whose count is at least 1. *)
Fixpoint match_colour (returned : dict Colour Z) : option Colour :=
  match returned with
  | [] => None
  | (colour, count) :: rest =>
      if 1 <=? count then Some colour else match_colour rest
  end.

(** [self.items[robot.item_held]] *)
Definition held_item (its : dict string Item.t) (robot : Robot.t)
  : result Item.t :=
  match Robot.item_held robot with
  | Some item_id => lookup its item_id
  | None => KeyError
  end.

Definition allowed_drop_in_zone (its : dict string Item.t) (robot : Robot.t)
  (zone : option Zone.t) : result bool :=
  match zone with
  | None => Ok false
  | Some z =>
      match match_colour (Zone.items_returned z) with
      | None => Ok true
      | Some mc =>
          item <- held_item its robot ;;
          Ok (Colour_eqb mc (Item.colour item))
      end
  end.

(** ** The placement generators *)

(** [random.randint(a, b)] from one raw draw: a value of [a .. b]. *)
Definition randint (a b : Z) (raw : Z) : Z := a + raw mod (b - a + 1).

(** [random.choice(list(Colour))] from one raw draw. *)
Definition choice_Colour (raw : Z) : Colour :=
  nth (Z.to_nat (raw mod 3)) Colour_members RED.

Definition obstacle (x y : Z) : bool :=
  ((x =? 1) && (y =? 1)) || ((x =? 1) && (y =? -1))
  || ((x =? -1) && (y =? 1)) || ((x =? -1) && (y =? -1)).

Definition cluster_clash (x y : Z) (cluster : Cluster.t) : bool :=
  ((Cluster.x cluster =? x) && (Cluster.y cluster =? y))
  || dist_le (inject_Z (Cluster.x cluster), inject_Z (Cluster.y cluster))
             (inject_Z x, inject_Z y) 1.

(** One round of the [while True] takes two raw draws, [y] first.  A rejected
    candidate starts the next round on the remaining draws. *)
Fixpoint generate_cluster_location (cs : dict string Cluster.t)
  (colour : Colour) (ints : list Z) : result (Z * Z * list Z) :=
  match ints with
  | raw_y :: raw_x :: rest =>
      let y := randint (-2) 2 raw_y in
      let x := match colour with
               | RED => randint (-2) (-1) raw_x
               | GREEN => randint (-1) 1 raw_x
               | BLUE => randint 1 2 raw_x
               end in
      if obstacle x y then generate_cluster_location cs colour rest
      else if existsb (cluster_clash x y) (Dict.values cs)
      then generate_cluster_location cs colour rest
      else Ok (x, y, rest)
  | _ => Starved
  end.

Definition item_clash (cluster_id : string) (x y : Q) (item : Item.t) : bool :=
  String.eqb (Item.cluster_id item) cluster_id
  && dist_lt (Item.x item, Item.y item) (x, y) (3 # 10).

(** One round of the [while True] takes one polar draw: the pair
    [(round(radius * cos(angle), 2), round(radius * sin(angle), 2))] computed
    from the two [random.uniform] values, each a two-decimal value standing
    for its float.  The candidate is the float sum of the integer centre and
    the offset. *)
Fixpoint generate_item_position (cs : dict string Cluster.t)
  (its : dict string Item.t) (cluster_id : string) (polars : list (Q * Q))
  : result (Q * Q * list (Q * Q)) :=
  match polars with
  | (ox, oy) :: rest =>
      cluster <- lookup cs cluster_id ;;
      let x := float (inject_Z (Cluster.x cluster) + float ox) in
      let y := float (inject_Z (Cluster.y cluster) + float oy) in
      if existsb (item_clash cluster_id x y) (Dict.values its)
      then generate_item_position cs its cluster_id rest
      else Ok (x, y, rest)
  | [] => Starved
  end.

(** ** [offload_item] *)

Definition arena_message (robot : Robot.t) (robot_id : string) : string :=
  "Item '" ++ fmt_opt (Robot.item_held robot) ++ "' held by robot '"
  ++ robot_id ++ "' has been offloaded in the arena.".

Definition zone_message (robot : Robot.t) (robot_id : string) (zone : Zone.t)
  : string :=
  "Item '" ++ fmt_opt (Robot.item_held robot) ++ "' held by robot '"
  ++ robot_id ++ "' has been offloaded at zone '"
  ++ fmt_ZoneLocation (Zone.location zone) ++ "'.".

(** [zone.items_returned[colour] += 1] *)
Definition count_up (zone : Zone.t) (colour : Colour) : result Zone.t :=
  n <- lookup (Zone.items_returned zone) colour ;;
  Ok (Zone.with_items_returned zone
        (Dict.set (Zone.items_returned zone) colour (n + 1))).

(** The result carries the response, the new state and the backend requests
    issued.  [polars] are the draws available to [generate_item_position]. *)
Definition offload_item (s : ItemManager) (robot_id : string)
  (polars : list (Q * Q)) : result (Response * ItemManager * list event) :=
  match Dict.get (robots s) robot_id with
  | None =>
      Ok (mkResponse false ("Unable to find robot_id '" ++ robot_id ++ "'"),
          s, [])
  | Some robot =>
      match Robot.item_held robot with
      | None =>
          Ok (mkResponse false
                ("Robot '" ++ robot_id
                 ++ "' does not hold any items, so unable to offload."),
              s, [])
      | Some held =>
          let zone := get_robot_zone (zones s) robot in
          allowed <- allowed_drop_in_zone (items s) robot (option_map snd zone) ;;
          match allowed, zone with
          | true, Some (l, z) =>
              item <- lookup (items s) held ;;
              z' <- count_up z (Item.colour item) ;;
              let s1 := with_zones s (Dict.set (zones s) l z') in
              '(x, y, _) <- generate_item_position (clusters s1) (items s1)
                              (Item.cluster_id item) polars ;;
              let s2 := with_items s1
                          (Dict.set (items s1) held (Item.with_xy item x y)) in
              let call := SetEntityState held "world" x y 0 in
              let robot' := Robot.with_previous_item_held
                              (Robot.with_item_held robot None) None in
              let s3 := with_robots s2 (Dict.set (robots s2) robot_id robot') in
              Ok (mkResponse true (zone_message robot' robot_id z'), s3, [call])
          | _, _ =>
              (* [not allowed]; a missing zone is never allowed *)
              let call := SetEntityState held robot_id 0 0 0 in
              let msg := arena_message robot robot_id in
              let robot' := Robot.with_item_held robot None in
              Ok (mkResponse true msg,
                  with_robots s (Dict.set (robots s) robot_id robot'), [call])
          end
      end
  end.

(** ** [control_loop] *)

(** What one tick takes from its environment: the raw integer draws behind
    [random.choice] and [random.randint], the polar draws of
    [generate_item_position], the names answered by [get_model_list] and the
    position answered by [get_entity_state] for each name. *)
Record TickEnv := mkTickEnv {
  raw_ints : list Z;
  polar_draws : list (Q * Q);
  model_names : list string;
  entity_position : string -> Q * Q
}.

Definition colour_count (cs : dict string Cluster.t) (colour : Colour) : nat :=
  length (filter (fun c => Colour_eqb colour (Cluster.colour c))
                 (Dict.values cs)).

(** A colour used by fewer than two clusters, redrawn until one is found. *)
Fixpoint choose_colour (cs : dict string Cluster.t) (ints : list Z)
  : result (Colour * list Z) :=
  match ints with
  | raw :: rest =>
      let colour := choice_Colour raw in
      if (colour_count cs colour <? 2)%nat then Ok (colour, rest)
      else choose_colour cs rest
  | [] => Starved
  end.

(** [spawn_item]: the request sent, and [item_counter] moved on. *)
Definition spawn_item (s : ItemManager) (name : string) (x y : Q)
  (colour : Colour) (z : Q) : ItemManager * event :=
  (with_item_counter s (S (item_counter s)), SpawnEntity name colour x y z).

(** [for j in range(n)]: the items of one cluster. *)
Fixpoint seed_items (n : nat) (s : ItemManager) (cluster_id : string)
  (colour : Colour) (polars : list (Q * Q))
  : result (ItemManager * list event * list (Q * Q)) :=
  match n with
  | O => Ok (s, [], polars)
  | S n' =>
      '(x, y, polars1) <- generate_item_position (clusters s) (items s)
                            cluster_id polars ;;
      let item_id := "item" ++ str_of_nat (item_counter s) in
      let s1 := with_items s
                  (Dict.set (items s) item_id (Item.mk x y colour cluster_id)) in
      let '(s2, ev) := spawn_item s1 item_id x y colour 0 in
      '(s3, evs, polars2) <- seed_items n' s2 cluster_id colour polars1 ;;
      Ok (s3, ev :: evs, polars2)
  end.

(** [for i in range(n)]: the clusters, each with its items. *)
Fixpoint seed_clusters (n : nat) (s : ItemManager) (ints : list Z)
  (polars : list (Q * Q)) : result (ItemManager * list event) :=
  match n with
  | O => Ok (s, [])
  | S n' =>
      '(colour, ints1) <- choose_colour (clusters s) ints ;;
      let cluster_id := "cluster" ++ str_of_nat (cluster_counter s) in
      let s1 := with_cluster_counter s (S (cluster_counter s)) in
      '(x, y, ints2) <- generate_cluster_location (clusters s1) colour ints1 ;;
      let s2 := with_clusters s1
                  (Dict.set (clusters s1) cluster_id (Cluster.mk x y colour)) in
      match ints2 with
      | [] => Starved
      | raw :: ints3 =>
          '(s3, evs, polars1) <- seed_items (Z.to_nat (randint 3 5 raw)) s2
                                   cluster_id colour polars ;;
          '(s4, evs') <- seed_clusters n' s3 ints3 polars1 ;;
          Ok (s4, (evs ++ evs')%list)
      end
  end.

(** ["robot" in model_name] *)
Definition names_robot (model_name : string) : bool :=
  match String.index 0 "robot" model_name with
  | Some _ => true
  | None => false
  end.

Definition discover (rs : dict string Robot.t) (model_name : string)
  : dict string Robot.t :=
  if names_robot model_name && negb (Dict.mem rs model_name)
  then Dict.set rs model_name (Robot.init 0 0)
  else rs.

(** [for robot_id, robot in self.robots.items()]: the robots in dict order,
    each one moved to its rounded backend position and dragging the item it
    holds.  The item map is threaded through, so that a later robot sees what
    an earlier one wrote. *)
Fixpoint sync_robots (position : string -> Q * Q) (rs : dict string Robot.t)
  (its : dict string Item.t)
  : result (dict string Robot.t * dict string Item.t * list event) :=
  match rs with
  | [] => Ok ([], its, [])
  | (robot_id, robot) :: rest =>
      let robot' := Robot.with_xy robot (round2 (fst (position robot_id)))
                                        (round2 (snd (position robot_id))) in
      match Robot.item_held robot' with
      | None =>
          '(rest', its', evs) <- sync_robots position rest its ;;
          Ok ((robot_id, robot') :: rest', its', GetEntityState robot_id :: evs)
      | Some held =>
          item <- lookup its held ;;
          let its1 := Dict.set its held
                        (Item.with_xy item (Robot.x robot') (Robot.y robot')) in
          '(rest', its', evs) <- sync_robots position rest its1 ;;
          Ok ((robot_id, robot') :: rest', its',
              GetEntityState robot_id
              :: SetEntityState held robot_id 0 0 (15 # 100) :: evs)
      end
  end.

Definition item_holder (its : dict string Item.t) (entry : string * Robot.t)
  : result ItemHolder :=
  let '(robot_id, robot) := entry in
  match Robot.item_held robot with
  | None => Ok (mkItemHolder robot_id false "" 0)
  | Some held =>
      item <- lookup its held ;;
      Ok (mkItemHolder robot_id true (Colour_name (Item.colour item))
                       (item_values (Item.colour item)))
  end.

Fixpoint item_holders (its : dict string Item.t) (rs : dict string Robot.t)
  : result (list ItemHolder) :=
  match rs with
  | [] => Ok []
  | entry :: rest =>
      h <- item_holder its entry ;;
      hs <- item_holders its rest ;;
      Ok (h :: hs)
  end.

(** The sum of [zone.items_returned[colour]] over the zones. *)
Fixpoint returned_total (zs : dict ZoneLocation Zone.t) (colour : Colour)
  : result Z :=
  match zs with
  | [] => Ok 0
  | (_, zone) :: rest =>
      n <- lookup (Zone.items_returned zone) colour ;;
      m <- returned_total rest colour ;;
      Ok (n + m)
  end.

Definition item_log (zs : dict ZoneLocation Zone.t) : result ItemLog :=
  r <- returned_total zs RED ;;
  g <- returned_total zs GREEN ;;
  b <- returned_total zs BLUE ;;
  let rv := r * item_values RED in
  let gv := g * item_values GREEN in
  let bv := b * item_values BLUE in
  Ok (mkItemLog r g b (r + g + b) rv gv bv (rv + gv + bv)).

Definition control_loop (s : ItemManager) (env : TickEnv)
  : result (ItemManager * list event) :=
  '(s1, seeding) <-
     (if first_run s
      then seed_clusters 6 (with_first_run s false)
                         (raw_ints env) (polar_draws env)
      else Ok (s, [])) ;;
  let '(s2, ready) := spawn_item s1 "ready" 0 0 RED (-5 # 10) in
  let s3 := with_robots s2 (fold_left discover (model_names env) (robots s2)) in
  '(rs, its, syncing) <- sync_robots (entity_position env) (robots s3)
                           (items s3) ;;
  let s4 := with_items (with_robots s3 rs) its in
  holders <- item_holders (items s4) (robots s4) ;;
  log <- item_log (zones s4) ;;
  Ok (s4, (seeding ++ [ready; GetModelList] ++ syncing
           ++ [PublishItemHolders holders; PublishItemLog log])%list).

(** ** Runs *)

Inductive request :=
| PickUp (robot_id : string)
| Offload (robot_id : string) (polars : list (Q * Q))
| Tick (env : TickEnv).

(** One completed callback.  The timer and both services share one mutually
    exclusive callback group, so callbacks run one after the other. *)
Definition step (s : ItemManager) (r : request) : result ItemManager :=
  match r with
  | PickUp robot_id => Ok (snd (pick_up_item s robot_id))
  | Offload robot_id polars =>
      '(_, s', _) <- offload_item s robot_id polars ;;
      Ok s'
  | Tick env =>
      '(s', _) <- control_loop s env ;;
      Ok s'
  end.

Fixpoint run (s : ItemManager) (rs : list request) : result ItemManager :=
  match rs with
  | [] => Ok s
  | r :: rest =>
      s' <- step s r ;;
      run s' rest
  end.

(** The states the node can be in after some completed callbacks. *)
Definition reachable (cfg : Config) (s : ItemManager) : Prop :=
  exists rs, run (init cfg) rs = Ok s.

(** ** [setup.py]: the data files of the [week_8] package *)

Definition package_name : string := "week_8".

(** [path.endswith('/')] *)
Fixpoint ends_with_sep (path : string) : bool :=
  match path with
  | EmptyString => false
  | String c EmptyString => Ascii.eqb c "/"
  | String _ rest => ends_with_sep rest
  end.

(** [os.path.join(a, b)] on POSIX: an absolute [b] replaces [a]; otherwise
    [b] is appended, after a separator unless [a] is empty or ends in one. *)
Definition path_join (a b : string) : string :=
  if String.prefix "/" b then b
  else if match a with EmptyString => true | _ => ends_with_sep a end
       then a ++ b
       else a ++ "/" ++ b.

(** [os.path.join('share', package_name, path)] *)
Definition install_path (path : string) : string :=
  path_join (path_join "share" package_name) path.

(** The body of the innermost loop: the file goes to the list of its install
    path, which is created on first use. *)
Definition add_file (path : string) (paths_dict : dict string (list string))
  (filename : string) : dict string (list string) :=
  let file_path := path_join path filename in
  match Dict.get paths_dict (install_path path) with
  | Some files =>
      Dict.set paths_dict (install_path path) (files ++ [file_path])%list
  | None => Dict.set paths_dict (install_path path) [file_path]
  end.

(** One triple of [os.walk]: its path and its file names. *)
Definition add_walked (paths_dict : dict string (list string))
  (entry : string * list string) : dict string (list string) :=
  fold_left (add_file (fst entry)) (snd entry) paths_dict.

(** [walk] stands for [os.walk]: the triples it yields for a directory, each
    reduced to its path and its file names. *)
Definition package_files (walk : string -> list (string * list string))
  (data_files : list (string * list string)) (directory_list : list string)
  : list (string * list string) :=
  (data_files
   ++ fold_left (fun paths_dict directory =>
                   fold_left add_walked (walk directory) paths_dict)
                directory_list [])%list.

(** ** A worked run

    All four zones enabled.  The first tick seeds six clusters of three items
    and discovers two robots, both 0.2 away from [item0]. *)

Definition all_zones : Config := mkConfig true true true true.

Definition three_items : list (Q * Q) := [(0, 0); (4 # 10, 0); (0, 4 # 10)]%Q.

Definition near_item0 (name : string) : Q * Q :=
  if String.eqb name "robot1" then (-22 # 10, -2)%Q else (-2, -22 # 10)%Q.

Definition seeding_env : TickEnv :=
  mkTickEnv
    [0; 0; 0; 0;  0; 2; 0; 0;  1; 0; 1; 0;  1; 2; 1; 0;  2; 0; 1; 0;  2; 2; 1; 0]
    (three_items ++ three_items ++ three_items
     ++ three_items ++ three_items ++ three_items)%list
    ["ground_plane"; "robot1"; "robot2"]
    near_item0.

(** A later tick: the backend reports [robot1] at [p], [robot2] where it was. *)
Definition robot1_at (p : Q * Q) : TickEnv :=
  mkTickEnv [] [] ["ground_plane"; "robot1"; "robot2"]
    (fun name => if String.eqb name "robot1" then p else near_item0 name).

Definition top_left_centre : Q * Q := (257 # 100, 25 # 10).

Definition state_after (rs : list request) : ItemManager :=
  match run (init all_zones) rs with
  | Ok s => s
  | _ => init all_zones
  end.

Definition seeded : list request := [Tick seeding_env].

(** Both robots ask for an item while next to [item0]. *)
Definition both_pick : list request :=
  (seeded ++ [PickUp "robot1"; PickUp "robot2"])%list.

(** [robot1] carries [item0] (red) into the fresh top-left zone. *)
Definition carry_red : list request :=
  (seeded ++ [PickUp "robot1"; Tick (robot1_at top_left_centre)])%list.

(** The draws of the deposit: the first candidate is too close to [item1]. *)
Definition deposit_draws : list (Q * Q) :=
  [(3 # 10, 1 # 10); (-2 # 10, -2 # 10)]%Q.

Definition deposit_red : list request :=
  (carry_red ++ [Offload "robot1" deposit_draws])%list.

(** After the red deposit [robot1] fetches [item6] (green) and comes back. *)
Definition fetch_green : list request :=
  [Tick (robot1_at (0, -2)%Q); PickUp "robot1";
   Tick (robot1_at top_left_centre)].

Definition carry_green : list request := (deposit_red ++ fetch_green)%list.

(** * Vocabulary of the properties *)

(** The laws of a key comparison. *)
Class KeyLaws (K : Type) `{Key K} :=
  keyb_eq : forall a b : K, keyb a b = true <-> a = b.

(** The Euclidean distance of two points, over the reals. *)
Definition euclid (p q : Q * Q) : R :=
  sqrt ((Q2R (fst p) - Q2R (fst q)) * (Q2R (fst p) - Q2R (fst q))
        + (Q2R (snd p) - Q2R (snd q)) * (Q2R (snd p) - Q2R (snd q)))%R.

(** The floats that the coordinates of a point stand for. *)
Definition as_float (p : Q * Q) : Q * Q := (float (fst p), float (snd p)).

(** Half a unit in the last place of a binary64 number in [[1, 2)]: the
    largest relative error of one rounding. *)
Definition ulp_half : Q := 1 # 9007199254740992.
Definition unit_roundoff : R := (/ 9007199254740992)%R.

(** The margin within which [math.dist] and the Euclidean distance may
    disagree about a threshold of at most 1. *)
Definition tolerance : Q := 1 # 1000000000000000.

(** The item is in reach of the robot: [math.dist] of their positions is
    strictly less than the float [DISTANCE]. *)
Definition in_range (robot : Robot.t) (item : Item.t) : Prop :=
  (math_dist (Robot.x robot, Robot.y robot) (Item.x item, Item.y item)
   < float DISTANCE)%Q.

(** The counter of a colour in a zone. *)
Definition count (z : Zone.t) (colour : Colour) : Z :=
  match Dict.get (Zone.items_returned z) colour with
  | Some n => n
  | None => 0
  end.

(** The three counters of a zone, in the order the start-up loop created them:
    none is negative and at most one colour has been returned. *)
Definition zone_ok (z : Zone.t) : Prop :=
  exists r g b,
    Zone.items_returned z = [(RED, r); (GREEN, g); (BLUE, b)]
    /\ 0 <= r /\ 0 <= g /\ 0 <= b
    /\ ((r = 0 /\ g = 0) \/ (r = 0 /\ b = 0) \/ (g = 0 /\ b = 0)).

(** What every reachable state satisfies: a held id names an item, the
    cluster of an item exists, every zone is [zone_ok] and no zone location
    occurs twice. *)
Record wf (s : ItemManager) : Prop := mk_wf {
  wf_held : forall robot_id robot held,
      In (robot_id, robot) (robots s) ->
      Robot.item_held robot = Some held ->
      Dict.mem (items s) held = true;
  wf_cluster : forall item_id item,
      In (item_id, item) (items s) ->
      Dict.mem (clusters s) (Item.cluster_id item) = true;
  wf_zones : forall l z, In (l, z) (zones s) -> zone_ok z;
  wf_zone_keys : NoDup (Dict.keys (zones s))
}.

(** The state after a drop on the arena floor. *)
Definition arena_state (s : ItemManager) (robot_id : string) (robot : Robot.t)
  : ItemManager :=
  with_robots s (Dict.set (robots s) robot_id (Robot.with_item_held robot None)).

(** [robot.item_held = None; robot.previous_item_held = None] *)
Definition cleared (robot : Robot.t) : Robot.t :=
  Robot.with_previous_item_held (Robot.with_item_held robot None) None.

(** The state after a zone deposit: the zone under [l] is now [z'], the item
    lies at [(x, y)] and the robot holds nothing. *)
Definition deposit_state (s : ItemManager) (robot_id : string)
  (robot : Robot.t) (held : string) (item : Item.t) (l : ZoneLocation)
  (z' : Zone.t) (x y : Q) : ItemManager :=
  with_robots
    (with_items (with_zones s (Dict.set (zones s) l z'))
                (Dict.set (items s) held (Item.with_xy item x y)))
    (Dict.set (robots s) robot_id (cleared robot)).

(** The robot stands in no zone or in one that refuses the item it holds. *)
Definition refused (s : ItemManager) (robot : Robot.t) : Prop :=
  allowed_drop_in_zone (items s) robot
    (option_map snd (get_robot_zone (zones s) robot)) = Ok false.

(** The robot stands in zone [z], held under [l], which accepts its item. *)
Definition accepted (s : ItemManager) (robot : Robot.t) (l : ZoneLocation)
  (z : Zone.t) : Prop :=
  get_robot_zone (zones s) robot = Some (l, z)
  /\ allowed_drop_in_zone (items s) robot (Some z) = Ok true.

(** A robot moved to the rounded position the backend reports for it. *)
Definition synced (position : string -> Q * Q) (e : string * Robot.t)
  : string * Robot.t :=
  (fst e, Robot.with_xy (snd e) (round2 (fst (position (fst e))))
                        (round2 (snd (position (fst e))))).

(** How the tick may change the entry of an item: never its id, colour or
    cluster, and its coordinates only if [held] says a robot holds it. *)
Definition dragged (held : string -> Prop) (a b : string * Item.t) : Prop :=
  fst b = fst a
  /\ Item.colour (snd b) = Item.colour (snd a)
  /\ Item.cluster_id (snd b) = Item.cluster_id (snd a)
  /\ (snd b = snd a \/ held (fst a)).

(** Some robot of [rs] holds [item_id]. *)
Definition holds (rs : dict string Robot.t) (item_id : string) : Prop :=
  exists robot_id robot,
    In (robot_id, robot) rs /\ Robot.item_held robot = Some item_id.

(** The text of the zone-deposit response for a given rendering of the item. *)
Definition deposit_report (item_text robot_id : string) (l : ZoneLocation)
  : string :=
  "Item '" ++ item_text ++ "' held by robot '" ++ robot_id
  ++ "' has been offloaded at zone '" ++ fmt_ZoneLocation l ++ "'.".

(** The reading under which the response of a zone deposit names the item as
    the empty string. *)
Definition deposit_reports_empty : Prop :=
  forall cfg s robot_id polars robot held l z r s' evs,
    reachable cfg s ->
    Dict.get (robots s) robot_id = Some robot ->
    Robot.item_held robot = Some held ->
    accepted s robot l z ->
    offload_item s robot_id polars = Ok (r, s', evs) ->
    message r = deposit_report "" robot_id (Zone.location z).

(** No item id is held by two distinct robots. *)
Definition single_holder (s : ItemManager) : Prop :=
  forall id1 id2 robot1 robot2 item_id,
    Dict.get (robots s) id1 = Some robot1 ->
    Dict.get (robots s) id2 = Some robot2 ->
    Robot.item_held robot1 = Some item_id ->
    Robot.item_held robot2 = Some item_id ->
    id1 = id2.



(** The item is strictly less than [DISTANCE] from the robot by the
    Euclidean distance of their coordinates as [read] takes them: as the
    floats that are stored, or as the two-decimal numbers they round to. *)
Definition within_reach (read : Q -> Q) (robot : Robot.t) (item : Item.t)
  : Prop :=
  (euclid (read (Robot.x robot), read (Robot.y robot))
          (read (Item.x item), read (Item.y item))
   < Q2R DISTANCE)%R.

(** The floats as they are stored. *)
Definition stored (q : Q) : Q := q.

(** The reading under which [pick_up_item] decides by that distance: a robot
    holding nothing gets the first item of the map within reach, and is
    turned away when no item is. *)
Definition picks_within_reach (read : Q -> Q) : Prop :=
  forall s robot_id robot,
    Dict.get (robots s) robot_id = Some robot ->
    Robot.item_held robot = None ->
    (forall pre item_id item post,
        items s = (pre ++ (item_id, item) :: post)%list ->
        within_reach read robot item ->
        (forall e, In e pre -> ~ within_reach read robot (snd e)) ->
        pick_up_item s robot_id
        = (mkResponse true
             ("Robot '" ++ robot_id ++ "' collected item successfully"),
           with_robots s
             (Dict.set (robots s) robot_id
                (Robot.with_item_held robot (Some item_id)))))
    /\ ((forall e, In e (items s) -> ~ within_reach read robot (snd e)) ->
        pick_up_item s robot_id
        = (mkResponse false
             ("Robot '" ++ robot_id ++ "' unable to pick any item."), s)).

(** The reading under which a position returned by
    [generate_item_position] is at Euclidean distance at least 0.3 from
    every item recorded for the cluster. *)
Definition items_kept_apart : Prop :=
  forall cs its cluster_id polars x y rest,
    generate_item_position cs its cluster_id polars = Ok (x, y, rest) ->
    forall item_id item,
      In (item_id, item) its ->
      Item.cluster_id item = cluster_id ->
      (Q2R (3 # 10) <= euclid (Item.x item, Item.y item) (x, y))%R.

(** The reading under which both generators keep their exact distances: a
    returned cluster cell is no obstacle, differs from every cluster centre
    and is more than 1.0 from each, and a returned item position is at
    least 0.3 from every item of the cluster. *)
Definition placement_exact : Prop :=
  (forall cs colour ints x y rest,
      generate_cluster_location cs colour ints = Ok (x, y, rest) ->
      ~ In (x, y) [(1, 1); (1, -1); (-1, 1); (-1, -1)]
      /\ forall cluster_id cluster,
          In (cluster_id, cluster) cs ->
          (Cluster.x cluster, Cluster.y cluster) <> (x, y)
          /\ (1 < euclid (inject_Z (Cluster.x cluster),
                          inject_Z (Cluster.y cluster))
                         (inject_Z x, inject_Z y))%R)
  /\ items_kept_apart.

(** A tick that finds [robot1] 0.35 to the right of [item7], which lies at
    the float [0.4] on the row of its cluster. *)
Definition beside_item7 : list request :=
  (seeded ++ [Tick (robot1_at (75 # 100, -2)%Q)])%list.

(** A tick that finds [robot1] at (-2.21, -2.28), which is 0.35 from [item0]
    at (-2.0, -2.0) in two-decimal numbers. *)
Definition below_item0 : list request :=
  (seeded ++ [Tick (robot1_at (-221 # 100, -228 # 100)%Q)])%list.

(** ** Vocabulary of the further properties *)

(** What identifies a zone: its key, its location and its centre. *)
Definition zone_sig (e : ZoneLocation * Zone.t)
  : ZoneLocation * ZoneLocation * Q * Q :=
  (fst e, Zone.location (snd e), Zone.x (snd e), Zone.y (snd e)).

(** What never changes about an item: its id, its colour and its cluster. *)
Definition item_meta (e : string * Item.t) : string * Colour * string :=
  (fst e, Item.colour (snd e), Item.cluster_id (snd e)).

(** ["cluster" + str(i)] and ["item" + str(i)] *)
Definition cluster_name (i : nat) : string := "cluster" ++ str_of_nat i.
Definition item_name (i : nat) : string := "item" ++ str_of_nat i.

(** What holds of every tracked robot: its id contains [robot], its
    previously-held field is empty and its coordinates have two decimals. *)
Definition robot_ok (e : string * Robot.t) : Prop :=
  names_robot (fst e) = true
  /\ Robot.previous_item_held (snd e) = None
  /\ Qden (Robot.x (snd e)) = 100%positive
  /\ Qden (Robot.y (snd e)) = 100%positive.

Definition registry (s : ItemManager) : Prop :=
  NoDup (Dict.keys (robots s)) /\ Forall robot_ok (robots s).

(** The centre given to each zone at start-up. *)
Definition centre (l : ZoneLocation) : Q * Q :=
  match l with
  | TOP_LEFT => (257 # 100, 25 # 10)
  | TOP_RIGHT => (257 # 100, -246 # 100)
  | BOTTOM_RIGHT => (-342 # 100, -246 # 100)
  | BOTTOM_LEFT => (-342 # 100, 25 # 10)
  end.

(** The parameter that enables a zone. *)
Definition enabled (cfg : Config) (l : ZoneLocation) : bool :=
  match l with
  | TOP_LEFT => zone_top_left cfg
  | TOP_RIGHT => zone_top_right cfg
  | BOTTOM_RIGHT => zone_bottom_right cfg
  | BOTTOM_LEFT => zone_bottom_left cfg
  end.

(** The robot lies in the closed square of half-width [ZONE_SIZE] around the
    centre of the zone. *)
Definition inside (robot : Robot.t) (zone : Zone.t) : Prop :=
  (Zone.x zone - ZONE_SIZE <= Robot.x robot <= Zone.x zone + ZONE_SIZE
   /\ Zone.y zone - ZONE_SIZE <= Robot.y robot <= Zone.y zone + ZONE_SIZE)%Q.

(** The number of items recorded for a cluster. *)
Definition items_of (cluster_id : string) (its : dict string Item.t) : nat :=
  length (filter (fun e => String.eqb (Item.cluster_id (snd e)) cluster_id)
                 its).

(** Two cluster centres more than 1.0 apart. *)
Definition far_apart (a b : Cluster.t) : Prop :=
  (1 < euclid (inject_Z (Cluster.x a), inject_Z (Cluster.y a))
              (inject_Z (Cluster.x b), inject_Z (Cluster.y b)))%R.

(** A centre inside the band of its colour and on no obstacle cell. *)
Definition in_band (c : Cluster.t) : Prop :=
  -2 <= Cluster.y c <= 2
  /\ match Cluster.colour c with
     | RED => -2 <= Cluster.x c <= -1
     | GREEN => -1 <= Cluster.x c <= 1
     | BLUE => 1 <= Cluster.x c <= 2
     end
  /\ ~ In (Cluster.x c, Cluster.y c) [(1, 1); (1, -1); (-1, 1); (-1, -1)].

(** Two items that, if of one cluster, are not less than 0.3 apart by
    [math.dist], the first given first. *)
Definition item_far (a b : Item.t) : Prop :=
  Item.cluster_id a = Item.cluster_id b ->
  (float (3 # 10) <= math_dist (Item.x a, Item.y a) (Item.x b, Item.y b))%Q.

(** The arena while it is being seeded: [k] clusters exist, the last of them
    has [j] items so far and the earlier ones are complete. *)
Record seeding (k j : nat) (s : ItemManager) : Prop := mk_seeding {
  sd_counter : cluster_counter s = k;
  sd_zero : k = 0%nat -> j = 0%nat;
  sd_keys : Dict.keys (clusters s) = map cluster_name (seq 0 k);
  sd_cap : forall c, (colour_count (clusters s) c <= 2)%nat;
  sd_item_keys : Dict.keys (items s) = map item_name (seq 0 (item_counter s));
  sd_colour : forall item_id item,
      In (item_id, item) (items s) ->
      exists c, Dict.get (clusters s) (Item.cluster_id item) = Some c
                /\ Cluster.colour c = Item.colour item;
  sd_full : forall i, (S i < k)%nat ->
                      (3 <= items_of (cluster_name i) (items s) <= 5)%nat;
  sd_last : forall i, S i = k ->
                      items_of (cluster_name i) (items s) = j;
  sd_total : exists m, item_counter s = (m + j)%nat
                       /\ (3 * pred k <= m <= 5 * pred k)%nat;
  sd_apart : ForallOrdPairs far_apart (Dict.values (clusters s));
  sd_band : Forall in_band (Dict.values (clusters s));
  sd_item_apart : ForallOrdPairs item_far (Dict.values (items s))
}.

(** The seeded arena, as far as clusters and the ids, colours and clusters of
    the items go: six clusters named in order, two of each colour, each in
    its band and more than 1.0 from the others; between 18 and 30 items named
    in order, three to five in each cluster, each of the colour of its
    cluster. *)
Record arena_layout (cs : dict string Cluster.t) (its : dict string Item.t)
  : Prop := mk_arena_layout {
  ar_keys : Dict.keys cs = map cluster_name (seq 0 6);
  ar_two : forall c, colour_count cs c = 2%nat;
  ar_apart : ForallOrdPairs (fun a b => far_apart (snd a) (snd b)) cs;
  ar_band : Forall in_band (Dict.values cs);
  ar_item_keys : Dict.keys its = map item_name (seq 0 (length its));
  ar_total : (18 <= length its <= 30)%nat;
  ar_count : forall i, (i < 6)%nat ->
                       (3 <= items_of (cluster_name i) its <= 5)%nat;
  ar_colour : forall item_id item,
      In (item_id, item) its ->
      exists c, Dict.get cs (Item.cluster_id item) = Some c
                /\ Cluster.colour c = Item.colour item
}.

(** The counters of one colour summed over the zones. *)
Definition returned_sum (zs : dict ZoneLocation Zone.t) (colour : Colour) : Z :=
  fold_right (fun e acc => count (snd e) colour + acc) 0 zs.

(** The holder record that describes a robot. *)
Definition describes (its : dict string Item.t) (e : string * Robot.t)
  (h : ItemHolder) : Prop :=
  holder_robot_id h = fst e
  /\ match Robot.item_held (snd e) with
     | None => holding_item h = false /\ item_colour h = "" /\ item_value h = 0
     | Some held =>
         exists item,
           Dict.get its held = Some item
           /\ holding_item h = true
           /\ item_colour h = Colour_name (Item.colour item)
           /\ item_value h = item_values (Item.colour item)
     end.

(** Zone by zone, no counter of the second map is below that of the first. *)
Definition zones_le (zs zs' : dict ZoneLocation Zone.t) : Prop :=
  Forall2 (fun a b => fst a = fst b
                      /\ forall c, count (snd a) c <= count (snd b) c)
          zs zs'.

(** An event that is a backend request, not a publication. *)
Definition is_request (e : event) : Prop :=
  match e with
  | PublishItemHolders _ | PublishItemLog _ => False
  | _ => True
  end.

(** The candidate position that a polar draw gives around a cluster. *)
Definition item_candidate (cluster : Cluster.t) (d : Q * Q) : Q * Q :=
  (float (inject_Z (Cluster.x cluster) + float (fst d)),
   float (inject_Z (Cluster.y cluster) + float (snd d))).

(** Some item recorded for the cluster is less than 0.3 from the point by
    [math.dist]. *)
Definition too_close (cluster_id : string) (its : dict string Item.t)
  (p : Q * Q) : Prop :=
  exists item_id item,
    In (item_id, item) its
    /\ Item.cluster_id item = cluster_id
    /\ (math_dist (Item.x item, Item.y item) p < float (3 # 10))%Q.

(** The candidate cell that two raw draws give for a colour. *)
Definition cluster_candidate (colour : Colour) (raw_y raw_x : Z) : Z * Z :=
  (match colour with
   | RED => randint (-2) (-1) raw_x
   | GREEN => randint (-1) 1 raw_x
   | BLUE => randint 1 2 raw_x
   end,
   randint (-2) 2 raw_y).

(** The cell is an obstacle or within 1.0 of an existing cluster centre. *)
Definition blocked (cs : dict string Cluster.t) (p : Z * Z) : Prop :=
  In p [(1, 1); (1, -1); (-1, 1); (-1, -1)]
  \/ exists cluster_id c,
      In (cluster_id, c) cs
      /\ (euclid (inject_Z (Cluster.x c), inject_Z (Cluster.y c))
                 (inject_Z (fst p), inject_Z (snd p)) <= 1)%R.

(** The draws of some rounds of [generate_cluster_location], in order. *)
Definition rounds (l : list (Z * Z)) : list Z :=
  flat_map (fun r => [fst r; snd r]) l.

(** The files that the walks of the directories find, in order, each with
    the path it was found under. *)
Definition found_files (walk : string -> list (string * list string))
  (directory_list : list string) : list (string * string) :=
  flat_map (fun directory =>
              flat_map (fun entry => map (pair (fst entry)) (snd entry))
                       (walk directory))
           directory_list.

(** The paths of the found files that are installed under [key], in order. *)
Definition installed_under (key : string) (found : list (string * string))
  : list string :=
  map (fun f => path_join (fst f) (snd f))
      (filter (fun f => String.eqb (install_path (fst f)) key) found).

(** The distinct members of a list, each where it first appears. *)
Fixpoint first_seen (l : list string) : list string :=
  match l with
  | [] => []
  | k :: rest =>
      k :: filter (fun k' => negb (String.eqb k' k)) (first_seen rest)
  end.

(** * Properties *)

(** ** Dict lemmas *)

#[export] Instance KeyLaws_string : KeyLaws string.
Proof. intros a b. apply String.eqb_eq. Qed.

#[export] Instance KeyLaws_Colour : KeyLaws Colour.
Proof. intros a b. destruct a, b; simpl; split; congruence. Qed.

#[export] Instance KeyLaws_ZoneLocation : KeyLaws ZoneLocation.
Proof. intros a b. destruct a, b; simpl; split; congruence. Qed.

Section DictFacts.
Context {K V : Type} `{KeyLaws K}.
Implicit Types (d : list (K * V)) (k : K) (v : V).

Lemma keyb_refl k : keyb k k = true.
Proof. now apply keyb_eq. Qed.

Lemma keyb_neq k k' : k <> k' -> keyb k k' = false.
Proof.
  intros Hne. destruct (keyb k k') eqn:E; [|reflexivity].
  apply keyb_eq in E. contradiction.
Qed.

Lemma keyb_dec k k' : {k = k'} + {k <> k'}.
Proof.
  destruct (keyb k k') eqn:E.
  - left. now apply keyb_eq.
  - right. intros ->. rewrite keyb_refl in E. discriminate.
Qed.

Lemma get_set_same d k v : Dict.get (Dict.set d k v) k = Some v.
Proof.
  induction d as [|[k' v'] d IH]; simpl.
  - now rewrite keyb_refl.
  - destruct (keyb k k') eqn:E; simpl; rewrite E; auto.
Qed.

Lemma get_set_other d k k' v :
  k' <> k -> Dict.get (Dict.set d k v) k' = Dict.get d k'.
Proof.
  intros Hne. induction d as [|[k0 v0] d IH]; simpl.
  - now rewrite (keyb_neq k' k).
  - destruct (keyb k k0) eqn:E; simpl.
    + apply keyb_eq in E. subst k0. now rewrite (keyb_neq k' k).
    + now rewrite IH.
Qed.

Lemma get_In d k v : Dict.get d k = Some v -> In (k, v) d.
Proof.
  induction d as [|[k' v'] d IH]; simpl; [discriminate|].
  destruct (keyb k k') eqn:E.
  - apply keyb_eq in E. subst. intros [= ->]. now left.
  - intros Hg. right. auto.
Qed.

Lemma In_mem d k v : In (k, v) d -> Dict.mem d k = true.
Proof.
  unfold Dict.mem. induction d as [|[k' v'] d IH]; simpl; [tauto|].
  intros [[= -> ->]|Hin].
  - now rewrite keyb_refl.
  - destruct (keyb k k'); auto.
Qed.

Lemma In_get_NoDup d k v :
  NoDup (Dict.keys d) -> In (k, v) d -> Dict.get d k = Some v.
Proof.
  induction d as [|[k' v'] d IH]; simpl; [tauto|].
  intros Hnd Hin. inversion Hnd as [|? ? Hnotin Hnd']; subst.
  destruct Hin as [[= -> ->]|Hin].
  - now rewrite keyb_refl.
  - destruct (keyb k k') eqn:E; [|auto].
    apply keyb_eq in E. subst k'. exfalso. apply Hnotin.
    unfold Dict.keys. change k with (fst (k, v)). now apply in_map.
Qed.

Lemma In_set d k v k' v' :
  In (k', v') (Dict.set d k v) -> (k' = k /\ v' = v) \/ In (k', v') d.
Proof.
  induction d as [|[k0 v0] d IH]; simpl.
  - intros [[= <- <-]|[]]. now left.
  - destruct (keyb k k0) eqn:E; simpl.
    + apply keyb_eq in E. subst k0.
      intros [[= <- <-]|Hin]; [now left | right; now right].
    + intros [Heq|Hin]; [right; now left|].
      destruct (IH Hin) as [?|?]; [now left | right; now right].
Qed.

Lemma keys_set_present d k v :
  Dict.mem d k = true -> Dict.keys (Dict.set d k v) = Dict.keys d.
Proof.
  unfold Dict.mem. induction d as [|[k0 v0] d IH]; simpl; [discriminate|].
  destruct (keyb k k0) eqn:E; simpl; [reflexivity|].
  intros Hm. now rewrite IH.
Qed.

Lemma mem_set d k v k' :
  Dict.mem d k' = true -> Dict.mem (Dict.set d k v) k' = true.
Proof.
  unfold Dict.mem. intros Hm.
  destruct (keyb_dec k' k) as [->|Hne].
  - now rewrite get_set_same.
  - now rewrite get_set_other.
Qed.

End DictFacts.

(** ** Binary64 rounding *)

Section Binary64.

Lemma pow2_pos e : (0 < pow2 e)%Q.
Proof. unfold pow2. apply Qpower_0_lt. reflexivity. Qed.

Lemma pow2_plus a b : (pow2 (a + b) == pow2 a * pow2 b)%Q.
Proof. unfold pow2. apply Qpower_plus. discriminate. Qed.

Lemma pow2_opp a : (pow2 (- a) == / pow2 a)%Q.
Proof. unfold pow2. apply Qpower_opp. Qed.

Lemma pow2_nonneg_Z a : 0 <= a -> (pow2 a == inject_Z (2 ^ a))%Q.
Proof. intros Ha. unfold pow2. now rewrite Zpower_Qpower. Qed.

Lemma pow2_minus a b : (pow2 (a - b) == pow2 a / pow2 b)%Q.
Proof.
  unfold Z.sub. rewrite pow2_plus, pow2_opp. reflexivity.
Qed.

Lemma pow2_le a b : a <= b -> (pow2 a <= pow2 b)%Q.
Proof.
  intros Hab. replace b with (a + (b - a)) by lia.
  rewrite pow2_plus. rewrite <- (Qmult_1_r (pow2 a)) at 1.
  apply Qmult_le_l; [apply pow2_pos|].
  rewrite pow2_nonneg_Z by lia.
  change 1%Q with (inject_Z 1). rewrite <- Zle_Qle.
  assert (0 < 2 ^ (b - a)) by (apply Z.pow_pos_nonneg; lia). lia.
Qed.

(** The leading bit is not above the number. *)
Lemma ilog2_le q : (0 < q)%Q -> (pow2 (ilog2 q) <= q)%Q.
Proof.
  intros Hq. unfold ilog2.
  destruct (Qle_bool _ q) eqn:E; [now apply Qle_bool_iff in E|].
  clear E. destruct q as [n d]. cbn [Qnum Qden].
  assert (Hn : 0 < n) by (unfold Qlt in Hq; simpl in Hq; lia).
  pose proof (Z.log2_spec n Hn) as [Hn1 _].
  pose proof (Z.log2_spec (Zpos d) eq_refl) as [_ Hd2].
  pose proof (Z.log2_nonneg n) as Hln.
  pose proof (Z.log2_nonneg (Zpos d)) as Hld.
  set (ln := Z.log2 n) in *. set (ld := Z.log2 (Zpos d)) in *.
  replace (ln - ld - 1) with (ln - (ld + 1)) by lia.
  rewrite pow2_minus, !pow2_nonneg_Z by lia.
  apply Qle_shift_div_r.
  - change 0%Q with (inject_Z 0). rewrite <- Zlt_Qlt.
    apply Z.pow_pos_nonneg; lia.
  - unfold Qle. cbn [Qnum Qden Qmult inject_Z].
    rewrite Pos.mul_1_r, Z.mul_1_r.
    change (Z.succ ld) with (ld + 1) in Hd2.
    assert (0 < 2 ^ ln) by (apply Z.pow_pos_nonneg; lia).
    assert (0 < 2 ^ (ld + 1)) by (apply Z.pow_pos_nonneg; lia).
    nia.
Qed.

Lemma round_half_even_close q :
  (-(1 # 2) <= inject_Z (round_half_even q) - q <= 1 # 2)%Q.
Proof.
  unfold round_half_even.
  pose proof (Qfloor_le q) as Hlo. pose proof (Qlt_floor q) as Hhi.
  rewrite inject_Z_plus in Hhi. change (inject_Z 1) with 1%Q in Hhi.
  destruct (Qcompare_spec (q - inject_Z (Qfloor q)) (1 # 2)) as [E|E|E].
  - destruct (Z.even (Qfloor q)).
    + Lqa.lra.
    + rewrite inject_Z_plus. change (inject_Z 1) with 1%Q. Lqa.lra.
  - Lqa.lra.
  - rewrite inject_Z_plus. change (inject_Z 1) with 1%Q. Lqa.lra.
Qed.

Lemma round_half_even_nonneg q : (0 <= q)%Q -> 0 <= round_half_even q.
Proof.
  intros Hq. unfold round_half_even.
  assert (0 <= Qfloor q).
  { change 0 with (Qfloor 0). now apply Qfloor_resp_le. }
  destruct (_ ?= _)%Q; [destruct (Z.even _)| |]; lia.
Qed.

Lemma float_pos_value q :
  (float_pos q
   == inject_Z (round_half_even (q / pow2 (ilog2 q - 52)))
      * pow2 (ilog2 q - 52))%Q.
Proof. unfold float_pos. apply Qred_correct. Qed.

Lemma float_pos_error q :
  (0 < q)%Q ->
  (- (q * ulp_half) <= float_pos q - q <= q * ulp_half)%Q.
Proof.
  intros Hq. rewrite float_pos_value.
  set (e := ilog2 q - 52).
  pose proof (pow2_pos e) as HP.
  pose proof (ilog2_le q Hq) as Hl.
  replace (ilog2 q) with (e + 52) in Hl by (unfold e; lia).
  rewrite pow2_plus in Hl.
  assert (H52 : (pow2 52 == 4503599627370496)%Q) by reflexivity.
  rewrite H52 in Hl.
  pose proof (round_half_even_close (q / pow2 e)) as Hr.
  set (m := inject_Z (round_half_even (q / pow2 e))) in *.
  assert (Hx : (q == (q / pow2 e) * pow2 e)%Q).
  { field. intros E. rewrite E in HP. discriminate. }
  set (x := (q / pow2 e)%Q) in *.
  set (P := pow2 e) in *.
  unfold ulp_half.
  assert (H1 : (0 <= (m - x + (1 # 2)) * P)%Q) by (apply Qmult_le_0_compat; Lqa.lra).
  assert (H2 : (0 <= ((1 # 2) - (m - x)) * P)%Q) by (apply Qmult_le_0_compat; Lqa.lra).
  split; rewrite Hx at 2; Lqa.lra.
Qed.

Lemma float_pos_nonneg q : (0 < q)%Q -> (0 <= float_pos q)%Q.
Proof.
  intros Hq. rewrite float_pos_value.
  apply Qmult_le_0_compat; [|apply Qlt_le_weak, pow2_pos].
  change 0%Q with (inject_Z 0). rewrite <- Zle_Qle.
  apply round_half_even_nonneg. apply Qle_shift_div_l; [apply pow2_pos|].
  rewrite Qmult_0_l. now apply Qlt_le_weak.
Qed.

Lemma Qcompare_opp_0 q : (- q ?= 0)%Q = CompOpp (q ?= 0)%Q.
Proof.
  destruct q as [[|n|n] d]; reflexivity.
Qed.

Lemma Qopp_opp q : Qopp (Qopp q) = q.
Proof. destruct q as [n d]. unfold Qopp. simpl. now rewrite Z.opp_involutive. Qed.

Lemma float_opp q : float (- q) = Qopp (float q).
Proof.
  unfold float. rewrite Qcompare_opp_0.
  destruct (q ?= 0)%Q; simpl.
  - reflexivity.
  - now rewrite Qopp_opp.
  - now rewrite Qopp_opp.
Qed.

(** The relative error of one rounding is at most [2 ^ -53]. *)
Lemma float_error q :
  (- (Qabs q * ulp_half) <= float q - q <= Qabs q * ulp_half)%Q.
Proof.
  unfold float. destruct (Qcompare_spec q 0) as [E|E|E].
  - rewrite E. simpl Qabs. unfold ulp_half. Lqa.lra.
  - assert (Hq : (0 < - q)%Q) by Lqa.lra.
    pose proof (float_pos_error _ Hq) as He.
    rewrite (Qabs_neg q) by Lqa.lra. Lqa.lra.
  - pose proof (float_pos_error _ E) as He.
    rewrite (Qabs_pos q) by Lqa.lra. Lqa.lra.
Qed.

Local Open Scope R_scope.

Lemma Q2R_inject_Z z : Q2R (inject_Z z) = IZR z.
Proof. unfold Q2R, inject_Z. simpl. Lra.lra. Qed.

Lemma sqrt_between (x a b : R) :
  0 <= a -> a * a <= x -> x < b * b -> 0 <= b -> a <= sqrt x < b.
Proof.
  intros Ha Hax Hxb Hb.
  assert (Hx : 0 <= x) by Lra.nra.
  pose proof (sqrt_pos x) as Hr. pose proof (sqrt_sqrt x Hx) as Hrr.
  split.
  - destruct (Rle_lt_dec a (sqrt x)) as [H|H]; [exact H|]. Lra.nra.
  - destruct (Rlt_le_dec (sqrt x) b) as [H|H]; [exact H|]. Lra.nra.
Qed.

Lemma float_sqrt_error s :
  (0 <= s)%Q ->
  (1 - Q2R ulp_half) * sqrt (Q2R s) <= Q2R (float_sqrt s)
  <= (1 + Q2R ulp_half) * sqrt (Q2R s).
Proof.
  intros Hs. unfold float_sqrt.
  destruct (Qcompare_spec s 0) as [E|E|E].
  - rewrite (Qeq_eqR _ _ E), RMicromega.Q2R_0, sqrt_0. Lra.lra.
  - exfalso. Lqa.lra.
  - cbv zeta.
    set (e := (ilog2 s / 2 - 52)%Z).
    set (X := (s / pow2 (2 * e))%Q).
    set (t := Z.sqrt (Qfloor X)).
    set (m := match (X ?= (inject_Z t + (1 # 2)) * (inject_Z t + (1 # 2)))%Q with
              | Eq => if Z.even t then t else (t + 1)%Z
              | Lt => t
              | Gt => (t + 1)%Z
              end).
    pose proof (pow2_pos e) as HP.
    assert (H2e : (pow2 (2 * e) == pow2 e * pow2 e)%Q).
    { replace (2 * e)%Z with (e + e)%Z by lia. apply pow2_plus. }
    assert (HsX : (s == X * (pow2 e * pow2 e))%Q).
    { unfold X. rewrite H2e. field. intros E0. rewrite E0 in HP. discriminate. }
    assert (H104 : (20282409603651670423947251286016 <= X)%Q).
    { pose proof (ilog2_le s E) as Hl.
      assert (Hk : (2 * e + 104 <= ilog2 s)%Z).
      { unfold e. pose proof (Z.mul_div_le (ilog2 s) 2 eq_refl). lia. }
      apply pow2_le in Hk. rewrite pow2_plus in Hk.
      assert (H104 : (pow2 104 == 20282409603651670423947251286016)%Q)
        by reflexivity.
      rewrite H104 in Hk. unfold X. apply Qle_shift_div_l; [apply pow2_pos|].
      Lqa.lra. }
    assert (HX0 : (0 <= Qfloor X)%Z).
    { change 0%Z with (Qfloor 0). apply Qfloor_resp_le. Lqa.lra. }
    pose proof (Z.sqrt_spec (Qfloor X) HX0) as [Ht1 Ht2]. fold t in Ht1, Ht2.
    pose proof (Z.sqrt_nonneg (Qfloor X)) as Ht0. fold t in Ht0.
    pose proof (Qfloor_le X) as Hfl. pose proof (Qlt_floor X) as Hfu.
    assert (Hlo : (inject_Z t * inject_Z t <= X)%Q).
    { rewrite <- inject_Z_mult. apply Qle_trans with (inject_Z (Qfloor X));
        [now rewrite <- Zle_Qle | exact Hfl]. }
    assert (Hhi : (X < (inject_Z t + 1) * (inject_Z t + 1))%Q).
    { apply Qlt_le_trans with (inject_Z (Qfloor X + 1)); [exact Hfu|].
      change 1%Q with (inject_Z 1).
      rewrite <- inject_Z_plus, <- inject_Z_mult, <- Zle_Qle. lia. }
    rewrite (Qeq_eqR _ _ (Qred_correct _)), (Qeq_eqR _ _ HsX).
    rewrite !Q2R_mult.
    set (P := Q2R (pow2 e)). set (x := Q2R X).
    assert (HPr : 0 < P).
    { unfold P. rewrite <- RMicromega.Q2R_0. now apply Qlt_Rlt. }
    apply Qle_Rle in Hlo, H104. apply Qlt_Rlt in Hhi.
    rewrite !Q2R_mult in Hlo. rewrite !Q2R_mult, !Q2R_plus in Hhi.
    rewrite Q2R_inject_Z in Hlo, Hhi.
    rewrite RMicromega.Q2R_1 in Hhi. fold x in Hlo, Hhi, H104.
    assert (HT : 0 <= IZR t) by now apply IZR_le.
    destruct (sqrt_between x (IZR t) (IZR t + 1) HT Hlo Hhi ltac:(Lra.lra))
      as [Hr1 Hr2].
    assert (Hx0 : 0 <= x) by Lra.nra.
    pose proof (sqrt_sqrt x Hx0) as Hrr.
    rewrite sqrt_mult by Lra.nra. rewrite sqrt_square by Lra.lra.
    set (r := sqrt x) in *.
    assert (H52 : 4503599627370496 <= r).
    { destruct (Rle_lt_dec 4503599627370496 r) as [H|H]; [exact H|].
      exfalso. unfold Q2R in H104. simpl in H104. Lra.nra. }
    assert (Hm : - (1 / 2) <= IZR m - r <= 1 / 2).
    { unfold m.
      destruct (Qcompare_spec X
                  ((inject_Z t + (1 # 2)) * (inject_Z t + (1 # 2)))) as [C|C|C].
      - apply Qeq_eqR in C. rewrite !Q2R_mult, !Q2R_plus, Q2R_inject_Z in C.
        fold x in C. replace (Q2R (1 # 2)) with (1 / 2) in C
          by (unfold Q2R; simpl; Lra.lra).
        assert (Hr : r = IZR t + 1 / 2).
        { unfold r. rewrite C. apply sqrt_square. Lra.lra. }
        destruct (Z.even t); [Lra.lra|]. rewrite plus_IZR. Lra.lra.
      - apply Qlt_Rlt in C. rewrite !Q2R_mult, !Q2R_plus, Q2R_inject_Z in C.
        fold x in C. replace (Q2R (1 # 2)) with (1 / 2) in C
          by (unfold Q2R; simpl; Lra.lra).
        split; [|Lra.lra].
        destruct (Rle_lt_dec (- (1 / 2)) (IZR t - r)) as [H|H]; [Lra.lra|].
        exfalso. Lra.nra.
      - apply Qlt_Rlt in C. rewrite !Q2R_mult, !Q2R_plus, Q2R_inject_Z in C.
        fold x in C. replace (Q2R (1 # 2)) with (1 / 2) in C
          by (unfold Q2R; simpl; Lra.lra).
        rewrite plus_IZR. split; [Lra.lra|].
        destruct (Rle_lt_dec (IZR t + 1 - r) (1 / 2)) as [H|H]; [Lra.lra|].
        exfalso. Lra.nra. }
    rewrite Q2R_inject_Z.
    replace (Q2R ulp_half) with (/ 9007199254740992)
      by (unfold ulp_half, Q2R; simpl; Lra.lra).
    assert (Hu : 1 / 2 <= / 9007199254740992 * r) by Lra.lra.
    split.
    + apply Rle_trans with ((r - 1 / 2) * P); [|apply Rmult_le_compat_r; Lra.lra].
      Lra.nra.
    + apply Rle_trans with ((r + 1 / 2) * P); [apply Rmult_le_compat_r; Lra.lra|].
      Lra.nra.
Qed.

Lemma Q2R_ulp_half : Q2R ulp_half = unit_roundoff.
Proof. unfold ulp_half, Q2R, unit_roundoff. simpl. Lra.lra. Qed.

Lemma float_error_R z :
  (0 <= Q2R z -> (1 - unit_roundoff) * Q2R z <= Q2R (float z) <= (1 + unit_roundoff) * Q2R z)
  /\ (Q2R z <= 0 -> (1 + unit_roundoff) * Q2R z <= Q2R (float z) <= (1 - unit_roundoff) * Q2R z).
Proof.
  pose proof (float_error z) as [H1 H2].
  apply Qle_Rle in H1, H2.
  rewrite Q2R_opp, Q2R_mult in H1. rewrite Q2R_mult in H2.
  rewrite Q2R_minus in H1, H2. rewrite Q2R_ulp_half in H1, H2.
  split; intros Hz.
  - assert (E : (Qabs z == z)%Q).
    { apply Qabs_pos. apply Rle_Qle. now rewrite RMicromega.Q2R_0. }
    rewrite (Qeq_eqR _ _ E) in H1, H2. Lra.lra.
  - assert (E : (Qabs z == - z)%Q).
    { apply Qabs_neg. apply Rle_Qle. now rewrite RMicromega.Q2R_0. }
    rewrite (Qeq_eqR _ _ E), Q2R_opp in H1, H2. Lra.lra.
Qed.

Lemma unit_roundoff_small : 0 < unit_roundoff < / 1000000000000000.
Proof. unfold unit_roundoff. split; Lra.lra. Qed.

Lemma float_square z :
  (1 - unit_roundoff) * (1 - unit_roundoff) * (Q2R z * Q2R z) <= Q2R (float z) * Q2R (float z)
  <= (1 + unit_roundoff) * (1 + unit_roundoff) * (Q2R z * Q2R z).
Proof.
  destruct (float_error_R z) as [Hp Hn]. pose proof unit_roundoff_small as Hu.
  set (x := Q2R z) in *. set (f := Q2R (float z)) in *.
  replace ((1 - unit_roundoff) * (1 - unit_roundoff) * (x * x)) with ((1 - unit_roundoff) * x * ((1 - unit_roundoff) * x))
    by ring.
  replace ((1 + unit_roundoff) * (1 + unit_roundoff) * (x * x)) with ((1 + unit_roundoff) * x * ((1 + unit_roundoff) * x))
    by ring.
  destruct (Rle_lt_dec 0 x) as [H|H].
  - specialize (Hp H).
    assert (0 <= (1 - unit_roundoff) * x) by (apply Rmult_le_pos; Lra.lra).
    split; apply Rmult_le_compat; Lra.lra.
  - assert (H' : x <= 0) by Lra.lra. specialize (Hn H').
    assert (0 <= (1 - unit_roundoff) * - x) by (apply Rmult_le_pos; Lra.lra).
    replace ((1 - unit_roundoff) * x * ((1 - unit_roundoff) * x))
      with ((1 - unit_roundoff) * - x * ((1 - unit_roundoff) * - x)) by ring.
    replace ((1 + unit_roundoff) * x * ((1 + unit_roundoff) * x))
      with ((1 + unit_roundoff) * - x * ((1 + unit_roundoff) * - x)) by ring.
    replace (f * f) with (- f * - f) by ring.
    split; apply Rmult_le_compat; Lra.lra.
Qed.

(** [math.dist] is within two roundings of the Euclidean distance of the
    floats that the coordinates stand for. *)
Lemma math_dist_error p q :
  (1 - unit_roundoff) * (1 - unit_roundoff) * euclid (as_float p) (as_float q)
  <= Q2R (math_dist p q)
  <= (1 + unit_roundoff) * (1 + unit_roundoff) * euclid (as_float p) (as_float q).
Proof.
  unfold math_dist, euclid, as_float. cbn [fst snd].
  set (a := float (fst p)). set (b := float (fst q)).
  set (c := float (snd p)). set (d := float (snd q)).
  pose proof (float_square (a - b)) as Hx.
  pose proof (float_square (c - d)) as Hy.
  rewrite Q2R_minus in Hx, Hy.
  set (dx := Q2R (float (a - b))) in *. set (dy := Q2R (float (c - d))) in *.
  set (ex := Q2R a - Q2R b) in *. set (ey := Q2R c - Q2R d) in *.
  assert (Hs : (0 <= float (a - b) * float (a - b)
                     + float (c - d) * float (c - d))%Q).
  { apply Rle_Qle. rewrite RMicromega.Q2R_0, Q2R_plus, !Q2R_mult.
    fold dx dy. Lra.nra. }
  pose proof (float_sqrt_error _ Hs) as He.
  rewrite Q2R_plus, !Q2R_mult, Q2R_ulp_half in He. fold dx dy in He.
  set (N := Q2R (float_sqrt _)) in *.
  pose proof unit_roundoff_small as Hu.
  assert (HS : 0 <= ex * ex + ey * ey) by Lra.nra.
  assert (Hlo : (1 - unit_roundoff) * sqrt (ex * ex + ey * ey)
                <= sqrt (dx * dx + dy * dy)).
  { rewrite <- (sqrt_square (1 - unit_roundoff)) at 1 by Lra.lra.
    rewrite <- sqrt_mult by Lra.nra. apply sqrt_le_1_alt. Lra.nra. }
  assert (Hhi : sqrt (dx * dx + dy * dy)
                <= (1 + unit_roundoff) * sqrt (ex * ex + ey * ey)).
  { rewrite <- (sqrt_square (1 + unit_roundoff)) at 1 by Lra.lra.
    rewrite <- sqrt_mult by Lra.nra. apply sqrt_le_1_alt. Lra.nra. }
  pose proof (sqrt_pos (ex * ex + ey * ey)) as HD.
  pose proof (sqrt_pos (dx * dx + dy * dy)) as HD'.
  set (D := sqrt (ex * ex + ey * ey)) in *.
  set (D' := sqrt (dx * dx + dy * dy)) in *.
  split.
  - apply Rle_trans with ((1 - unit_roundoff) * D'); [|Lra.lra].
    rewrite Rmult_assoc. apply Rmult_le_compat_l; Lra.lra.
  - apply Rle_trans with ((1 + unit_roundoff) * D'); [Lra.lra|].
    rewrite Rmult_assoc. apply Rmult_le_compat_l; Lra.lra.
Qed.

(** Comparing [math.dist] with a float literal [d] of at most 1 agrees with
    comparing the Euclidean distance with [d], up to [tolerance]. *)
Lemma math_dist_lt_euclid p q d :
  (0 < d <= 1)%Q ->
  ((math_dist p q < float d)%Q ->
   euclid (as_float p) (as_float q) < Q2R d + Q2R tolerance)
  /\ (euclid (as_float p) (as_float q) < Q2R d - Q2R tolerance ->
      (math_dist p q < float d)%Q).
Proof.
  intros [Hd0 Hd1]. pose proof (math_dist_error p q) as [Hlo Hhi].
  pose proof (proj1 (float_error_R d)) as Hf.
  apply Qlt_Rlt in Hd0. apply Qle_Rle in Hd1.
  rewrite RMicromega.Q2R_0 in Hd0. rewrite RMicromega.Q2R_1 in Hd1.
  specialize (Hf ltac:(Lra.lra)).
  assert (Ht : Q2R tolerance = / 1000000000000000)
    by (unfold tolerance, Q2R; simpl; Lra.lra).
  rewrite Ht. unfold unit_roundoff in *.
  set (D := euclid (as_float p) (as_float q)) in *.
  assert (HD : 0 <= D) by apply sqrt_pos.
  split.
  - intros Hlt. apply Qlt_Rlt in Hlt. Lra.lra.
  - intros Hlt. apply Rlt_Qlt. Lra.lra.
Qed.

Local Close Scope R_scope.

Lemma Qminus_swap a b : (b - a)%Q = Qopp (a - b)%Q.
Proof.
  destruct a as [na da], b as [nb db]. unfold Qminus, Qplus, Qopp.
  cbn [Qnum Qden]. f_equal; [ring | apply Pos.mul_comm].
Qed.

Lemma Qmult_opp_opp a : (Qopp a * Qopp a)%Q = (a * a)%Q.
Proof.
  destruct a as [n d]. unfold Qmult, Qopp. cbn [Qnum Qden].
  f_equal. ring.
Qed.

Lemma math_dist_sym p q : math_dist p q = math_dist q p.
Proof.
  unfold math_dist.
  rewrite (Qminus_swap (float (fst p)) (float (fst q))).
  rewrite (Qminus_swap (float (snd p)) (float (snd q))).
  now rewrite !float_opp, !Qmult_opp_opp.
Qed.

End Binary64.

(** ** Comparisons and loops *)

Lemma Qltb_lt a b : Qltb a b = true <-> (a < b)%Q.
Proof.
  unfold Qltb. rewrite Qlt_alt. destruct (a ?= b)%Q; split; congruence.
Qed.

Lemma Qleb_le a b : Qleb a b = true <-> (a <= b)%Q.
Proof.
  unfold Qleb. rewrite Qle_alt. destruct (a ?= b)%Q; split; congruence.
Qed.

(** The squared comparisons are the comparisons of the Euclidean distance. *)
Lemma dist2_euclid p q : sqrt (Q2R (dist2 p q)) = euclid p q.
Proof.
  unfold euclid, dist2. f_equal.
  rewrite Q2R_plus, !Q2R_mult, !Q2R_minus. reflexivity.
Qed.

Lemma dist2_nonneg p q : (0 <= Q2R (dist2 p q))%R.
Proof.
  unfold dist2. rewrite Q2R_plus, !Q2R_mult.
  apply Rplus_le_le_0_compat; apply Rle_0_sqr.
Qed.

Lemma dist_lt_computed p q d :
  dist_lt p q d = true <-> (math_dist p q < float d)%Q.
Proof. unfold dist_lt. apply Qltb_lt. Qed.

Lemma exact_lt_euclid p q d :
  (0 <= d)%Q -> Qltb (dist2 p q) (d * d) = true <-> (euclid p q < Q2R d)%R.
Proof.
  intros Hd. apply Qle_Rle in Hd. rewrite RMicromega.Q2R_0 in Hd.
  rewrite Qltb_lt, <- dist2_euclid.
  rewrite <- (sqrt_square (Q2R d)) at 1 by exact Hd.
  split.
  - intros Hlt. apply Qlt_Rlt in Hlt. rewrite Q2R_mult in Hlt.
    apply sqrt_lt_1_alt. split; [apply dist2_nonneg | exact Hlt].
  - intros Hlt. apply sqrt_lt_0_alt in Hlt. apply Rlt_Qlt.
    now rewrite Q2R_mult.
Qed.

Lemma dist_le_euclid p q d :
  (0 <= d)%Q -> dist_le p q d = true <-> (euclid p q <= Q2R d)%R.
Proof.
  intros Hd. apply Qle_Rle in Hd. rewrite RMicromega.Q2R_0 in Hd.
  unfold dist_le. rewrite Qleb_le, <- dist2_euclid.
  rewrite <- (sqrt_square (Q2R d)) at 1 by exact Hd.
  split.
  - intros Hle. apply Qle_Rle in Hle. rewrite Q2R_mult in Hle.
    now apply sqrt_le_1_alt.
  - intros Hle. apply sqrt_le_0 in Hle.
    + apply Rle_Qle. now rewrite Q2R_mult.
    + apply dist2_nonneg.
    + apply Rle_0_sqr.
Qed.

Lemma existsb_false {A} (f : A -> bool) (l : list A) :
  existsb f l = false <-> forall a, In a l -> f a = false.
Proof.
  induction l as [|a l IH]; simpl.
  - split; [intros _ ? [] | reflexivity].
  - rewrite orb_false_iff, IH. split.
    + intros [Ha Hl] b [<-|Hb]; auto.
    + intros Hall. split; [apply Hall; now left | intros b Hb; apply Hall; now right].
Qed.

Lemma In_values {K V} (d : list (K * V)) k v :
  In (k, v) d -> In v (Dict.values d).
Proof. intros Hin. unfold Dict.values. change v with (snd (k, v)). now apply in_map. Qed.

(** Induction that follows a loop consuming two draws per round. *)
Lemma two_step_ind {A} (P : list A -> Prop) :
  P [] -> (forall a, P [a]) -> (forall a b l, P l -> P (a :: b :: l)) ->
  forall l, P l.
Proof.
  intros H0 H1 H2. fix IH 1. intros [|a [|b l]].
  - exact H0.
  - apply H1.
  - apply H2, IH.
Qed.

Lemma dist_lt_in_range robot item :
  dist_lt (Robot.x robot, Robot.y robot) (Item.x item, Item.y item) DISTANCE
  = true <-> in_range robot item.
Proof. unfold in_range. apply dist_lt_computed. Qed.

Lemma first_item_in_range_first its robot pre item_id item post :
  its = (pre ++ (item_id, item) :: post)%list ->
  in_range robot item ->
  (forall e, In e pre -> ~ in_range robot (snd e)) ->
  first_item_in_range its robot = Some item_id.
Proof.
  intros -> Hin. induction pre as [|[k v] pre IH]; simpl; intros Hpre.
  - apply dist_lt_in_range in Hin. now rewrite Hin.
  - destruct (dist_lt _ _ _) eqn:E.
    + apply dist_lt_in_range in E. exfalso. apply (Hpre (k, v)); [now left | exact E].
    + apply IH. intros e He. apply Hpre. now right.
Qed.

Lemma first_item_in_range_none its robot :
  (forall e, In e its -> ~ in_range robot (snd e)) ->
  first_item_in_range its robot = None.
Proof.
  induction its as [|[k v] its IH]; simpl; intros Hall; [reflexivity|].
  destruct (dist_lt _ _ _) eqn:E.
  - apply dist_lt_in_range in E. exfalso. apply (Hall (k, v)); [now left | exact E].
  - apply IH. intros e He. apply Hall. now right.
Qed.

Lemma first_item_in_range_In its robot item_id :
  first_item_in_range its robot = Some item_id ->
  exists item, In (item_id, item) its /\ in_range robot item.
Proof.
  induction its as [|[k v] its IH]; simpl; [discriminate|].
  destruct (dist_lt _ _ _) eqn:E.
  - intros [= <-]. exists v. split; [now left | now apply dist_lt_in_range].
  - intros Hf. destruct (IH Hf) as (item & Hin & Hr). exists item. split; [now right | exact Hr].
Qed.

(** ** Pick-up *)

(** C7. [pick_up_item] fails for an unknown robot id, naming it, and for a
    robot that already holds an item; otherwise it gives the robot the first
    item of the item map that [math.dist] puts strictly below the float 0.35
    and succeeds, or fails with the "unable to pick any item" message when
    there is none.  A failed call returns the state it was given; a
    successful one changes the held-item field of that robot alone.  The
    test agrees with the Euclidean distance of the floats up to [tolerance]:
    an item in reach is less than 0.35 + 1e-15 away, and an item less than
    0.35 - 1e-15 away is in reach. *)
Theorem pick_up_item_semantics (s : ItemManager) (robot_id : string) :
  (Dict.get (robots s) robot_id = None ->
   pick_up_item s robot_id
   = (mkResponse false ("Unable to find robot_id '" ++ robot_id ++ "'"), s))
  /\ (forall robot held,
        Dict.get (robots s) robot_id = Some robot ->
        Robot.item_held robot = Some held ->
        pick_up_item s robot_id
        = (mkResponse false
             ("Robot '" ++ robot_id ++ "' is already holding an item"), s))
  /\ (forall robot pre item_id item post,
        Dict.get (robots s) robot_id = Some robot ->
        Robot.item_held robot = None ->
        items s = (pre ++ (item_id, item) :: post)%list ->
        in_range robot item ->
        (forall e, In e pre -> ~ in_range robot (snd e)) ->
        pick_up_item s robot_id
        = (mkResponse true
             ("Robot '" ++ robot_id ++ "' collected item successfully"),
           with_robots s
             (Dict.set (robots s) robot_id
                (Robot.with_item_held robot (Some item_id)))))
  /\ (forall robot,
        Dict.get (robots s) robot_id = Some robot ->
        Robot.item_held robot = None ->
        (forall e, In e (items s) -> ~ in_range robot (snd e)) ->
        pick_up_item s robot_id
        = (mkResponse false
             ("Robot '" ++ robot_id ++ "' unable to pick any item."), s))
  /\ (forall r s',
        pick_up_item s robot_id = (r, s') ->
        (success r = false -> s' = s)
        /\ (success r = true ->
            exists robot item_id,
              Dict.get (robots s) robot_id = Some robot
              /\ Robot.item_held robot = None
              /\ Dict.get (robots s') robot_id
                 = Some (Robot.with_item_held robot (Some item_id)))
        /\ (forall other, other <> robot_id ->
              Dict.get (robots s') other = Dict.get (robots s) other)
        /\ items s' = items s /\ clusters s' = clusters s
        /\ zones s' = zones s /\ first_run s' = first_run s
        /\ cluster_counter s' = cluster_counter s
        /\ item_counter s' = item_counter s)
  /\ (forall robot item,
        (in_range robot item ->
         (euclid (as_float (Robot.x robot, Robot.y robot))
                 (as_float (Item.x item, Item.y item))
          < Q2R DISTANCE + Q2R tolerance)%R)
        /\ ((euclid (as_float (Robot.x robot, Robot.y robot))
                    (as_float (Item.x item, Item.y item))
             < Q2R DISTANCE - Q2R tolerance)%R ->
            in_range robot item)).
Proof.
  split; [|split; [|split; [|split; [|split]]]];
    [| | | | |intros robot item; apply math_dist_lt_euclid;
              split; [reflexivity | discriminate]].
  - unfold pick_up_item. intros ->. reflexivity.
  - unfold pick_up_item. intros robot held -> ->. reflexivity.
  - unfold pick_up_item. intros robot pre item_id item post -> -> Hits Hin Hpre.
    now rewrite (first_item_in_range_first _ _ _ _ _ _ Hits Hin Hpre).
  - unfold pick_up_item. intros robot -> -> Hall.
    now rewrite (first_item_in_range_none _ _ Hall).
  - intros r s' Hp. unfold pick_up_item in Hp.
    destruct (Dict.get (robots s) robot_id) as [robot|] eqn:Hr;
      [destruct (Robot.item_held robot) eqn:Hh;
       [|destruct (first_item_in_range (items s) robot) as [item_id|]]|];
      injection Hp as <- <-; simpl;
      (split; [congruence|]); (split; [try discriminate|]);
      try (split; [reflexivity|tauto]).
    + intros _. exists robot, item_id. now rewrite get_set_same.
    + split; [|tauto]. intros other Hne. now apply get_set_other.
Qed.

(** Scenarios A and D on the seeded arena: [robot1], 0.2 away from [item0],
    collects it; the unknown [ghost] is turned away. *)
Lemma pick_up_item_semantics_witness :
  let s := state_after seeded in
  let robot := Robot.mk (-220 # 100) (-200 # 100) None None in
  pick_up_item s "robot1"
  = (mkResponse true "Robot 'robot1' collected item successfully",
     with_robots s
       (Dict.set (robots s) "robot1"
          (Robot.with_item_held robot (Some "item0"))))
  /\ pick_up_item s "ghost"
     = (mkResponse false "Unable to find robot_id 'ghost'", s).
Proof.
  intros s robot.
  destruct (pick_up_item_semantics s "robot1") as (_ & _ & Hfirst & _).
  destruct (pick_up_item_semantics s "ghost") as (Hunknown & _).
  assert (Hits : exists post,
             items s = ([] ++ ("item0", Item.mk (-2) (-2) RED "cluster0")
                           :: post)%list)
    by (eexists; vm_compute; reflexivity).
  destruct Hits as (post & Hits).
  split.
  - apply (Hfirst robot [] "item0" (Item.mk (-2) (-2) RED "cluster0") post).
    + vm_compute. reflexivity.
    + reflexivity.
    + exact Hits.
    + apply dist_lt_in_range. vm_compute. reflexivity.
    + intros e [].
  - apply Hunknown. vm_compute. reflexivity.
Defined.

(** Either way of reading the coordinates fails.  As stored: [robot1] stands
    at (0.75, -2.0) and [item7] at (0.4, -2.0), both floats; their distance
    is the float 0.35, which is below 0.35, and no earlier item is nearer;
    yet the robot is turned away.  As two-decimal numbers: [robot1] stands at
    (-2.21, -2.28), exactly 0.35 from [item0] at (-2.0, -2.0) and farther
    from every other item; yet it collects [item0], because the float
    differences 0.20999999999999996 and 0.2799999999999998 give a smaller
    distance. *)
Lemma picks_within_reach_counterexample :
  ~ picks_within_reach stored /\ ~ picks_within_reach round2.
Proof.
  split; intros H.
  - pose (robot := Robot.mk (75 # 100) (-200 # 100) None None).
    destruct (H (state_after beside_item7) "robot1" robot) as [Hfirst _];
      [vm_compute; reflexivity | reflexivity |].
    assert (Hc : success (fst (pick_up_item (state_after beside_item7)
                                 "robot1")) = false)
      by (vm_compute; reflexivity).
    rewrite (Hfirst (firstn 7 (items (state_after beside_item7))) "item7"
               (Item.mk (float (4 # 10)) (-2) GREEN "cluster2")
               (skipn 8 (items (state_after beside_item7)))) in Hc.
    + discriminate Hc.
    + vm_compute. reflexivity.
    + apply exact_lt_euclid; [discriminate|]. vm_compute. reflexivity.
    + intros e Hin Hlt. apply exact_lt_euclid in Hlt; [|discriminate].
      vm_compute in Hin.
      repeat (destruct Hin as [<-|Hin]; [vm_compute in Hlt; discriminate Hlt|]).
      contradiction.
  - pose (robot := Robot.mk (-221 # 100) (-228 # 100) None None).
    destruct (H (state_after below_item0) "robot1" robot) as [_ Hnone];
      [vm_compute; reflexivity | reflexivity |].
    assert (Hc : success (fst (pick_up_item (state_after below_item0)
                                 "robot1")) = true)
      by (vm_compute; reflexivity).
    rewrite Hnone in Hc; [discriminate Hc|].
    intros e Hin Hlt. apply exact_lt_euclid in Hlt; [|discriminate].
    vm_compute in Hin.
    repeat (destruct Hin as [<-|Hin]; [vm_compute in Hlt; discriminate Hlt|]).
    contradiction.
Qed.

(** ** Placement *)

Lemma obstacle_cells x y :
  obstacle x y = false -> ~ In (x, y) [(1, 1); (1, -1); (-1, 1); (-1, -1)].
Proof.
  unfold obstacle. intros Ho [E|[E|[E|[E|[]]]]]; injection E as <- <-;
    discriminate Ho.
Qed.

Lemma generate_cluster_location_sound cs colour ints x y rest :
  generate_cluster_location cs colour ints = Ok (x, y, rest) ->
  obstacle x y = false
  /\ forall c, In c (Dict.values cs) -> cluster_clash x y c = false.
Proof.
  revert x y rest. induction ints as [| a | raw_y raw_x l IH] using two_step_ind;
    intros x y rest; simpl; try discriminate.
  destruct (obstacle _ _) eqn:Ho; [apply IH|].
  destruct (existsb _ _) eqn:Hc; [apply IH|].
  intros [= <- <- <-]. split; [exact Ho|]. now apply existsb_false.
Qed.

Lemma computed_apart p q :
  (float (3 # 10) <= math_dist p q)%Q ->
  (Q2R (3 # 10) - Q2R tolerance <= euclid (as_float p) (as_float q))%R.
Proof.
  intros Hle. apply Rnot_lt_le. intros Hlt.
  apply (Qle_not_lt _ _ Hle).
  apply (math_dist_lt_euclid p q (3 # 10)); [|exact Hlt].
  split; [reflexivity | discriminate].
Qed.

Lemma not_clash_apart p q :
  dist_lt p q (3 # 10) = false ->
  (float (3 # 10) <= math_dist p q)%Q
  /\ (Q2R (3 # 10) - Q2R tolerance <= euclid (as_float p) (as_float q))%R.
Proof.
  intros Hc.
  assert (Hle : (float (3 # 10) <= math_dist p q)%Q).
  { apply Qnot_lt_le. intros Hlt. apply dist_lt_computed in Hlt. congruence. }
  split; [exact Hle | now apply computed_apart].
Qed.

Lemma generate_item_position_sound cs its cluster_id polars x y rest :
  generate_item_position cs its cluster_id polars = Ok (x, y, rest) ->
  forall item, In item (Dict.values its) ->
               item_clash cluster_id x y item = false.
Proof.
  revert x y rest. induction polars as [|[ox oy] polars IH]; intros x y rest;
    simpl; [discriminate|].
  destruct (lookup cs cluster_id) as [cluster| |]; simpl; try discriminate.
  destruct (existsb _ _) eqn:Hc; [apply IH|].
  intros [= <- <- <-]. now apply existsb_false.
Qed.

(** The position is the float sum of the centre of the cluster and one of the
    draws. *)
Lemma generate_item_position_offset cs its cluster_id polars x y rest :
  generate_item_position cs its cluster_id polars = Ok (x, y, rest) ->
  exists cluster ox oy,
    Dict.get cs cluster_id = Some cluster /\ In (ox, oy) polars
    /\ x = float (inject_Z (Cluster.x cluster) + float ox)
    /\ y = float (inject_Z (Cluster.y cluster) + float oy).
Proof.
  revert x y rest. induction polars as [|[ox oy] polars IH]; intros x y rest;
    simpl; [discriminate|].
  unfold lookup. destruct (Dict.get cs cluster_id) as [cluster|] eqn:Hc;
    simpl; [|discriminate].
  destruct (existsb _ _).
  - intros Hg. destruct (IH _ _ _ Hg) as (c & ox' & oy' & Hc' & Hin & Hx & Hy).
    exists c, ox', oy'. repeat split; simpl; auto.
  - intros [= <- <- <-]. exists cluster, ox, oy. repeat split; simpl; auto.
Qed.

(** C8. A coordinate returned by [generate_cluster_location] is none of the
    four obstacle cells, differs from every existing cluster centre and is
    more than 1.0 away from each of them; for a coordinate returned by
    [generate_item_position], [math.dist] to every existing item of the same
    cluster is not below the float 0.3, so that the Euclidean distance of
    the floats is at least 0.3 - 1e-15. *)
Theorem placement_separation :
  (forall cs colour ints x y rest,
      generate_cluster_location cs colour ints = Ok (x, y, rest) ->
      ~ In (x, y) [(1, 1); (1, -1); (-1, 1); (-1, -1)]
      /\ forall cluster_id cluster,
          In (cluster_id, cluster) cs ->
          (Cluster.x cluster, Cluster.y cluster) <> (x, y)
          /\ (1 < euclid (inject_Z (Cluster.x cluster),
                          inject_Z (Cluster.y cluster))
                         (inject_Z x, inject_Z y))%R)
  /\ (forall cs its cluster_id polars x y rest,
        generate_item_position cs its cluster_id polars = Ok (x, y, rest) ->
        forall item_id item,
          In (item_id, item) its ->
          Item.cluster_id item = cluster_id ->
          (float (3 # 10) <= math_dist (Item.x item, Item.y item) (x, y))%Q
          /\ (Q2R (3 # 10) - Q2R tolerance
              <= euclid (as_float (Item.x item, Item.y item))
                        (as_float (x, y)))%R).
Proof.
  split.
  - intros cs colour ints x y rest Hg.
    destruct (generate_cluster_location_sound _ _ _ _ _ _ Hg) as [Ho Hc].
    split; [now apply obstacle_cells|].
    intros cluster_id cluster Hin.
    specialize (Hc cluster (In_values _ _ _ Hin)).
    unfold cluster_clash in Hc. apply orb_false_iff in Hc as [Hsame Hnear].
    split.
    + intros [= Hx Hy]. rewrite Hx, Hy, !Z.eqb_refl in Hsame. discriminate.
    + apply Rnot_le_lt. intros Hle. rewrite <- RMicromega.Q2R_1 in Hle.
      apply dist_le_euclid in Hle; [congruence | discriminate].
  - intros cs its cluster_id polars x y rest Hg item_id item Hin Hcl.
    pose proof (generate_item_position_sound _ _ _ _ _ _ _ Hg item
                  (In_values _ _ _ Hin)) as Hc.
    unfold item_clash in Hc. rewrite Hcl, String.eqb_refl in Hc. simpl in Hc.
    now apply not_clash_apart.
Qed.

(** A run of both generators: the second cluster candidate and the second
    item candidate are the ones returned. *)
Lemma placement_separation_witness :
  generate_cluster_location (clusters (state_after carry_red)) GREEN
                            [2; 1; 4; 2] = Ok (1, 2, [])
  /\ generate_item_position (clusters (state_after carry_red))
       (items (state_after carry_red)) "cluster0" deposit_draws
     = Ok (float (-22 # 10), float (-22 # 10), [])
  /\ (~ In (1, 2) [(1, 1); (1, -1); (-1, 1); (-1, -1)])
  /\ (float (3 # 10)
      <= math_dist (float (-16 # 10), -2) (float (-22 # 10), float (-22 # 10)))%Q
  /\ (Q2R (3 # 10) - Q2R tolerance
      <= euclid (as_float (float (-16 # 10), (-2)%Q))
                (as_float (float (-22 # 10), float (-22 # 10))))%R.
Proof.
  assert (Hc : generate_cluster_location (clusters (state_after carry_red))
                 GREEN [2; 1; 4; 2] = Ok (1, 2, [])) by (vm_compute; reflexivity).
  assert (Hi : generate_item_position (clusters (state_after carry_red))
                 (items (state_after carry_red)) "cluster0" deposit_draws
               = Ok (float (-22 # 10), float (-22 # 10), []))
    by (vm_compute; reflexivity).
  split; [exact Hc|]. split; [exact Hi|]. split.
  - exact (proj1 (proj1 placement_separation _ _ _ _ _ _ Hc)).
  - apply (proj2 placement_separation _ _ _ _ _ _ _ Hi "item1"
             (Item.mk (float (-16 # 10)) (-2) RED "cluster0")).
    + vm_compute. tauto.
    + reflexivity.
Defined.

(** In the seeded arena [item6] lies at (0.0, -2.0), the centre of its
    cluster.  The draw (-0.3, 0.0) is accepted for that cluster and gives
    the position (-0.3, -2.0), whose distance from [item6] is the float 0.3,
    which is below 0.3. *)
Lemma placement_exact_counterexample : ~ placement_exact.
Proof.
  intros [_ H].
  assert (Hg : generate_item_position (clusters (state_after seeded))
                 (items (state_after seeded)) "cluster2" [(-3 # 10, 0)%Q]
               = Ok (float (-3 # 10), (-2)%Q, []))
    by (vm_compute; reflexivity).
  pose proof (H _ _ _ _ _ _ _ Hg "item6" (Item.mk 0 (-2) GREEN "cluster2")
                ltac:(vm_compute; tauto) eq_refl) as Hle.
  apply Rle_not_lt in Hle. apply Hle.
  apply exact_lt_euclid; [discriminate|]. vm_compute. reflexivity.
Qed.

(** ** The invariant of the reachable states *)

Lemma init_zones_ok cfg :
  NoDup (Dict.keys (init_zones cfg))
  /\ forall l z, In (l, z) (init_zones cfg) -> zone_ok z.
Proof.
  assert (Hz : zone_ok (Zone.mk TOP_LEFT 0 0 [(RED, 0); (GREEN, 0); (BLUE, 0)])).
  { exists 0, 0, 0. simpl. repeat split; try lia. }
  assert (Hany : forall l zx zy,
             zone_ok (Zone.mk l zx zy [(RED, 0); (GREEN, 0); (BLUE, 0)])).
  { intros. exists 0, 0, 0. simpl. repeat split; try lia. }
  destruct cfg as [[] [] [] []]; cbv [init_zones zone_top_left zone_top_right
    zone_bottom_left zone_bottom_right add_zone zero_counts Colour_members
    fold_left map Dict.set keyb Key_ZoneLocation Key_Colour ZoneLocation_eqb
    Colour_eqb Zone.with_items_returned Zone.items_returned Zone.location
    Zone.x Zone.y Dict.keys fst];
    (split;
     [repeat constructor; simpl; intuition discriminate
     | intros l z Hin; simpl in Hin;
       repeat (destruct Hin as [Hin|Hin]; [injection Hin as <- <-; apply Hany|]);
       contradiction]).
Qed.

Lemma wf_init cfg : wf (init cfg).
Proof.
  destruct (init_zones_ok cfg) as [Hk Hz].
  constructor; simpl; auto; intros; contradiction.
Qed.

Lemma wf_pick_up s robot_id : wf s -> wf (snd (pick_up_item s robot_id)).
Proof.
  intros [Hh Hc Hz Hk]. unfold pick_up_item.
  destruct (Dict.get (robots s) robot_id) as [robot|] eqn:Hr;
    [destruct (Robot.item_held robot) eqn:Hheld;
     [|destruct (first_item_in_range (items s) robot) as [item_id|] eqn:Hf]|];
    simpl; try (now constructor).
  constructor; simpl; auto.
  intros rid r held Hin Hheld'.
  apply In_set in Hin as [[-> ->]|Hin]; [|eauto].
  simpl in Hheld'. injection Hheld' as <-.
  destruct (first_item_in_range_In _ _ _ Hf) as (item & Hin & _).
  eapply In_mem; eauto.
Qed.

(** *** The zone rule on a well-formed zone *)

Lemma match_colour_ok z :
  zone_ok z ->
  (match_colour (Zone.items_returned z) = None /\ forall c, count z c = 0)
  \/ exists c, match_colour (Zone.items_returned z) = Some c
               /\ 1 <= count z c /\ forall c', c' <> c -> count z c' = 0.
Proof.
  intros (r & g & b & Hret & Hr & Hg & Hb & Hone). unfold count. rewrite Hret.
  simpl. destruct (1 <=? r) eqn:Er; [|destruct (1 <=? g) eqn:Eg;
                                       [|destruct (1 <=? b) eqn:Eb]].
  - right. exists RED. apply Z.leb_le in Er.
    repeat split; auto. intros [] Hne; simpl; try congruence; lia.
  - right. exists GREEN. apply Z.leb_le in Eg. apply Z.leb_gt in Er.
    repeat split; auto. intros [] Hne; simpl; try congruence; lia.
  - right. exists BLUE. apply Z.leb_le in Eb. apply Z.leb_gt in Er, Eg.
    repeat split; auto. intros [] Hne; simpl; try congruence; lia.
  - left. apply Z.leb_gt in Er, Eg, Eb. split; [reflexivity|].
    intros []; simpl; lia.
Qed.

Lemma Colour_eqb_true a b : Colour_eqb a b = true <-> a = b.
Proof. destruct a, b; simpl; split; congruence. Qed.

Lemma count_up_ok z colour z' :
  zone_ok z ->
  (match_colour (Zone.items_returned z) = None
   \/ match_colour (Zone.items_returned z) = Some colour) ->
  count_up z colour = Ok z' ->
  zone_ok z'
  /\ Zone.location z' = Zone.location z
  /\ count z' colour = count z colour + 1
  /\ forall c, c <> colour -> count z' c = count z c.
Proof.
  intros Hok Hm Hup.
  destruct (match_colour_ok z Hok) as [[Hnone Hzero]|(c & Hsome & Hpos & Hoth)].
  - destruct Hok as (r & g & b & Hret & Hr & Hg & Hb & Hone).
    pose proof (Hzero RED) as H1. pose proof (Hzero GREEN) as H2.
    pose proof (Hzero BLUE) as H3.
    unfold count_up, lookup, count in *. rewrite Hret in *. simpl in *.
    subst r g b.
    destruct colour; simpl in Hup; injection Hup as <-; simpl;
      (split; [eexists _, _, _; simpl; split; [reflexivity|lia]|]);
      (split; [reflexivity|]); (split; [reflexivity|]);
      intros []; simpl; congruence.
  - assert (c = colour) as -> by (destruct Hm as [Hm|Hm]; congruence).
    destruct Hok as (r & g & b & Hret & Hr & Hg & Hb & Hone).
    unfold count_up, lookup, count in *. rewrite Hret in *.
    destruct colour; simpl in *; injection Hup as <-; simpl;
      [pose proof (Hoth GREEN) as H1; pose proof (Hoth BLUE) as H2
      |pose proof (Hoth RED) as H1; pose proof (Hoth BLUE) as H2
      |pose proof (Hoth RED) as H1; pose proof (Hoth GREEN) as H2];
      simpl in H1, H2;
      (split; [eexists _, _, _; simpl; split;
               [reflexivity|repeat split; try lia;
                assert (H1' := H1 ltac:(discriminate));
                assert (H2' := H2 ltac:(discriminate)); lia]|]);
      (split; [reflexivity|]); (split; [reflexivity|]);
      intros []; simpl; congruence.
Qed.

Lemma count_up_total z colour :
  zone_ok z -> exists z', count_up z colour = Ok z'.
Proof.
  intros (r & g & b & Hret & _). unfold count_up, lookup. rewrite Hret.
  destruct colour; simpl; eauto.
Qed.

(** ** The paths of [offload_item] *)

Lemma offload_item_arena s robot_id polars robot held :
  Dict.get (robots s) robot_id = Some robot ->
  Robot.item_held robot = Some held ->
  refused s robot ->
  offload_item s robot_id polars
  = Ok (mkResponse true (arena_message robot robot_id),
        arena_state s robot_id robot,
        [SetEntityState held robot_id 0 0 0]).
Proof.
  unfold refused, offload_item. intros -> -> ->. simpl.
  destruct (get_robot_zone (zones s) robot) as [[l z]|]; reflexivity.
Qed.

Lemma offload_item_deposit s robot_id polars robot held l z item z' x y rest :
  Dict.get (robots s) robot_id = Some robot ->
  Robot.item_held robot = Some held ->
  accepted s robot l z ->
  Dict.get (items s) held = Some item ->
  count_up z (Item.colour item) = Ok z' ->
  generate_item_position (clusters s) (items s) (Item.cluster_id item) polars
  = Ok (x, y, rest) ->
  offload_item s robot_id polars
  = Ok (mkResponse true (zone_message (cleared robot) robot_id z'),
        deposit_state s robot_id robot held item l z' x y,
        [SetEntityState held "world" x y 0]).
Proof.
  unfold accepted, offload_item, lookup. intros -> -> [-> Hall] -> Hup Hgen.
  cbv [option_map snd]. rewrite Hall. simpl. rewrite Hup. simpl.
  rewrite Hgen. reflexivity.
Qed.

(** Every returning call took one of the four paths. *)
Lemma offload_item_cases s robot_id polars r s' evs :
  offload_item s robot_id polars = Ok (r, s', evs) ->
  (Dict.get (robots s) robot_id = None
   /\ r = mkResponse false ("Unable to find robot_id '" ++ robot_id ++ "'")
   /\ s' = s /\ evs = [])
  \/ (exists robot,
        Dict.get (robots s) robot_id = Some robot
        /\ Robot.item_held robot = None
        /\ r = mkResponse false
                 ("Robot '" ++ robot_id
                  ++ "' does not hold any items, so unable to offload.")
        /\ s' = s /\ evs = [])
  \/ (exists robot held,
        Dict.get (robots s) robot_id = Some robot
        /\ Robot.item_held robot = Some held
        /\ refused s robot
        /\ r = mkResponse true (arena_message robot robot_id)
        /\ s' = arena_state s robot_id robot
        /\ evs = [SetEntityState held robot_id 0 0 0])
  \/ (exists robot held l z item z' x y rest,
        Dict.get (robots s) robot_id = Some robot
        /\ Robot.item_held robot = Some held
        /\ accepted s robot l z
        /\ Dict.get (items s) held = Some item
        /\ count_up z (Item.colour item) = Ok z'
        /\ generate_item_position (clusters s) (items s)
             (Item.cluster_id item) polars = Ok (x, y, rest)
        /\ r = mkResponse true (zone_message (cleared robot) robot_id z')
        /\ s' = deposit_state s robot_id robot held item l z' x y
        /\ evs = [SetEntityState held "world" x y 0]).
Proof.
  intros Hoff.
  destruct (Dict.get (robots s) robot_id) as [robot|] eqn:Hr.
  2:{ left. unfold offload_item in Hoff. rewrite Hr in Hoff.
      injection Hoff as <- <- <-. auto. }
  destruct (Robot.item_held robot) as [held|] eqn:Hh.
  2:{ right; left. unfold offload_item in Hoff. rewrite Hr, Hh in Hoff.
      injection Hoff as <- <- <-. exists robot. auto. }
  right; right.
  destruct (allowed_drop_in_zone (items s) robot
              (option_map snd (get_robot_zone (zones s) robot)))
    as [[|]| |] eqn:Hall.
  - right. destruct (get_robot_zone (zones s) robot) as [[l z]|] eqn:Hz;
      [|discriminate Hall]. simpl in Hall.
    unfold offload_item in Hoff. rewrite Hr, Hh, Hz in Hoff. simpl in Hoff.
    rewrite Hall in Hoff. simpl in Hoff. unfold lookup in Hoff.
    destruct (Dict.get (items s) held) as [item|] eqn:Hi; [|discriminate].
    simpl in Hoff.
    destruct (count_up z (Item.colour item)) as [z'| |] eqn:Hup;
      try discriminate. simpl in Hoff.
    destruct (generate_item_position _ _ _ _) as [[[x y] rest]| |] eqn:Hg;
      try discriminate. simpl in Hoff. injection Hoff as <- <- <-.
    exists robot, held, l, z, item, z', x, y, rest.
    unfold accepted. repeat split; auto.
  - left. rewrite (offload_item_arena s robot_id polars robot held Hr Hh Hall)
      in Hoff. injection Hoff as <- <- <-. exists robot, held. auto 10.
  - unfold offload_item in Hoff. rewrite Hr, Hh, Hall in Hoff. discriminate.
  - unfold offload_item in Hoff. rewrite Hr, Hh, Hall in Hoff. discriminate.
Qed.

Lemma accepted_match s robot l z item held :
  accepted s robot l z ->
  Robot.item_held robot = Some held ->
  Dict.get (items s) held = Some item ->
  match_colour (Zone.items_returned z) = None
  \/ match_colour (Zone.items_returned z) = Some (Item.colour item).
Proof.
  intros [_ Hall] Hh Hi. unfold allowed_drop_in_zone, held_item, lookup in Hall.
  destruct (match_colour _) as [mc|]; [|now left].
  rewrite Hh, Hi in Hall. simpl in Hall. injection Hall as Hall.
  apply Colour_eqb_true in Hall. right. congruence.
Qed.

Lemma get_robot_zone_In zs robot l z :
  get_robot_zone zs robot = Some (l, z) -> In (l, z) zs.
Proof.
  induction zs as [|[l0 z0] zs IH]; simpl; [discriminate|].
  destruct (in_zone robot z0).
  - intros [= <- <-]. now left.
  - intros Hg. right. auto.
Qed.

Lemma wf_offload s robot_id polars r s' evs :
  wf s -> offload_item s robot_id polars = Ok (r, s', evs) -> wf s'.
Proof.
  intros Hwf Hoff. pose proof Hwf as [Hh Hc Hz Hk].
  destruct (offload_item_cases _ _ _ _ _ _ Hoff)
    as [(_ & _ & -> & _)
       |[(robot & _ & _ & _ & -> & _)
        |[(robot & held & Hr & Hheld & _ & _ & -> & _)
         |(robot & held & l & z & item & z' & x & y & rest & Hr & Hheld
           & Hacc & Hi & Hup & Hg & _ & -> & _)]]]; auto.
  - constructor; simpl; auto.
    intros rid r0 h Hin Hh0. apply In_set in Hin as [[-> ->]|Hin]; [|eauto].
    discriminate Hh0.
  - pose proof (get_robot_zone_In _ _ _ _ (proj1 Hacc)) as Hzin.
    destruct (count_up_ok z (Item.colour item) z' (Hz _ _ Hzin)
                (accepted_match _ _ _ _ _ _ Hacc Hheld Hi) Hup) as (Hok' & _).
    constructor; simpl.
    + intros rid r0 h Hin Hh0. apply In_set in Hin as [[-> ->]|Hin].
      * discriminate Hh0.
      * apply mem_set. eauto.
    + intros id it Hin. apply In_set in Hin as [[-> ->]|Hin]; [|eauto].
      simpl. apply (Hc held). now apply get_In.
    + intros l0 z0 Hin. apply In_set in Hin as [[-> ->]|Hin]; eauto.
    + rewrite keys_set_present; [exact Hk|]. eapply In_mem; eauto.
Qed.

(** ** The tick *)

Lemma set_absent {K V} `{KeyLaws K} (d : list (K * V)) k v :
  Dict.mem d k = false -> Dict.set d k v = (d ++ [(k, v)])%list.
Proof.
  unfold Dict.mem. induction d as [|[k0 v0] d IH]; simpl; [reflexivity|].
  destruct (keyb k k0); [discriminate|]. intros Hm. now rewrite IH.
Qed.

Lemma discover_fresh names rs :
  exists fresh,
    fold_left discover names rs = (rs ++ fresh)%list
    /\ Forall (fun e => snd e = Robot.init 0 0) fresh.
Proof.
  revert rs. induction names as [|name names IH]; intros rs; simpl.
  - exists []. now rewrite app_nil_r.
  - unfold discover at 2.
    destruct (names_robot name && negb (Dict.mem rs name)) eqn:E; [|apply IH].
    apply andb_true_iff in E as [_ E]. apply negb_true_iff in E.
    rewrite (set_absent _ _ _ E).
    destruct (IH (rs ++ [(name, Robot.init 0 0)])%list) as (fresh & -> & Hf).
    exists ((name, Robot.init 0 0) :: fresh). rewrite <- app_assoc. simpl.
    split; [reflexivity|]. constructor; auto.
Qed.

Lemma dragged_refl held its : Forall2 (dragged held) its its.
Proof.
  induction its; constructor; auto. unfold dragged. auto.
Qed.

Lemma dragged_trans (h1 h2 h : string -> Prop) a b c :
  (forall i, h1 i -> h i) -> (forall i, h2 i -> h i) ->
  Forall2 (dragged h1) a b -> Forall2 (dragged h2) b c ->
  Forall2 (dragged h) a c.
Proof.
  intros H1 H2 Hab. revert c. induction Hab as [|x y a b Hxy Hab IH];
    intros c Hbc; inversion Hbc as [|? z ? c' Hyz Hbc']; subst; constructor.
  - destruct Hxy as (E1 & E2 & E3 & E4), Hyz as (F1 & F2 & F3 & F4).
    unfold dragged. repeat split; try congruence.
    destruct E4 as [E4|E4]; [|right; auto].
    destruct F4 as [F4|F4]; [left; congruence|right; apply H2; congruence].
  - auto.
Qed.

Lemma dragged_set held_id its item x y :
  Dict.get its held_id = Some item ->
  Forall2 (dragged (fun i => i = held_id)) its
          (Dict.set its held_id (Item.with_xy item x y)).
Proof.
  induction its as [|[k v] its IH]; simpl; [discriminate|].
  destruct (String.eqb held_id k) eqn:E.
  - apply String.eqb_eq in E. subst k. intros [= ->]. constructor.
    + unfold dragged. simpl. auto.
    + apply dragged_refl.
  - intros Hg. constructor; [unfold dragged; auto | auto].
Qed.

Lemma dragged_mem held a b k :
  Forall2 (dragged held) a b -> Dict.mem b k = Dict.mem a k.
Proof.
  unfold Dict.mem. induction 1 as [|[k1 v1] [k2 v2] a b Hxy Hab IH]; simpl;
    [reflexivity|].
  destruct Hxy as (E & _). simpl in E. subst k2.
  destruct (String.eqb k k1); auto.
Qed.

Lemma dragged_In_r held a b k v :
  Forall2 (dragged held) a b -> In (k, v) b ->
  exists v0, In (k, v0) a /\ dragged held (k, v0) (k, v).
Proof.
  induction 1 as [|[k1 v1] [k2 v2] a b Hxy Hab IH]; simpl; [tauto|].
  intros [[= -> ->]|Hin].
  - pose proof Hxy as (E & _). simpl in E. subst k1. exists v1. auto.
  - destruct (IH Hin) as (v0 & Hin0 & Hd). exists v0. auto.
Qed.

Lemma sync_robots_spec position rs its rs' its' evs :
  sync_robots position rs its = Ok (rs', its', evs) ->
  rs' = map (synced position) rs /\ Forall2 (dragged (holds rs)) its its'.
Proof.
  revert its rs' its' evs. induction rs as [|[robot_id robot] rs IH];
    intros its rs' its' evs; simpl.
  - intros [= <- <- <-]. split; [reflexivity | apply dragged_refl].
  - destruct (Robot.item_held robot) as [held|] eqn:Hh.
    + unfold lookup. destruct (Dict.get its held) as [item|] eqn:Hi;
        simpl; [|discriminate].
      destruct (sync_robots position rs _) as [[[rs1 its1] evs1]| |] eqn:Hs;
        simpl; try discriminate.
      intros [= <- <- <-]. destruct (IH _ _ _ _ Hs) as [-> Hd].
      split; [reflexivity|].
      eapply dragged_trans; [| |eapply dragged_set; exact Hi|exact Hd].
      * intros i ->. exists robot_id, robot. split; [now left|exact Hh].
      * intros i (rid & r & Hin & Hheld). exists rid, r. split; [now right|auto].
    + destruct (sync_robots position rs its) as [[[rs1 its1] evs1]| |] eqn:Hs;
        simpl; try discriminate.
      intros [= <- <- <-]. destruct (IH _ _ _ _ Hs) as [-> Hd].
      split; [reflexivity|].
      eapply (dragged_trans (fun _ => False)); [| |apply dragged_refl|exact Hd].
      * intros i [].
      * intros i (rid & r & Hin & Hheld). exists rid, r. split; [now right|auto].
Qed.

Lemma sync_robots_total position rs its :
  (forall robot_id robot held,
      In (robot_id, robot) rs -> Robot.item_held robot = Some held ->
      Dict.mem its held = true) ->
  exists rs' its' evs, sync_robots position rs its = Ok (rs', its', evs).
Proof.
  revert its. induction rs as [|[robot_id robot] rs IH]; intros its Hall; simpl.
  - eauto.
  - destruct (Robot.item_held robot) as [held|] eqn:Hh.
    + pose proof (Hall robot_id robot held (or_introl eq_refl) Hh) as Hm.
      unfold Dict.mem in Hm. unfold lookup.
      destruct (Dict.get its held) as [item|]; [|discriminate]. simpl.
      edestruct (IH (Dict.set its held
                       (Item.with_xy item
                          (round2 (fst (position robot_id)))
                          (round2 (snd (position robot_id))))))
        as (rs' & its' & evs & ->).
      * intros rid r h Hin Hh'. apply mem_set.
        eapply Hall; [right; exact Hin | exact Hh'].
      * simpl. eauto.
    + edestruct (IH its) as (rs' & its' & evs & ->).
      * intros rid r h Hin Hh'. eapply Hall; [right; exact Hin | exact Hh'].
      * simpl. eauto.
Qed.

Lemma item_holders_total its rs :
  (forall robot_id robot held,
      In (robot_id, robot) rs -> Robot.item_held robot = Some held ->
      Dict.mem its held = true) ->
  exists hs, item_holders its rs = Ok hs.
Proof.
  induction rs as [|[robot_id robot] rs IH]; intros Hall; simpl; [eauto|].
  destruct IH as (hs & ->);
    [intros rid r h Hin Hh'; eapply Hall; [right; exact Hin | exact Hh']|].
  destruct (Robot.item_held robot) as [held|] eqn:Hh; simpl; [|eauto].
  pose proof (Hall robot_id robot held (or_introl eq_refl) Hh) as Hm.
  unfold Dict.mem in Hm. unfold lookup.
  destruct (Dict.get its held); [simpl; eauto|discriminate].
Qed.

Lemma returned_total_total zs colour :
  (forall l z, In (l, z) zs -> zone_ok z) ->
  exists n, returned_total zs colour = Ok n.
Proof.
  induction zs as [|[l z] zs IH]; intros Hall; simpl; [eauto|].
  destruct IH as (m & ->); [intros; eapply Hall; right; eauto|].
  destruct (Hall l z (or_introl eq_refl)) as (r & g & b & Hret & _).
  unfold lookup. rewrite Hret. destruct colour; simpl; eauto.
Qed.

Lemma item_log_total zs :
  (forall l z, In (l, z) zs -> zone_ok z) -> exists log, item_log zs = Ok log.
Proof.
  intros Hall. unfold item_log.
  destruct (returned_total_total zs RED Hall) as (r & ->).
  destruct (returned_total_total zs GREEN Hall) as (g & ->).
  destruct (returned_total_total zs BLUE Hall) as (b & ->).
  simpl. eauto.
Qed.

Lemma seed_items_wf n : forall s cluster_id colour polars s' evs polars',
  wf s ->
  seed_items n s cluster_id colour polars = Ok (s', evs, polars') ->
  wf s'.
Proof.
  induction n as [|n IH]; intros s cluster_id colour polars s' evs polars' Hwf;
    simpl.
  - intros [= <- <- <-]. exact Hwf.
  - destruct (generate_item_position _ _ _ _) as [[[x y] polars1]| |] eqn:Hg;
      simpl; try discriminate.
    destruct (seed_items n _ _ _ _) as [[[s3 evs3] polars3]| |] eqn:Hs;
      simpl; try discriminate.
    intros [= <- <- <-]. eapply IH; [|exact Hs].
    destruct Hwf as [Hh Hc Hz Hk].
    destruct (generate_item_position_offset _ _ _ _ _ _ _ Hg)
      as (cluster & _ & _ & Hcl & _).
    constructor; simpl; auto.
    + intros rid r h Hin Hheld. apply mem_set. eauto.
    + intros id it Hin. apply In_set in Hin as [[-> ->]|Hin]; [|eauto].
      simpl. unfold Dict.mem. now rewrite Hcl.
Qed.

Lemma seed_clusters_wf n : forall s ints polars s' evs,
  wf s -> seed_clusters n s ints polars = Ok (s', evs) -> wf s'.
Proof.
  induction n as [|n IH]; intros s ints polars s' evs Hwf; simpl.
  - intros [= <- <-]. exact Hwf.
  - destruct (choose_colour _ _) as [[colour ints1]| |]; simpl;
      try discriminate.
    destruct (generate_cluster_location _ _ _) as [[[x y] ints2]| |]; simpl;
      try discriminate.
    destruct ints2 as [|raw ints3]; [discriminate|].
    destruct (seed_items _ _ _ _ _) as [[[s3 evs3] polars1]| |] eqn:Hs; simpl;
      try discriminate.
    destruct (seed_clusters n _ _ _) as [[s4 evs4]| |] eqn:Hc; simpl;
      try discriminate.
    intros [= <- <-]. eapply IH; [|exact Hc]. eapply seed_items_wf; [|exact Hs].
    destruct Hwf as [Hh Hcl Hz Hk]. constructor; simpl; auto.
    intros id it Hin. apply mem_set. eauto.
Qed.

(** What a tick does once the arena is seeded, as one equation. *)
Lemma control_loop_seeded s env s' evs :
  first_run s = false ->
  control_loop s env = Ok (s', evs) ->
  exists fresh its',
    fold_left discover (model_names env) (robots s) = (robots s ++ fresh)%list
    /\ Forall (fun e => snd e = Robot.init 0 0) fresh
    /\ Forall2 (dragged (holds (robots s))) (items s) its'
    /\ s' = mkItemManager false (clusters s)
              (map (synced (entity_position env)) (robots s ++ fresh))
              its' (zones s) (cluster_counter s) (S (item_counter s)).
Proof.
  intros Hfr. unfold control_loop. rewrite Hfr. simpl.
  destruct (discover_fresh (model_names env) (robots s)) as (fresh & Hd & Hf).
  rewrite Hd.
  destruct (sync_robots _ _ _) as [[[rs its'] syncing]| |] eqn:Hs; simpl;
    try discriminate.
  destruct (item_holders _ _) as [hs| |]; simpl; try discriminate.
  destruct (item_log _) as [log| |]; simpl; try discriminate.
  intros [= <- <-]. exists fresh, its'.
  destruct (sync_robots_spec _ _ _ _ _ _ Hs) as [-> Hdr].
  repeat split; auto.
  - eapply (dragged_trans (fun _ => False)); [| |apply dragged_refl|exact Hdr].
    + intros i [].
    + intros i (rid & r & Hin & Hheld). apply in_app_or in Hin as [Hin|Hin].
      * exists rid, r. auto.
      * rewrite Forall_forall in Hf. specialize (Hf _ Hin). simpl in Hf.
        subst r. discriminate Hheld.
  - unfold with_items, with_robots. simpl. now rewrite Hfr.
Qed.

Lemma wf_sync s rs position rs' its' evs :
  wf s ->
  (forall robot_id robot held,
      In (robot_id, robot) rs -> Robot.item_held robot = Some held ->
      Dict.mem (items s) held = true) ->
  sync_robots position rs (items s) = Ok (rs', its', evs) ->
  wf (with_items (with_robots s rs') its').
Proof.
  intros [Hh Hc Hz Hk] Hrs Hs.
  destruct (sync_robots_spec _ _ _ _ _ _ Hs) as [-> Hdr].
  constructor; simpl; auto.
  - intros rid r h Hin Hheld. rewrite (dragged_mem _ _ _ _ Hdr).
    apply in_map_iff in Hin as ([rid0 r0] & E & Hin0).
    unfold synced in E. simpl in E. injection E as <- <-.
    simpl in Hheld. eauto.
  - intros id it Hin.
    destruct (dragged_In_r _ _ _ _ _ Hdr Hin) as (it0 & Hin0 & _ & _ & E & _).
    simpl in E. rewrite E. eauto.
Qed.

Lemma In_discover names rs robot_id robot :
  In (robot_id, robot) (fold_left discover names rs) ->
  In (robot_id, robot) rs \/ Robot.item_held robot = None.
Proof.
  destruct (discover_fresh names rs) as (fresh & -> & Hf).
  intros Hin. apply in_app_or in Hin as [Hin|Hin]; [now left|].
  rewrite Forall_forall in Hf. specialize (Hf _ Hin). simpl in Hf. subst robot.
  now right.
Qed.

Lemma wf_control_loop s env s' evs :
  wf s -> control_loop s env = Ok (s', evs) -> wf s'.
Proof.
  intros Hwf. unfold control_loop.
  destruct (if first_run s then _ else _) as [[s1 seeding]| |] eqn:Hseed;
    simpl; try discriminate.
  assert (Hwf1 : wf s1).
  { destruct (first_run s).
    - eapply seed_clusters_wf; [|exact Hseed].
      destruct Hwf. constructor; auto.
    - now injection Hseed as <- _. }
  destruct (sync_robots _ _ _) as [[[rs its'] syncing]| |] eqn:Hs; simpl;
    try discriminate.
  destruct (item_holders _ _) as [hs| |]; simpl; try discriminate.
  destruct (item_log _) as [log| |]; simpl; try discriminate.
  intros [= <- <-].
  assert (Hwf2 : wf (with_item_counter s1 (S (item_counter s1)))).
  { destruct Hwf1. constructor; auto. }
  apply (wf_sync (with_robots (with_item_counter s1 (S (item_counter s1)))
                    (fold_left discover (model_names env) (robots s1)))
           _ _ _ _ _) in Hs.
  - exact Hs.
  - destruct Hwf2 as [Hh Hc Hz Hk]. constructor; simpl; auto.
    intros rid r h Hin Hheld. apply In_discover in Hin as [Hin|Hin].
    + eapply Hh; eauto.
    + congruence.
  - simpl. destruct Hwf1 as [Hh Hc Hz Hk].
    intros rid r h Hin Hheld. apply In_discover in Hin as [Hin|Hin].
    + eapply Hh; eauto.
    + congruence.
Qed.

Lemma wf_step s r s' : wf s -> step s r = Ok s' -> wf s'.
Proof.
  intros Hwf. destruct r as [robot_id|robot_id polars|env]; simpl.
  - intros [= <-]. now apply wf_pick_up.
  - destruct (offload_item s robot_id polars) as [[[resp s1] evs]| |] eqn:Ho;
      simpl; try discriminate.
    intros [= <-]. eapply wf_offload; eauto.
  - destruct (control_loop s env) as [[s1 evs]| |] eqn:Hc; simpl;
      try discriminate.
    intros [= <-]. eapply wf_control_loop; eauto.
Qed.

Lemma wf_run rs : forall s s', wf s -> run s rs = Ok s' -> wf s'.
Proof.
  induction rs as [|r rs IH]; intros s s' Hwf; simpl.
  - now intros [= <-].
  - destruct (step s r) as [s1| |] eqn:Hs; simpl; try discriminate.
    apply IH. eapply wf_step; eauto.
Qed.

Lemma wf_reachable cfg s : reachable cfg s -> wf s.
Proof. intros [rs Hrun]. eapply wf_run; [apply wf_init|exact Hrun]. Qed.

Lemma reachable_state_after rs :
  run (init all_zones) rs = Ok (state_after rs) ->
  reachable all_zones (state_after rs).
Proof. intros Hrun. now exists rs. Qed.

Lemma control_loop_total s env :
  wf s -> first_run s = false ->
  exists s' evs, control_loop s env = Ok (s', evs).
Proof.
  intros Hwf Hfr. unfold control_loop. rewrite Hfr. simpl.
  pose proof Hwf as [Hh Hc Hz Hk].
  assert (Hrs : forall robot_id robot held,
             In (robot_id, robot)
                (fold_left discover (model_names env) (robots s)) ->
             Robot.item_held robot = Some held ->
             Dict.mem (items s) held = true).
  { intros rid r h Hin Hheld. apply In_discover in Hin as [Hin|Hin].
    - eapply Hh; eauto.
    - congruence. }
  destruct (sync_robots_total (entity_position env) _ _ Hrs)
    as (rs' & its' & syncing & Hs).
  rewrite Hs. simpl.
  pose proof (wf_sync s _ _ _ _ _ Hwf Hrs Hs) as [Hh' Hc' Hz' Hk'].
  simpl in Hh', Hz'.
  destruct (item_holders_total its' rs' Hh') as (hs & ->). simpl.
  destruct (item_log_total (zones s) Hz') as (log & ->). simpl. eauto.
Qed.


Lemma run_carry_red : run (init all_zones) carry_red = Ok (state_after carry_red).
Proof. vm_compute. reflexivity. Qed.

Lemma run_carry_green :
  run (init all_zones) carry_green = Ok (state_after carry_green).
Proof. vm_compute. reflexivity. Qed.

Lemma run_both_pick : run (init all_zones) both_pick = Ok (state_after both_pick).
Proof. vm_compute. reflexivity. Qed.



(** ** Offloading *)

(** C10. When [offload_item] drops the item on the arena floor, the only
    request sent is the pose-set of the item in the frame of the robot, and
    the only change of the state is that the robot holds nothing: the item
    map (coordinates, colour and cluster of every item), every zone, the
    clusters and every other robot are as before. *)
Theorem arena_offload_frame (s : ItemManager) (robot_id : string)
  (polars : list (Q * Q)) (robot : Robot.t) (held : string)
  (r : Response) (s' : ItemManager) (evs : list event) :
  Dict.get (robots s) robot_id = Some robot ->
  Robot.item_held robot = Some held ->
  refused s robot ->
  offload_item s robot_id polars = Ok (r, s', evs) ->
  evs = [SetEntityState held robot_id 0 0 0]
  /\ items s' = items s
  /\ zones s' = zones s
  /\ clusters s' = clusters s
  /\ Dict.get (robots s') robot_id = Some (Robot.with_item_held robot None)
  /\ (forall other, other <> robot_id ->
        Dict.get (robots s') other = Dict.get (robots s) other)
  /\ s' = with_robots s
            (Dict.set (robots s) robot_id (Robot.with_item_held robot None)).
Proof.
  intros Hr Hh Hrefused Hoff.
  rewrite (offload_item_arena _ _ polars _ _ Hr Hh Hrefused) in Hoff.
  injection Hoff as <- <- <-. unfold arena_state. simpl.
  repeat split; auto.
  - apply get_set_same.
  - intros other Hne. now apply get_set_other.
Qed.

Lemma refused_carry_green :
  Dict.get (robots (state_after carry_green)) "robot1"
  = Some (Robot.mk (257 # 100) (250 # 100) (Some "item6") None)
  /\ refused (state_after carry_green)
             (Robot.mk (257 # 100) (250 # 100) (Some "item6") None).
Proof. split; vm_compute; reflexivity. Qed.

(** [robot1] brings the green [item6] to the top-left zone, which holds a red
    item already. *)
Lemma arena_offload_frame_witness :
  exists r s' evs,
    offload_item (state_after carry_green) "robot1" [] = Ok (r, s', evs)
    /\ evs = [SetEntityState "item6" "robot1" 0 0 0]
    /\ items s' = items (state_after carry_green)
    /\ zones s' = zones (state_after carry_green).
Proof.
  destruct refused_carry_green as [Hr Href].
  eexists _, _, _. split; [vm_compute; reflexivity|].
  assert (Hoff : offload_item (state_after carry_green) "robot1" []
                 = Ok (mkResponse true
                         "Item 'item6' held by robot 'robot1' has been offloaded in the arena.",
                       arena_state (state_after carry_green) "robot1"
                         (Robot.mk (257 # 100) (250 # 100) (Some "item6") None),
                       [SetEntityState "item6" "robot1" 0 0 0]))
    by (vm_compute; reflexivity).
  destruct (arena_offload_frame _ _ _ _ _ _ _ _ Hr eq_refl Href Hoff)
    as (He & Hi & Hz & _).
  split; [reflexivity|]. split; [exact Hi | exact Hz].
Defined.

Lemma count_up_location z colour z' :
  count_up z colour = Ok z' -> Zone.location z' = Zone.location z.
Proof.
  unfold count_up, lookup.
  destruct (Dict.get _ _); simpl; [|discriminate]. now intros [= <-].
Qed.

(** C4, amended. The response of a successful zone deposit names the item as
    [None], the rendering of the held-item field after it was cleared, and
    never by its id. *)
Theorem deposit_reports_None (s : ItemManager) (robot_id : string)
  (polars : list (Q * Q)) (robot : Robot.t) (held : string)
  (l : ZoneLocation) (z : Zone.t)
  (r : Response) (s' : ItemManager) (evs : list event) :
  Dict.get (robots s) robot_id = Some robot ->
  Robot.item_held robot = Some held ->
  accepted s robot l z ->
  offload_item s robot_id polars = Ok (r, s', evs) ->
  success r = true
  /\ message r = deposit_report "None" robot_id (Zone.location z).
Proof.
  intros Hr Hh Hacc Hoff.
  destruct (offload_item_cases _ _ _ _ _ _ Hoff)
    as [(Hr' & _)
       |[(robot' & Hr' & Hh' & _)
        |[(robot' & held' & Hr' & Hh' & Href & _)
         |(robot' & held' & l' & z0 & item & z' & x & y & rest & Hr' & Hh'
           & Hacc' & Hi & Hup & Hg & -> & _)]]];
    try congruence.
  - exfalso. assert (robot' = robot) as -> by congruence.
    destruct Hacc as [Hz Hall]. unfold refused in Href. rewrite Hz in Href.
    cbv [option_map snd] in Href. congruence.
  - assert (robot' = robot) as -> by congruence.
    destruct Hacc as [Hz _], Hacc' as [Hz' _].
    assert (z0 = z) as -> by congruence.
    split; [reflexivity|]. simpl. unfold zone_message, deposit_report. simpl.
    now rewrite (count_up_location _ _ _ Hup).
Qed.

Lemma accepted_carry_red :
  Dict.get (robots (state_after carry_red)) "robot1"
  = Some (Robot.mk (257 # 100) (250 # 100) (Some "item0") None)
  /\ accepted (state_after carry_red)
       (Robot.mk (257 # 100) (250 # 100) (Some "item0") None)
       TOP_LEFT
       (Zone.mk TOP_LEFT (257 # 100) (25 # 10)
                [(RED, 0); (GREEN, 0); (BLUE, 0)]).
Proof. split; [|split]; vm_compute; reflexivity. Qed.

Lemma offload_carry_red :
  exists s' evs,
    offload_item (state_after carry_red) "robot1" deposit_draws
    = Ok (mkResponse true
            "Item 'None' held by robot 'robot1' has been offloaded at zone 'ZoneLocation.TOP_LEFT'.",
          s', evs).
Proof. eexists _, _. vm_compute. reflexivity. Qed.

(** [robot1] deposits the red [item0] in the fresh top-left zone. *)
Lemma deposit_reports_None_witness :
  exists r s' evs,
    offload_item (state_after carry_red) "robot1" deposit_draws
    = Ok (r, s', evs)
    /\ success r = true
    /\ message r = deposit_report "None" "robot1" TOP_LEFT.
Proof.
  destruct accepted_carry_red as [Hr Hacc].
  destruct offload_carry_red as (s' & evs & Hoff).
  eexists _, s', evs. split; [exact Hoff|].
  exact (deposit_reports_None _ _ _ _ _ _ _ _ _ _ Hr eq_refl Hacc Hoff).
Defined.

(** The deposit of [item0] answers with the text [None] where the claim has
    the empty string. *)
Lemma deposit_reports_empty_counterexample : ~ deposit_reports_empty.
Proof.
  intros Hclaim.
  destruct accepted_carry_red as [Hr Hacc].
  destruct offload_carry_red as (s' & evs & Hoff).
  specialize (Hclaim all_zones _ _ _ _ _ _ _ _ _ _
                (reachable_state_after _ run_carry_red) Hr eq_refl Hacc Hoff).
  vm_compute in Hclaim. discriminate Hclaim.
Qed.

Lemma offload_decision s robot held :
  Robot.item_held robot = Some held ->
  Dict.mem (items s) held = true ->
  refused s robot \/ exists l z, accepted s robot l z.
Proof.
  intros Hh Hm. unfold refused, accepted, Dict.mem in *.
  destruct (get_robot_zone (zones s) robot) as [[l z]|]; [|now left].
  cbv [option_map snd].
  destruct (allowed_drop_in_zone (items s) robot (Some z)) as [[|]| |] eqn:Hall.
  - right. exists l, z. auto.
  - now left.
  - exfalso. unfold allowed_drop_in_zone, held_item, lookup in Hall.
    rewrite Hh in Hall. destruct (match_colour _); [|discriminate].
    destruct (Dict.get (items s) held); discriminate.
  - exfalso. unfold allowed_drop_in_zone, held_item, lookup in Hall.
    rewrite Hh in Hall. destruct (match_colour _); [|discriminate].
    destruct (Dict.get (items s) held); discriminate.
Qed.

Lemma generate_item_position_known cs its cluster_id polars :
  Dict.mem cs cluster_id = true ->
  generate_item_position cs its cluster_id polars <> KeyError.
Proof.
  unfold Dict.mem. intros Hm.
  induction polars as [|[ox oy] polars IH]; simpl; [discriminate|].
  unfold lookup. destruct (Dict.get cs cluster_id); [|discriminate]. simpl.
  destruct (existsb _ _); [exact IH | discriminate].
Qed.

Lemma refused_not_accepted s robot l z :
  refused s robot -> accepted s robot l z -> False.
Proof.
  unfold refused. intros Href [Hz Hall]. rewrite Hz in Href.
  cbv [option_map snd] in Href. congruence.
Qed.

(** C5. [offload_item] answers with a failure exactly when the robot id is
    unknown or the robot holds nothing.  A robot that holds an item and stands
    in no zone, or in one that refuses the colour, gets a success whose
    message ends in "offloaded in the arena", holds nothing afterwards, and
    no zone has changed.  In an accepting zone the call succeeds as soon as
    the position generator returns, and no call raises an exception. *)
Theorem offload_result (cfg : Config) (s : ItemManager) (robot_id : string)
  (polars : list (Q * Q)) :
  reachable cfg s ->
  (forall r s' evs,
      offload_item s robot_id polars = Ok (r, s', evs) ->
      (success r = false <->
       (Dict.get (robots s) robot_id = None
        \/ exists robot, Dict.get (robots s) robot_id = Some robot
                         /\ Robot.item_held robot = None)))
  /\ (Dict.get (robots s) robot_id = None ->
      offload_item s robot_id polars
      = Ok (mkResponse false ("Unable to find robot_id '" ++ robot_id ++ "'"),
            s, []))
  /\ (forall robot,
        Dict.get (robots s) robot_id = Some robot ->
        Robot.item_held robot = None ->
        offload_item s robot_id polars
        = Ok (mkResponse false
                ("Robot '" ++ robot_id
                 ++ "' does not hold any items, so unable to offload."),
              s, []))
  /\ (forall robot held,
        Dict.get (robots s) robot_id = Some robot ->
        Robot.item_held robot = Some held ->
        (refused s robot
         /\ exists s',
             offload_item s robot_id polars
             = Ok (mkResponse true
                     ("Item '" ++ held ++ "' held by robot '" ++ robot_id
                      ++ "' has been offloaded in the arena."),
                   s', [SetEntityState held robot_id 0 0 0])
             /\ Dict.get (robots s') robot_id
                = Some (Robot.with_item_held robot None)
             /\ zones s' = zones s)
        \/ (exists l z item,
               accepted s robot l z
               /\ Dict.get (items s) held = Some item
               /\ ((exists r s' evs,
                       offload_item s robot_id polars = Ok (r, s', evs)
                       /\ success r = true)
                   \/ (offload_item s robot_id polars = Starved
                       /\ generate_item_position (clusters s) (items s)
                            (Item.cluster_id item) polars = Starved)))).
Proof.
  intros Hreach. pose proof (wf_reachable _ _ Hreach) as Hwf.
  split; [|split; [|split]].
  - intros r s' evs Hoff.
    destruct (offload_item_cases _ _ _ _ _ _ Hoff)
      as [(Hr & -> & _)
         |[(robot & Hr & Hh & -> & _)
          |[(robot & held & Hr & Hh & _ & -> & _)
           |(robot & held & l & z & item & z' & x & y & rest & Hr & Hh
             & _ & _ & _ & _ & -> & _)]]]; simpl.
    + tauto.
    + split; [|reflexivity]. intros _. right. eauto.
    + split; [discriminate|]. intros [Hn|(robot' & Hr' & Hh')]; congruence.
    + split; [discriminate|]. intros [Hn|(robot' & Hr' & Hh')]; congruence.
  - intros Hr. unfold offload_item. now rewrite Hr.
  - intros robot Hr Hh. unfold offload_item. now rewrite Hr, Hh.
  - intros robot held Hr Hh.
    pose proof (get_In _ _ _ Hr) as Hin.
    pose proof (wf_held s Hwf _ _ _ Hin Hh) as Hm.
    destruct (offload_decision s robot held Hh Hm) as [Href|(l & z & Hacc)].
    + left. split; [exact Href|]. exists (arena_state s robot_id robot).
      rewrite (offload_item_arena _ _ polars _ _ Hr Hh Href).
      unfold arena_message, arena_state. rewrite Hh. simpl.
      split; [reflexivity|]. split; [apply get_set_same | reflexivity].
    + right. unfold Dict.mem in Hm.
      destruct (Dict.get (items s) held) as [item|] eqn:Hi; [|discriminate].
      exists l, z, item. split; [exact Hacc|]. split; [reflexivity|].
      pose proof (get_robot_zone_In _ _ _ _ (proj1 Hacc)) as Hzin.
      destruct (count_up_total z (Item.colour item) (wf_zones s Hwf _ _ Hzin))
        as (z' & Hup).
      destruct (generate_item_position (clusters s) (items s)
                  (Item.cluster_id item) polars)
        as [[[x y] rest]| |] eqn:Hg.
      * left. eexists _, _, _.
        split; [exact (offload_item_deposit _ _ _ _ _ _ _ _ _ _ _ _
                         Hr Hh Hacc Hi Hup Hg)|reflexivity].
      * exfalso. revert Hg. apply generate_item_position_known.
        apply (wf_cluster s Hwf held). now apply get_In.
      * right. split; [|reflexivity].
        destruct Hacc as [Hz Hall]. unfold offload_item, lookup.
        rewrite Hr, Hh, Hz. cbv [option_map snd]. rewrite Hall. simpl.
        rewrite Hi. simpl. rewrite Hup. simpl. now rewrite Hg.
Qed.

(** [robot1], holding the green [item6] in the red top-left zone. *)
Lemma offload_result_witness :
  exists s',
    offload_item (state_after carry_green) "robot1" []
    = Ok (mkResponse true
            "Item 'item6' held by robot 'robot1' has been offloaded in the arena.",
          s', [SetEntityState "item6" "robot1" 0 0 0])
    /\ zones s' = zones (state_after carry_green).
Proof.
  destruct refused_carry_green as [Hr Href].
  destruct (offload_result all_zones (state_after carry_green) "robot1" []
              (reachable_state_after _ run_carry_green))
    as (_ & _ & _ & Hheld).
  destruct (Hheld _ "item6" Hr eq_refl)
    as [(_ & s' & Hoff & _ & Hz)|(l & z & item & Hacc & _)].
  - exists s'. split; [exact Hoff | exact Hz].
  - exfalso. exact (refused_not_accepted _ _ _ _ Href Hacc).
Defined.

Lemma get_robot_zone_get zs robot l z :
  NoDup (Dict.keys zs) ->
  get_robot_zone zs robot = Some (l, z) -> Dict.get zs l = Some z.
Proof.
  intros Hnd Hz. apply In_get_NoDup; [exact Hnd|].
  eapply get_robot_zone_In; eauto.
Qed.

(** C6. A robot that holds an item and stands in a zone accepting its colour
    offloads with success: the counter of that colour in that zone grows by
    exactly 1 (no other counter moves), the item is stored at the position
    [generate_item_position] returned for its own cluster (the float sum of
    the centre of that cluster and one of the polar draws), one pose-set of
    the item at that position in the [world] frame is sent, and the robot
    holds nothing. *)
Theorem zone_deposit (cfg : Config) (s : ItemManager) (robot_id : string)
  (polars : list (Q * Q)) (robot : Robot.t) (held : string)
  (l : ZoneLocation) (z : Zone.t) (item : Item.t) (x y : Q)
  (rest : list (Q * Q)) :
  reachable cfg s ->
  Dict.get (robots s) robot_id = Some robot ->
  Robot.item_held robot = Some held ->
  accepted s robot l z ->
  Dict.get (items s) held = Some item ->
  generate_item_position (clusters s) (items s) (Item.cluster_id item) polars
  = Ok (x, y, rest) ->
  exists msg s' z',
    offload_item s robot_id polars
    = Ok (mkResponse true msg, s', [SetEntityState held "world" x y 0])
    /\ Dict.get (zones s) l = Some z
    /\ Dict.get (zones s') l = Some z'
    /\ count z' (Item.colour item) = count z (Item.colour item) + 1
    /\ (forall c, c <> Item.colour item -> count z' c = count z c)
    /\ (forall l', l' <> l -> Dict.get (zones s') l' = Dict.get (zones s) l')
    /\ Dict.get (items s') held = Some (Item.with_xy item x y)
    /\ (forall other, other <> held ->
          Dict.get (items s') other = Dict.get (items s) other)
    /\ (exists robot', Dict.get (robots s') robot_id = Some robot'
                       /\ Robot.item_held robot' = None)
    /\ (forall other, other <> robot_id ->
          Dict.get (robots s') other = Dict.get (robots s) other)
    /\ clusters s' = clusters s
    /\ (exists cluster ox oy,
          Dict.get (clusters s) (Item.cluster_id item) = Some cluster
          /\ In (ox, oy) polars
          /\ x = float (inject_Z (Cluster.x cluster) + float ox)
          /\ y = float (inject_Z (Cluster.y cluster) + float oy)).
Proof.
  intros Hreach Hr Hh Hacc Hi Hg. pose proof (wf_reachable _ _ Hreach) as Hwf.
  pose proof (get_robot_zone_In _ _ _ _ (proj1 Hacc)) as Hzin.
  destruct (count_up_total z (Item.colour item) (wf_zones s Hwf _ _ Hzin))
    as (z' & Hup).
  destruct (count_up_ok z (Item.colour item) z' (wf_zones s Hwf _ _ Hzin)
              (accepted_match _ _ _ _ _ _ Hacc Hh Hi) Hup)
    as (_ & _ & Hinc & Hsame).
  exists (zone_message (cleared robot) robot_id z'),
         (deposit_state s robot_id robot held item l z' x y), z'.
  split; [exact (offload_item_deposit _ _ _ _ _ _ _ _ _ _ _ _
                   Hr Hh Hacc Hi Hup Hg)|].
  unfold deposit_state. simpl.
  split; [exact (get_robot_zone_get _ _ _ _ (wf_zone_keys s Hwf) (proj1 Hacc))|].
  split; [apply get_set_same|].
  split; [exact Hinc|]. split; [exact Hsame|].
  split; [intros l' Hne; now apply get_set_other|].
  split; [apply get_set_same|].
  split; [intros other Hne; now apply get_set_other|].
  split; [exists (cleared robot); split; [apply get_set_same|reflexivity]|].
  split; [intros other Hne; now apply get_set_other|].
  split; [reflexivity|].
  exact (generate_item_position_offset _ _ _ _ _ _ _ Hg).
Qed.

Lemma generate_carry_red :
  Dict.get (items (state_after carry_red)) "item0"
  = Some (Item.mk (257 # 100) (250 # 100) RED "cluster0")
  /\ generate_item_position (clusters (state_after carry_red))
       (items (state_after carry_red)) "cluster0" deposit_draws
     = Ok (float (-2 + float (-2 # 10)), float (-2 + float (-2 # 10)), []).
Proof. split; vm_compute; reflexivity. Qed.

(** Scenario B: [robot1] holds the red [item0] in the fresh top-left zone. *)
Lemma zone_deposit_witness :
  exists msg s' z',
    offload_item (state_after carry_red) "robot1" deposit_draws
    = Ok (mkResponse true msg, s',
          [SetEntityState "item0" "world" (float (-2 + float (-2 # 10))) (float (-2 + float (-2 # 10))) 0])
    /\ Dict.get (zones s') TOP_LEFT = Some z'
    /\ count z' RED = 1
    /\ (exists robot', Dict.get (robots s') "robot1" = Some robot'
                       /\ Robot.item_held robot' = None).
Proof.
  destruct accepted_carry_red as [Hr Hacc].
  destruct generate_carry_red as [Hi Hg].
  destruct (zone_deposit all_zones _ "robot1" deposit_draws _ "item0" _ _ _ _ _ _
              (reachable_state_after _ run_carry_red) Hr eq_refl Hacc Hi Hg)
    as (msg & s' & z' & Hoff & _ & Hz' & Hinc & _ & _ & _ & _ & Hrob & _).
  exists msg, s', z'. split; [exact Hoff|]. split; [exact Hz'|].
  split; [exact Hinc | exact Hrob].
Defined.

(** ** The zone rule *)

Lemma committed_match z colour :
  zone_ok z -> count z colour <> 0 ->
  match_colour (Zone.items_returned z) = Some colour.
Proof.
  intros Hok Hc.
  destruct (match_colour_ok z Hok) as [[_ Hzero]|(c & Hm & _ & Hoth)].
  - now specialize (Hzero colour).
  - destruct (keyb_dec colour c) as [->|Hne]; [exact Hm|].
    now specialize (Hoth colour Hne).
Qed.

Lemma fresh_match z :
  zone_ok z -> (forall c, count z c = 0) ->
  match_colour (Zone.items_returned z) = None.
Proof.
  intros Hok Hzero.
  destruct (match_colour_ok z Hok) as [[Hm _]|(c & _ & Hpos & _)]; [exact Hm|].
  specialize (Hzero c). lia.
Qed.

Lemma Colour_eqb_false a b : a <> b -> Colour_eqb a b = false.
Proof. destruct a, b; simpl; congruence. Qed.

(** C3. A zone all of whose counters are zero lets any held colour in.  A
    zone in which some colour has a counter other than zero lets the held
    item in exactly when it has that colour. *)
Theorem zone_acceptance (cfg : Config) (s : ItemManager) (l : ZoneLocation)
  (z : Zone.t) (its : dict string Item.t) (robot : Robot.t) (item : Item.t) :
  reachable cfg s ->
  In (l, z) (zones s) ->
  held_item its robot = Ok item ->
  ((forall c, count z c = 0) ->
   allowed_drop_in_zone its robot (Some z) = Ok true)
  /\ (forall c, count z c <> 0 ->
        (Item.colour item = c ->
         allowed_drop_in_zone its robot (Some z) = Ok true)
        /\ (Item.colour item <> c ->
            allowed_drop_in_zone its robot (Some z) = Ok false)).
Proof.
  intros Hreach Hin Hheld.
  pose proof (wf_zones s (wf_reachable _ _ Hreach) _ _ Hin) as Hok.
  unfold allowed_drop_in_zone. split.
  - intros Hzero. now rewrite (fresh_match z Hok Hzero).
  - intros c Hc. rewrite (committed_match z c Hok Hc), Hheld. simpl. split.
    + intros <-. now rewrite (proj2 (Colour_eqb_true _ _) eq_refl).
    + intros Hne. rewrite Colour_eqb_false; congruence.
Qed.

(** The top-left zone of the worked run once it holds a red item: the red
    [item3] is let in, the green [item6] is not. *)
Lemma zone_acceptance_witness :
  let z := Zone.mk TOP_LEFT (257 # 100) (25 # 10)
                   [(RED, 1); (GREEN, 0); (BLUE, 0)] in
  let its := items (state_after carry_green) in
  allowed_drop_in_zone its (Robot.mk 0 0 (Some "item3") None) (Some z)
  = Ok true
  /\ allowed_drop_in_zone its (Robot.mk 0 0 (Some "item6") None) (Some z)
     = Ok false.
Proof.
  intros z its.
  assert (Hin : In (TOP_LEFT, z) (zones (state_after carry_green)))
    by (vm_compute; tauto).
  assert (Hc : count z RED <> 0) by (vm_compute; discriminate).
  assert (H3 : held_item its (Robot.mk 0 0 (Some "item3") None)
               = Ok (Item.mk (-2) 0 RED "cluster1")) by (vm_compute; reflexivity).
  assert (H6 : held_item its (Robot.mk 0 0 (Some "item6") None)
               = Ok (Item.mk (257 # 100) (250 # 100) GREEN "cluster2"))
    by (vm_compute; reflexivity).
  destruct (zone_acceptance all_zones _ TOP_LEFT z its _ _
              (reachable_state_after _ run_carry_green) Hin H3) as [_ Hred].
  destruct (zone_acceptance all_zones _ TOP_LEFT z its _ _
              (reachable_state_after _ run_carry_green) Hin H6) as [_ Hgreen].
  split.
  - apply (proj1 (Hred RED Hc)). reflexivity.
  - apply (proj2 (Hgreen RED Hc)). simpl. discriminate.
Defined.

(** *** Counters along a run *)

Lemma pick_up_item_zones s robot_id :
  zones (snd (pick_up_item s robot_id)) = zones s.
Proof.
  unfold pick_up_item.
  destruct (Dict.get (robots s) robot_id) as [robot|];
    [destruct (Robot.item_held robot);
     [|destruct (first_item_in_range (items s) robot)]|]; reflexivity.
Qed.

Lemma seed_items_zones n : forall s cluster_id colour polars s' evs polars',
  seed_items n s cluster_id colour polars = Ok (s', evs, polars') ->
  zones s' = zones s.
Proof.
  induction n as [|n IH]; intros s cluster_id colour polars s' evs polars';
    simpl.
  - now intros [= <- <- <-].
  - destruct (generate_item_position _ _ _ _) as [[[x y] polars1]| |];
      simpl; try discriminate.
    destruct (seed_items n _ _ _ _) as [[[s3 evs3] polars3]| |] eqn:Hs;
      simpl; try discriminate.
    intros [= <- <- <-]. now rewrite (IH _ _ _ _ _ _ _ Hs).
Qed.

Lemma seed_clusters_zones n : forall s ints polars s' evs,
  seed_clusters n s ints polars = Ok (s', evs) -> zones s' = zones s.
Proof.
  induction n as [|n IH]; intros s ints polars s' evs; simpl.
  - now intros [= <- <-].
  - destruct (choose_colour _ _) as [[colour ints1]| |]; simpl;
      try discriminate.
    destruct (generate_cluster_location _ _ _) as [[[x y] ints2]| |]; simpl;
      try discriminate.
    destruct ints2 as [|raw ints3]; [discriminate|].
    destruct (seed_items _ _ _ _ _) as [[[s3 evs3] polars1]| |] eqn:Hs; simpl;
      try discriminate.
    destruct (seed_clusters n _ _ _) as [[s4 evs4]| |] eqn:Hc; simpl;
      try discriminate.
    intros [= <- <-].
    now rewrite (IH _ _ _ _ _ Hc), (seed_items_zones _ _ _ _ _ _ _ _ Hs).
Qed.

Lemma control_loop_zones s env s' evs :
  control_loop s env = Ok (s', evs) -> zones s' = zones s.
Proof.
  unfold control_loop.
  destruct (if first_run s then _ else _) as [[s1 seeding]| |] eqn:Hseed;
    simpl; try discriminate.
  assert (Hz : zones s1 = zones s).
  { destruct (first_run s).
    - now rewrite (seed_clusters_zones _ _ _ _ _ _ Hseed).
    - now injection Hseed as <- _. }
  destruct (sync_robots _ _ _) as [[[rs its'] syncing]| |]; simpl;
    try discriminate.
  destruct (item_holders _ _) as [hs| |]; simpl; try discriminate.
  destruct (item_log _) as [log| |]; simpl; try discriminate.
  intros [= <- <-]. exact Hz.
Qed.

Lemma step_counts s r s' :
  wf s -> step s r = Ok s' ->
  forall l z, Dict.get (zones s) l = Some z ->
              exists z', Dict.get (zones s') l = Some z'
                         /\ forall c, count z c <= count z' c.
Proof.
  intros Hwf Hstep l z Hz.
  assert (Hsame : zones s' = zones s ->
                  exists z', Dict.get (zones s') l = Some z'
                             /\ forall c, count z c <= count z' c).
  { intros ->. exists z. split; [exact Hz | intros; lia]. }
  destruct r as [robot_id|robot_id polars|env]; simpl in Hstep.
  - injection Hstep as <-. apply Hsame, pick_up_item_zones.
  - destruct (offload_item s robot_id polars) as [[[resp s1] evs]| |] eqn:Ho;
      simpl in Hstep; try discriminate. injection Hstep as ->.
    destruct (offload_item_cases _ _ _ _ _ _ Ho)
      as [(_ & _ & -> & _)
         |[(robot & _ & _ & _ & -> & _)
          |[(robot & held & _ & _ & _ & _ & -> & _)
           |(robot & held & l0 & z0 & item & z' & x & y & rest & Hr & Hh
             & Hacc & Hi & Hup & _ & _ & -> & _)]]]; auto.
    pose proof (get_robot_zone_In _ _ _ _ (proj1 Hacc)) as Hzin.
    pose proof (get_robot_zone_get _ _ _ _ (wf_zone_keys s Hwf) (proj1 Hacc))
      as Hz0.
    destruct (count_up_ok z0 (Item.colour item) z' (wf_zones s Hwf _ _ Hzin)
                (accepted_match _ _ _ _ _ _ Hacc Hh Hi) Hup)
      as (_ & _ & Hinc & Hoth).
    unfold deposit_state. simpl.
    destruct (keyb_dec l l0) as [->|Hne].
    + exists z'. rewrite get_set_same. split; [reflexivity|].
      assert (z0 = z) as -> by congruence.
      intros c. destruct (keyb_dec c (Item.colour item)) as [->|Hc].
      * lia.
      * rewrite (Hoth c Hc). lia.
    + exists z. rewrite get_set_other by exact Hne.
      split; [exact Hz | intros; lia].
  - destruct (control_loop s env) as [[s1 evs]| |] eqn:Hc; simpl in Hstep;
      try discriminate. injection Hstep as ->.
    apply Hsame. eapply control_loop_zones; eauto.
Qed.

Lemma run_counts rs : forall s s',
  wf s -> run s rs = Ok s' ->
  forall l z, Dict.get (zones s) l = Some z ->
              exists z', Dict.get (zones s') l = Some z'
                         /\ forall c, count z c <= count z' c.
Proof.
  induction rs as [|r rs IH]; intros s s' Hwf; simpl.
  - intros [= <-] l z Hz. exists z. split; [exact Hz | intros; lia].
  - destruct (step s r) as [s1| |] eqn:Hs; simpl; try discriminate.
    intros Hrun l z Hz.
    destruct (step_counts _ _ _ Hwf Hs l z Hz) as (z1 & Hz1 & Hle1).
    destruct (IH _ _ (wf_step _ _ _ Hwf Hs) Hrun l z1 Hz1) as (z2 & Hz2 & Hle2).
    exists z2. split; [exact Hz2|]. intros c.
    specialize (Hle1 c). specialize (Hle2 c). lia.
Qed.

Lemma zone_ok_count_nonneg z c : zone_ok z -> 0 <= count z c.
Proof.
  intros (r & g & b & Hret & Hr & Hg & Hb & _). unfold count. rewrite Hret.
  destruct c; simpl; assumption.
Qed.

(** C2. Along any run no zone counter ever decreases.  Once a robot has
    deposited an item of some colour in a zone (the zone accepted it and the
    counter of that colour went up by one), the zone refuses, in every later
    state of the run, every held item of another colour. *)
Theorem zone_lock_monotone (cfg : Config) (s : ItemManager) :
  reachable cfg s ->
  (forall rs s' l z,
      run s rs = Ok s' ->
      Dict.get (zones s) l = Some z ->
      exists z', Dict.get (zones s') l = Some z'
                 /\ forall c, count z c <= count z' c)
  /\ (forall robot_id polars robot held item l z r s1 evs,
        Dict.get (robots s) robot_id = Some robot ->
        Robot.item_held robot = Some held ->
        Dict.get (items s) held = Some item ->
        accepted s robot l z ->
        offload_item s robot_id polars = Ok (r, s1, evs) ->
        exists z1,
          Dict.get (zones s1) l = Some z1
          /\ count z1 (Item.colour item) = count z (Item.colour item) + 1
          /\ forall rs s2,
              run s1 rs = Ok s2 ->
              exists z2,
                Dict.get (zones s2) l = Some z2
                /\ count z1 (Item.colour item) <= count z2 (Item.colour item)
                /\ forall its robot2 item2,
                    held_item its robot2 = Ok item2 ->
                    Item.colour item2 <> Item.colour item ->
                    allowed_drop_in_zone its robot2 (Some z2) = Ok false).
Proof.
  intros Hreach. pose proof (wf_reachable _ _ Hreach) as Hwf. split.
  - intros rs s' l z Hrun Hz. eapply run_counts; eauto.
  - intros robot_id polars robot held item l z r s1 evs Hr Hh Hi Hacc Hoff.
    pose proof (wf_offload _ _ _ _ _ _ Hwf Hoff) as Hwf1.
    pose proof (get_robot_zone_get _ _ _ _ (wf_zone_keys s Hwf) (proj1 Hacc))
      as Hz.
    pose proof (wf_zones s Hwf _ _ (get_In _ _ _ Hz)) as Hok.
    destruct (offload_item_cases _ _ _ _ _ _ Hoff)
      as [(Hr' & _)
         |[(robot' & Hr' & Hh' & _)
          |[(robot' & held' & Hr' & Hh' & Href & _)
           |(robot' & held' & l' & z0 & item' & z' & x & y & rest & Hr' & Hh'
             & Hacc' & Hi' & Hup & _ & _ & Hs1 & _)]]]; try congruence.
    { exfalso. assert (robot' = robot) as -> by congruence.
      exact (refused_not_accepted _ _ _ _ Href Hacc). }
    assert (robot' = robot) as -> by congruence.
    assert (held' = held) as -> by congruence.
    assert (item' = item) as -> by congruence.
    destruct Hacc as [Hgz Hall], Hacc' as [Hgz' Hall'].
    assert (l' = l) as -> by congruence.
    assert (z0 = z) as -> by congruence.
    destruct (count_up_ok z (Item.colour item) z' Hok
                (accepted_match _ _ _ _ _ _ (conj Hgz Hall) Hh Hi) Hup)
      as (_ & _ & Hinc & _).
    exists z'. split; [subst s1; unfold deposit_state; simpl; apply get_set_same|].
    split; [exact Hinc|].
    intros rs s2 Hrun.
    assert (Hz1 : Dict.get (zones s1) l = Some z')
      by (subst s1; unfold deposit_state; simpl; apply get_set_same).
    destruct (run_counts rs _ _ Hwf1 Hrun l z' Hz1) as (z2 & Hz2 & Hle).
    exists z2. split; [exact Hz2|]. split; [apply Hle|].
    intros its robot2 item2 Hheld2 Hne.
    pose proof (wf_zones s2 (wf_run _ _ _ Hwf1 Hrun) _ _ (get_In _ _ _ Hz2))
      as Hok2.
    pose proof (zone_ok_count_nonneg z (Item.colour item) Hok) as Hnn.
    specialize (Hle (Item.colour item)).
    unfold allowed_drop_in_zone.
    rewrite (committed_match z2 (Item.colour item) Hok2) by lia.
    rewrite Hheld2. simpl. rewrite Colour_eqb_false; congruence.
Qed.

Lemma run_fetch_green :
  (exists r evs,
      offload_item (state_after carry_red) "robot1" deposit_draws
      = Ok (r, state_after deposit_red, evs))
  /\ run (state_after deposit_red) fetch_green = Ok (state_after carry_green).
Proof.
  split; [eexists _, _|]; vm_compute; reflexivity.
Qed.

(** After the red deposit of the worked run the top-left zone still holds its
    red item three callbacks later and refuses the green [item6]. *)
Lemma zone_lock_monotone_witness :
  exists z2,
    Dict.get (zones (state_after carry_green)) TOP_LEFT = Some z2
    /\ 1 <= count z2 RED
    /\ allowed_drop_in_zone (items (state_after carry_green))
         (Robot.mk (257 # 100) (250 # 100) (Some "item6") None) (Some z2)
       = Ok false.
Proof.
  destruct accepted_carry_red as [Hr Hacc].
  destruct generate_carry_red as [Hi _].
  destruct run_fetch_green as [(r & evs & Hoff) Hrun].
  destruct (zone_lock_monotone all_zones (state_after carry_red)
              (reachable_state_after _ run_carry_red)) as [_ Hlock].
  destruct (Hlock _ _ _ _ _ _ _ _ _ _ Hr eq_refl Hi Hacc Hoff)
    as (z1 & _ & Hinc & Hlater).
  destruct (Hlater _ _ Hrun) as (z2 & Hz2 & Hle & Hrefuse).
  exists z2. split; [exact Hz2|]. split.
  - simpl in Hinc, Hle. lia.
  - apply (Hrefuse _ _ (Item.mk (257 # 100) (250 # 100) GREEN "cluster2")).
    + vm_compute. reflexivity.
    + simpl. discriminate.
Defined.

(** ** Holders *)

(** C1, amended. In every reachable state the held-item field of a robot is
    empty or stores one id, and that id names an item of the item map.
    (Nothing keeps two robots from holding the same id: [pick_up_item] never
    looks at what the other robots hold.) *)
Theorem held_items_exist (cfg : Config) (s : ItemManager) :
  reachable cfg s ->
  forall robot_id robot,
    Dict.get (robots s) robot_id = Some robot ->
    Robot.item_held robot = None
    \/ exists item_id item,
        Robot.item_held robot = Some item_id
        /\ Dict.get (items s) item_id = Some item.
Proof.
  intros Hreach robot_id robot Hr.
  pose proof (wf_reachable _ _ Hreach) as Hwf.
  destruct (Robot.item_held robot) as [item_id|] eqn:Hh; [right | now left].
  pose proof (wf_held s Hwf _ _ _ (get_In _ _ _ Hr) Hh) as Hm.
  unfold Dict.mem in Hm.
  destruct (Dict.get (items s) item_id) as [item|] eqn:Hi; [|discriminate].
  exists item_id, item. auto.
Qed.

Lemma robots_both_pick :
  Dict.get (robots (state_after both_pick)) "robot1"
  = Some (Robot.mk (-220 # 100) (-200 # 100) (Some "item0") None)
  /\ Dict.get (robots (state_after both_pick)) "robot2"
     = Some (Robot.mk (-200 # 100) (-220 # 100) (Some "item0") None).
Proof. split; vm_compute; reflexivity. Qed.

(** [robot2] after both pick-ups of the worked run. *)
Lemma held_items_exist_witness :
  exists item,
    Dict.get (items (state_after both_pick)) "item0" = Some item.
Proof.
  destruct robots_both_pick as [_ Hr2].
  destruct (held_items_exist all_zones _
              (reachable_state_after _ run_both_pick) _ _ Hr2)
    as [Hnone|(item_id & item & Hh & Hi)].
  - discriminate Hnone.
  - injection Hh as <-. exists item. exact Hi.
Defined.

(** Two robots 0.2 away from [item0] both ask for an item: the second
    pick-up hands out [item0] again. *)
Lemma single_holder_counterexample :
  ~ (forall cfg s, reachable cfg s -> single_holder s).
Proof.
  intros Hclaim.
  destruct robots_both_pick as [Hr1 Hr2].
  pose proof (Hclaim all_zones _ (reachable_state_after _ run_both_pick)
                "robot1" "robot2" _ _ "item0" Hr1 Hr2 eq_refl eq_refl) as E.
  discriminate E.
Qed.

(** * Further properties *)

(** ** What seeding and the handlers leave alone *)

Lemma seed_items_frame n : forall s cluster_id colour polars s' evs polars',
  seed_items n s cluster_id colour polars = Ok (s', evs, polars') ->
  first_run s' = first_run s /\ robots s' = robots s
  /\ clusters s' = clusters s /\ cluster_counter s' = cluster_counter s.
Proof.
  induction n as [|n IH]; intros s cluster_id colour polars s' evs polars';
    simpl.
  - intros [= <- <- <-]. auto.
  - destruct (generate_item_position _ _ _ _) as [[[x y] polars1]| |];
      simpl; try discriminate.
    destruct (seed_items n _ _ _ _) as [[[s3 evs3] polars3]| |] eqn:Hs;
      simpl; try discriminate.
    intros [= <- <- <-]. destruct (IH _ _ _ _ _ _ _ Hs) as (-> & -> & -> & ->).
    auto.
Qed.

Lemma seed_clusters_frame n : forall s ints polars s' evs,
  seed_clusters n s ints polars = Ok (s', evs) ->
  first_run s' = first_run s /\ robots s' = robots s.
Proof.
  induction n as [|n IH]; intros s ints polars s' evs; simpl.
  - intros [= <- <-]. auto.
  - destruct (choose_colour _ _) as [[colour ints1]| |]; simpl;
      try discriminate.
    destruct (generate_cluster_location _ _ _) as [[[x y] ints2]| |]; simpl;
      try discriminate.
    destruct ints2 as [|raw ints3]; [discriminate|].
    destruct (seed_items _ _ _ _ _) as [[[s3 evs3] polars1]| |] eqn:Hs; simpl;
      try discriminate.
    destruct (seed_clusters n _ _ _) as [[s4 evs4]| |] eqn:Hc; simpl;
      try discriminate.
    intros [= <- <-]. destruct (IH _ _ _ _ _ Hc) as (-> & ->).
    destruct (seed_items_frame _ _ _ _ _ _ _ _ Hs) as (-> & -> & _). auto.
Qed.

(** The robots after a tick: the known ones and the discovered ones, each at
    its rounded backend position. *)
Lemma control_loop_robots s env s' evs :
  control_loop s env = Ok (s', evs) ->
  first_run s' = false
  /\ robots s' = map (synced (entity_position env))
                     (fold_left discover (model_names env) (robots s)).
Proof.
  unfold control_loop.
  destruct (if first_run s then _ else _) as [[s1 seeding]| |] eqn:Hseed;
    simpl; try discriminate.
  assert (H1 : first_run s1 = false /\ robots s1 = robots s).
  { destruct (first_run s) eqn:Hfr.
    - destruct (seed_clusters_frame _ _ _ _ _ _ Hseed) as (-> & ->). auto.
    - injection Hseed as <- _. auto. }
  destruct H1 as [Hfr1 Hr1]. rewrite Hr1.
  destruct (sync_robots _ _ _) as [[[rs its'] syncing]| |] eqn:Hs; simpl;
    try discriminate.
  destruct (item_holders _ _) as [hs| |]; simpl; try discriminate.
  destruct (item_log _) as [log| |]; simpl; try discriminate.
  intros [= <- <-]. simpl.
  destruct (sync_robots_spec _ _ _ _ _ _ Hs) as [-> _]. auto.
Qed.

Lemma keys_map_synced position rs :
  Dict.keys (map (synced position) rs) = Dict.keys rs.
Proof.
  unfold Dict.keys. rewrite map_map. apply map_ext. now intros [k v].
Qed.

Lemma mem_notin_keys {K V} `{KeyLaws K} (d : list (K * V)) k :
  Dict.mem d k = false -> ~ In k (Dict.keys d).
Proof.
  intros Hm Hin. unfold Dict.keys in Hin. apply in_map_iff in Hin.
  destruct Hin as ([k' v] & <- & Hin). simpl in Hm.
  rewrite (In_mem _ _ _ Hin) in Hm. discriminate.
Qed.

(** Discovery appends: the new entries are fresh [Robot(0, 0)] objects under
    names that contain [robot] and were not keys before. *)
Lemma discover_appends names rs :
  exists fresh,
    fold_left discover names rs = (rs ++ fresh)%list
    /\ Forall (fun e => snd e = Robot.init 0 0 /\ names_robot (fst e) = true
                        /\ In (fst e) names)
              fresh
    /\ (NoDup (Dict.keys rs) -> NoDup (Dict.keys (rs ++ fresh))).
Proof.
  revert rs. induction names as [|name names IH]; intros rs; simpl.
  - exists []. rewrite app_nil_r. auto.
  - unfold discover at 2.
    destruct (names_robot name && negb (Dict.mem rs name)) eqn:E.
    + apply andb_true_iff in E as [Hn E]. apply negb_true_iff in E.
      rewrite (set_absent _ _ _ E).
      destruct (IH (rs ++ [(name, Robot.init 0 0)])%list)
        as (fresh & -> & Hf & Hnd).
      exists ((name, Robot.init 0 0) :: fresh). rewrite <- app_assoc. simpl.
      split; [reflexivity|]. split.
      * constructor; [simpl; auto|].
        eapply Forall_impl; [|exact Hf]. intros e (? & ? & ?). auto.
      * intros Hrs. change ((name, Robot.init 0 0) :: fresh)
          with ([(name, Robot.init 0 0)] ++ fresh)%list.
        rewrite app_assoc. apply Hnd. unfold Dict.keys. rewrite map_app.
        simpl. apply NoDup_app; [exact Hrs | repeat constructor; simpl; tauto|].
        intros k Hk [<-|[]]. exact (mem_notin_keys _ _ E Hk).
    + destruct (IH rs) as (fresh & -> & Hf & Hnd). exists fresh.
      split; [reflexivity|]. split; [|exact Hnd].
      eapply Forall_impl; [|exact Hf]. intros e (? & ? & ?). auto.
Qed.

(** ** The robot registry *)

Lemma pick_up_item_robots s robot_id :
  robots (snd (pick_up_item s robot_id)) = robots s
  \/ exists robot item_id,
      Dict.get (robots s) robot_id = Some robot
      /\ Robot.item_held robot = None
      /\ first_item_in_range (items s) robot = Some item_id
      /\ snd (pick_up_item s robot_id)
         = with_robots s (Dict.set (robots s) robot_id
                            (Robot.with_item_held robot (Some item_id))).
Proof.
  unfold pick_up_item.
  destruct (Dict.get (robots s) robot_id) as [robot|] eqn:Hr;
    [destruct (Robot.item_held robot) eqn:Hh;
     [|destruct (first_item_in_range (items s) robot) as [item_id|] eqn:Hf]|];
    simpl; auto.
  right. exists robot, item_id. auto.
Qed.

Lemma get_mem {K V} `{KeyLaws K} (d : list (K * V)) k v :
  Dict.get d k = Some v -> Dict.mem d k = true.
Proof. unfold Dict.mem. now intros ->. Qed.

Lemma registry_set s robot_id robot robot' :
  registry s ->
  Dict.get (robots s) robot_id = Some robot ->
  Robot.x robot' = Robot.x robot -> Robot.y robot' = Robot.y robot ->
  Robot.previous_item_held robot' = None ->
  NoDup (Dict.keys (Dict.set (robots s) robot_id robot'))
  /\ Forall robot_ok (Dict.set (robots s) robot_id robot').
Proof.
  intros [Hnd Hall] Hr Hx Hy Hp. split.
  - rewrite keys_set_present; [exact Hnd | eapply get_mem; eauto].
  - rewrite Forall_forall in *. intros [k v] Hin.
    apply In_set in Hin as [[-> ->]|Hin]; [|auto].
    destruct (Hall _ (get_In _ _ _ Hr)) as (Hn & _ & Hdx & Hdy).
    unfold robot_ok in *. simpl in *. rewrite Hx, Hy. auto.
Qed.

Lemma registry_step s r s' : registry s -> step s r = Ok s' -> registry s'.
Proof.
  intros Hreg. destruct r as [robot_id|robot_id polars|env]; simpl.
  - intros [= <-].
    destruct (pick_up_item_robots s robot_id)
      as [E|(robot & item_id & Hr & _ & _ & E)].
    + unfold registry. now rewrite E.
    + rewrite E. unfold registry. simpl.
      apply (registry_set s robot_id robot); auto.
      exact (proj1 (proj2 (proj1 (Forall_forall _ _) (proj2 Hreg) _
                             (get_In _ _ _ Hr)))).
  - destruct (offload_item s robot_id polars) as [[[resp s1] evs]| |] eqn:Ho;
      simpl; try discriminate. intros [= <-].
    destruct (offload_item_cases _ _ _ _ _ _ Ho)
      as [(_ & _ & -> & _)
         |[(robot & _ & _ & _ & -> & _)
          |[(robot & held & Hr & _ & _ & _ & -> & _)
           |(robot & held & l & z & item & z' & x & y & rest & Hr & _
             & _ & _ & _ & _ & _ & -> & _)]]]; auto.
    + unfold registry, arena_state. simpl.
      apply (registry_set s robot_id robot); auto.
      exact (proj1 (proj2 (proj1 (Forall_forall _ _) (proj2 Hreg) _
                             (get_In _ _ _ Hr)))).
    + unfold registry, deposit_state. simpl.
      apply (registry_set s robot_id robot); auto.
  - destruct (control_loop s env) as [[s1 evs]| |] eqn:Hc; simpl;
      try discriminate. intros [= <-].
    destruct (control_loop_robots _ _ _ _ Hc) as [_ Hrs].
    destruct (discover_appends (model_names env) (robots s))
      as (fresh & Hd & Hf & Hnd).
    destruct Hreg as [Hk Hall]. unfold registry. rewrite Hrs, Hd. split.
    + rewrite keys_map_synced. auto.
    + rewrite Forall_forall in *. intros e Hin.
      apply in_map_iff in Hin as ([k v] & <- & Hin).
      unfold robot_ok, synced. simpl.
      apply in_app_or in Hin as [Hin|Hin].
      * destruct (Hall _ Hin) as (Hn & Hp & _). simpl in *. auto.
      * destruct (Hf _ Hin) as (Hi & Hn & _). simpl in *. subst v. auto.
Qed.

Lemma registry_run rs : forall s s',
  registry s -> run s rs = Ok s' -> registry s'.
Proof.
  induction rs as [|r rs IH]; intros s s' Hreg; simpl.
  - now intros [= <-].
  - destruct (step s r) as [s1| |] eqn:Hs; simpl; try discriminate.
    apply IH. eapply registry_step; eauto.
Qed.

Lemma registry_reachable cfg s : reachable cfg s -> registry s.
Proof.
  intros [rs Hrun]. eapply registry_run; [|exact Hrun].
  split; simpl; constructor.
Qed.

(** X1. The robots of a reachable state have pairwise distinct ids, and
    every id contains [robot]: only names that pass the discovery test of the
    tick are ever tracked. *)
Theorem robots_named_robot (cfg : Config) (s : ItemManager) :
  reachable cfg s ->
  NoDup (Dict.keys (robots s))
  /\ forall robot_id robot,
      In (robot_id, robot) (robots s) ->
      exists n, String.index 0 "robot" robot_id = Some n.
Proof.
  intros Hreach. destruct (registry_reachable _ _ Hreach) as [Hnd Hall].
  split; [exact Hnd|]. intros robot_id robot Hin.
  rewrite Forall_forall in Hall. destruct (Hall _ Hin) as (Hn & _).
  unfold names_robot in Hn. simpl in Hn.
  destruct (String.index 0 "robot" robot_id) as [n|]; [eauto|discriminate].
Qed.

Lemma robots_named_robot_witness :
  NoDup (Dict.keys (robots (state_after both_pick)))
  /\ exists n, String.index 0 "robot" "robot2" = Some n.
Proof.
  destruct (robots_named_robot all_zones _
              (reachable_state_after _ run_both_pick)) as [Hnd Hall].
  split; [exact Hnd|].
  apply (Hall "robot2" (Robot.mk (-200 # 100) (-220 # 100) (Some "item0") None)).
  vm_compute. tauto.
Defined.

(** X2. No robot of a reachable state has a previously-held item: the field
    is created empty and the only assignment to it stores [None]. *)
Theorem previous_item_held_never_set (cfg : Config) (s : ItemManager) :
  reachable cfg s ->
  forall robot_id robot,
    In (robot_id, robot) (robots s) ->
    Robot.previous_item_held robot = None.
Proof.
  intros Hreach robot_id robot Hin.
  destruct (registry_reachable _ _ Hreach) as [_ Hall].
  rewrite Forall_forall in Hall. exact (proj1 (proj2 (Hall _ Hin))).
Qed.

Lemma previous_item_held_never_set_witness :
  exists robot,
    Dict.get (robots (state_after carry_green)) "robot1" = Some robot
    /\ Robot.previous_item_held robot = None.
Proof.
  destruct refused_carry_green as [Hr _].
  eexists. split; [exact Hr|].
  exact (previous_item_held_never_set all_zones _
           (reachable_state_after _ run_carry_green) _ _ (get_In _ _ _ Hr)).
Defined.

(** X3. The stored coordinates of every robot of a reachable state are
    two-decimal numbers: each is some integer over 100, as [round(v, 2)] left
    it at the last tick. *)
Theorem robot_coordinates_rounded (cfg : Config) (s : ItemManager) :
  reachable cfg s ->
  forall robot_id robot,
    In (robot_id, robot) (robots s) ->
    exists kx ky : Z,
      Robot.x robot = kx # 100 /\ Robot.y robot = ky # 100.
Proof.
  intros Hreach robot_id robot Hin.
  destruct (registry_reachable _ _ Hreach) as [_ Hall].
  rewrite Forall_forall in Hall.
  destruct (Hall _ Hin) as (_ & _ & Hx & Hy). simpl in Hx, Hy.
  exists (Qnum (Robot.x robot)), (Qnum (Robot.y robot)).
  destruct (Robot.x robot) as [nx dx], (Robot.y robot) as [ny dy].
  simpl in *. now subst.
Qed.

Lemma robot_coordinates_rounded_witness :
  exists kx ky : Z,
    (257 # 100 = kx # 100 /\ 250 # 100 = ky # 100)%type.
Proof.
  apply (robot_coordinates_rounded all_zones _
           (reachable_state_after _ run_carry_red) "robot1"
           (Robot.mk (257 # 100) (250 # 100) (Some "item0") None)).
  vm_compute. tauto.
Defined.

Lemma get_app_some {K V} `{KeyLaws K} (d d' : list (K * V)) k v :
  Dict.get d k = Some v -> Dict.get (d ++ d') k = Some v.
Proof.
  induction d as [|[k0 v0] d IH]; simpl; [discriminate|].
  destruct (keyb k k0); auto.
Qed.

Lemma get_map_synced position rs robot_id :
  Dict.get (map (synced position) rs) robot_id
  = option_map (fun robot => snd (synced position (robot_id, robot)))
               (Dict.get rs robot_id).
Proof.
  induction rs as [|[k v] rs IH]; simpl; [reflexivity|].
  destruct (String.eqb robot_id k) eqn:E; [|exact IH].
  apply String.eqb_eq in E. now subst k.
Qed.

Lemma step_robot_keys s r s' :
  step s r = Ok s' ->
  exists more, Dict.keys (robots s') = (Dict.keys (robots s) ++ more)%list.
Proof.
  destruct r as [robot_id|robot_id polars|env]; simpl.
  - intros [= <-]. exists []. rewrite app_nil_r.
    destruct (pick_up_item_robots s robot_id)
      as [E|(robot & item_id & Hr & _ & _ & E)]; rewrite E; [reflexivity|].
    simpl. apply keys_set_present. eapply get_mem; eauto.
  - destruct (offload_item s robot_id polars) as [[[resp s1] evs]| |] eqn:Ho;
      simpl; try discriminate. intros [= <-]. exists []. rewrite app_nil_r.
    destruct (offload_item_cases _ _ _ _ _ _ Ho)
      as [(_ & _ & -> & _)
         |[(robot & _ & _ & _ & -> & _)
          |[(robot & held & Hr & _ & _ & _ & -> & _)
           |(robot & held & l & z & item & z' & x & y & rest & Hr & _
             & _ & _ & _ & _ & _ & -> & _)]]]; auto; simpl;
      apply keys_set_present; eapply get_mem; eauto.
  - destruct (control_loop s env) as [[s1 evs]| |] eqn:Hc; simpl;
      try discriminate. intros [= <-].
    destruct (control_loop_robots _ _ _ _ Hc) as [_ Hrs].
    destruct (discover_appends (model_names env) (robots s))
      as (fresh & Hd & _ & _).
    exists (Dict.keys fresh). rewrite Hrs, Hd, keys_map_synced.
    unfold Dict.keys. apply map_app.
Qed.

(** X4. Robots are never forgotten: along any run the ids of the tracked
    robots only grow at the end, so a robot known once stays known, at the
    same place of the iteration order. *)
Theorem robots_persist (s : ItemManager) (rs : list request)
  (s' : ItemManager) :
  run s rs = Ok s' ->
  exists more, Dict.keys (robots s') = (Dict.keys (robots s) ++ more)%list.
Proof.
  revert s. induction rs as [|r rs IH]; intros s; simpl.
  - intros [= <-]. exists []. now rewrite app_nil_r.
  - destruct (step s r) as [s1| |] eqn:Hs; simpl; try discriminate.
    intros Hrun. destruct (step_robot_keys _ _ _ Hs) as (m1 & E1).
    destruct (IH _ Hrun) as (m2 & E2).
    exists (m1 ++ m2)%list. now rewrite E2, E1, app_assoc.
Qed.

Lemma robots_persist_witness :
  exists more,
    Dict.keys (robots (state_after carry_green))
    = (Dict.keys (robots (state_after deposit_red)) ++ more)%list.
Proof.
  exact (robots_persist _ fetch_green _ (proj2 run_fetch_green)).
Defined.

(** X5. Who changes what a robot holds: when one completed callback leaves a
    robot with another held-item value, the callback was a pick-up by that
    robot, which held nothing before and holds an item id now, or an offload
    by that robot, which holds nothing now.  A tick never changes it. *)
Theorem held_item_changes (s : ItemManager) (r : request) (s' : ItemManager)
  (robot_id : string) (robot robot' : Robot.t) :
  step s r = Ok s' ->
  Dict.get (robots s) robot_id = Some robot ->
  Dict.get (robots s') robot_id = Some robot' ->
  Robot.item_held robot' <> Robot.item_held robot ->
  (r = PickUp robot_id /\ Robot.item_held robot = None
   /\ exists item_id, Robot.item_held robot' = Some item_id)
  \/ (exists polars, r = Offload robot_id polars
                     /\ Robot.item_held robot' = None).
Proof.
  intros Hstep Hr Hr' Hne. destruct r as [rid|rid polars|env]; simpl in Hstep.
  - injection Hstep as <-. left.
    destruct (pick_up_item_robots s rid)
      as [E|(robot0 & item_id & Hr0 & Hh0 & _ & E)]; rewrite E in Hr'.
    + congruence.
    + simpl in Hr'. destruct (keyb_dec robot_id rid) as [->|Hk].
      * rewrite get_set_same in Hr'. injection Hr' as <-.
        assert (robot0 = robot) as -> by congruence.
        split; [reflexivity|]. split; [exact Hh0|]. exists item_id. reflexivity.
      * rewrite get_set_other in Hr' by exact Hk. congruence.
  - destruct (offload_item s rid polars) as [[[resp s1] evs]| |] eqn:Ho;
      simpl in Hstep; try discriminate. injection Hstep as ->. right.
    exists polars.
    destruct (offload_item_cases _ _ _ _ _ _ Ho)
      as [(_ & _ & -> & _)
         |[(robot0 & _ & _ & _ & -> & _)
          |[(robot0 & held & Hr0 & _ & _ & _ & -> & _)
           |(robot0 & held & l & z & item & z' & x & y & rest & Hr0 & _
             & _ & _ & _ & _ & _ & -> & _)]]]; try congruence;
      simpl in Hr'; (destruct (keyb_dec robot_id rid) as [->|Hk];
        [rewrite get_set_same in Hr'; injection Hr' as <-; auto
        |rewrite get_set_other in Hr' by exact Hk; congruence]).
  - destruct (control_loop s env) as [[s1 evs]| |] eqn:Hc; simpl in Hstep;
      try discriminate. injection Hstep as ->. exfalso.
    destruct (control_loop_robots _ _ _ _ Hc) as [_ Hrs].
    destruct (discover_appends (model_names env) (robots s))
      as (fresh & Hd & _ & _).
    rewrite Hrs, Hd, get_map_synced, (get_app_some _ _ _ _ Hr) in Hr'.
    simpl in Hr'. injection Hr' as <-. now apply Hne.
Qed.

(** The deposit of the worked run: [robot1] held [item0] and holds nothing
    after its offload. *)
Lemma held_item_changes_witness :
  exists polars,
    Offload "robot1" deposit_draws = Offload "robot1" polars
    /\ Robot.item_held (Robot.mk (257 # 100) (250 # 100) None None) = None.
Proof.
  destruct run_fetch_green as [(r & evs & Hoff) _].
  destruct accepted_carry_red as [Hr _].
  assert (Hstep : step (state_after carry_red) (Offload "robot1" deposit_draws)
                  = Ok (state_after deposit_red))
    by (unfold step; rewrite Hoff; reflexivity).
  assert (Hr' : Dict.get (robots (state_after deposit_red)) "robot1"
                = Some (Robot.mk (257 # 100) (250 # 100) None None))
    by (vm_compute; reflexivity).
  assert (Hne : Robot.item_held (Robot.mk (257 # 100) (250 # 100) None None)
                <> Robot.item_held
                     (Robot.mk (257 # 100) (250 # 100) (Some "item0") None))
    by discriminate.
  destruct (held_item_changes _ _ _ _ _ _ Hstep Hr Hr' Hne) as [(E & _)|H].
  - discriminate E.
  - exact H.
Defined.

(** ** Zones *)

Lemma zone_sig_set zs l z z' :
  Dict.get zs l = Some z ->
  zone_sig (l, z') = zone_sig (l, z) ->
  map zone_sig (Dict.set zs l z') = map zone_sig zs.
Proof.
  intros Hg Hsig. induction zs as [|[l0 z0] zs IH]; simpl in *; [discriminate|].
  destruct (ZoneLocation_eqb l l0) eqn:E.
  - assert (l0 = l) as -> by (destruct l, l0; simpl in E; congruence).
    injection Hg as ->.
    simpl. now rewrite Hsig.
  - simpl. now rewrite IH.
Qed.

Lemma count_up_sig z colour z' l :
  count_up z colour = Ok z' -> zone_sig (l, z') = zone_sig (l, z).
Proof.
  unfold count_up, lookup.
  destruct (Dict.get _ _); simpl; [|discriminate]. now intros [= <-].
Qed.

Lemma step_zone_sigs s r s' :
  wf s -> step s r = Ok s' ->
  map zone_sig (zones s') = map zone_sig (zones s).
Proof.
  intros Hwf. destruct r as [robot_id|robot_id polars|env]; simpl.
  - intros [= <-]. now rewrite pick_up_item_zones.
  - destruct (offload_item s robot_id polars) as [[[resp s1] evs]| |] eqn:Ho;
      simpl; try discriminate. intros [= <-].
    destruct (offload_item_cases _ _ _ _ _ _ Ho)
      as [(_ & _ & -> & _)
         |[(robot & _ & _ & _ & -> & _)
          |[(robot & held & _ & _ & _ & _ & -> & _)
           |(robot & held & l & z & item & z' & x & y & rest & _ & _
             & Hacc & _ & Hup & _ & _ & -> & _)]]]; auto.
    simpl. apply (zone_sig_set _ _ z).
    + exact (get_robot_zone_get _ _ _ _ (wf_zone_keys s Hwf) (proj1 Hacc)).
    + eapply count_up_sig; eauto.
  - destruct (control_loop s env) as [[s1 evs]| |] eqn:Hc; simpl;
      try discriminate. intros [= <-].
    now rewrite (control_loop_zones _ _ _ _ Hc).
Qed.

Lemma run_zone_sigs rs : forall s s',
  wf s -> run s rs = Ok s' ->
  map zone_sig (zones s') = map zone_sig (zones s).
Proof.
  induction rs as [|r rs IH]; intros s s' Hwf; simpl.
  - now intros [= <-].
  - destruct (step s r) as [s1| |] eqn:Hs; simpl; try discriminate.
    intros Hrun. rewrite (IH _ _ (wf_step _ _ _ Hwf Hs) Hrun).
    eapply step_zone_sigs; eauto.
Qed.

Lemma init_zone_sigs cfg :
  forall l z, In (l, z) (init_zones cfg) ->
              Zone.location z = l /\ (Zone.x z, Zone.y z) = centre l.
Proof.
  destruct cfg as [[] [] [] []]; intros l z Hin; vm_compute in Hin;
    repeat (destruct Hin as [Hin|Hin];
            [injection Hin as <- <-; split; reflexivity|]);
    contradiction.
Qed.

Lemma init_zone_mem cfg l : Dict.mem (init_zones cfg) l = enabled cfg l.
Proof. destruct cfg as [[] [] [] []], l; reflexivity. Qed.

Lemma sig_In zs zs' l z :
  map zone_sig zs = map zone_sig zs' -> In (l, z) zs ->
  exists z0, In (l, z0) zs' /\ zone_sig (l, z0) = zone_sig (l, z).
Proof.
  revert zs'. induction zs as [|[l1 z1] zs IH]; intros [|[l2 z2] zs'];
    simpl; try discriminate; [tauto|].
  intros [= E1 E2 E3 E4 Hrest] [[= -> ->]|Hin].
  - exists z2. split; [left; congruence|]. unfold zone_sig. simpl. congruence.
  - destruct (IH _ Hrest Hin) as (z0 & Hin0 & Hs). exists z0. auto.
Qed.

Lemma sig_mem zs zs' l :
  map zone_sig zs = map zone_sig zs' -> Dict.mem zs l = Dict.mem zs' l.
Proof.
  unfold Dict.mem. revert zs'.
  induction zs as [|[l1 z1] zs IH]; intros [|[l2 z2] zs'];
    simpl; try discriminate; [reflexivity|].
  intros [= E1 _ _ _ Hrest]. subst l2.
  destruct (ZoneLocation_eqb l l1); auto.
Qed.

(** X6. Zones are created at start-up and never change identity: in every
    reachable state the zone map has the keys, in the order, that the start-up
    gave it, a zone exists exactly when its parameter enabled it, and each
    zone still has its key as location and its start-up centre. *)
Theorem zones_frozen (cfg : Config) (s : ItemManager) :
  reachable cfg s ->
  Dict.keys (zones s) = Dict.keys (init_zones cfg)
  /\ (forall l, Dict.mem (zones s) l = enabled cfg l)
  /\ (forall l z, In (l, z) (zones s) ->
                  Zone.location z = l /\ (Zone.x z, Zone.y z) = centre l).
Proof.
  intros [rs Hrun].
  pose proof (run_zone_sigs _ _ _ (wf_init cfg) Hrun) as Hsig. simpl in Hsig.
  split; [|split].
  - unfold Dict.keys.
    assert (E : forall zs, map fst zs
                           = map (fun q => fst (fst (fst q))) (map zone_sig zs)).
    { intros zs. rewrite map_map. apply map_ext. now intros [l z]. }
    now rewrite (E (zones s)), (E (init_zones cfg)), Hsig.
  - intros l. rewrite (sig_mem _ _ l Hsig). apply init_zone_mem.
  - intros l z Hin. destruct (sig_In _ _ _ _ Hsig Hin) as (z0 & Hin0 & Hs).
    destruct (init_zone_sigs cfg _ _ Hin0) as [Hl Hc].
    unfold zone_sig in Hs. simpl in Hs. injection Hs as E1 E2 E3.
    split; congruence.
Qed.

Lemma zones_frozen_witness :
  Dict.keys (zones (state_after carry_green))
  = [TOP_LEFT; TOP_RIGHT; BOTTOM_RIGHT; BOTTOM_LEFT]
  /\ Dict.mem (zones (state_after carry_green)) BOTTOM_LEFT = true.
Proof.
  destruct (zones_frozen all_zones _ (reachable_state_after _ run_carry_green))
    as (Hk & Hm & _).
  split; [exact Hk | exact (Hm BOTTOM_LEFT)].
Defined.

Lemma in_zone_inside robot zone :
  in_zone robot zone = true <-> inside robot zone.
Proof.
  unfold in_zone, inside. rewrite !andb_true_iff, !Qleb_le. tauto.
Qed.

(** X7. [get_robot_zone] answers with a zone of the map whose square contains
    the robot, boundary included, such that no zone before it in the map
    contains the robot; it answers with nothing exactly when no zone of the
    map contains the robot. *)
Theorem get_robot_zone_spec (zs : dict ZoneLocation Zone.t) (robot : Robot.t) :
  (forall l z,
      get_robot_zone zs robot = Some (l, z) ->
      exists before after,
        zs = (before ++ (l, z) :: after)%list
        /\ inside robot z
        /\ forall e, In e before -> ~ inside robot (snd e))
  /\ (get_robot_zone zs robot = None <->
      forall l z, In (l, z) zs -> ~ inside robot z).
Proof.
  induction zs as [|[l0 z0] zs [IHs IHn]]; simpl.
  - split; [discriminate|]. split; [intros _ l z [] | reflexivity].
  - destruct (in_zone robot z0) eqn:E.
    + split.
      * intros l z [= <- <-]. exists [], zs. split; [reflexivity|].
        split; [now apply in_zone_inside | intros e []].
      * split; [discriminate|]. intros Hall. exfalso.
        apply (Hall l0 z0); [now left | now apply in_zone_inside].
    + assert (Hout : ~ inside robot z0).
      { intros Hin. apply in_zone_inside in Hin. congruence. }
      split.
      * intros l z Hg. destruct (IHs l z Hg) as (before & after & -> & Hi & Hb).
        exists ((l0, z0) :: before), after. split; [reflexivity|].
        split; [exact Hi|]. intros e [<-|He]; auto.
      * rewrite IHn. split.
        -- intros Hall l z [Heq|Hin]; [|exact (Hall l z Hin)].
           injection Heq as <- <-. exact Hout.
        -- intros Hall l z Hin. apply (Hall l z). now right.
Qed.

Lemma reachable_zone_centre cfg s l z :
  reachable cfg s -> In (l, z) (zones s) ->
  Zone.x z = fst (centre l) /\ Zone.y z = snd (centre l).
Proof.
  intros [rs Hrun] Hin.
  pose proof (run_zone_sigs _ _ _ (wf_init cfg) Hrun) as Hsig. simpl in Hsig.
  destruct (sig_In _ _ _ _ Hsig Hin) as (z0 & Hin0 & Hs).
  destruct (init_zone_sigs cfg _ _ Hin0) as [_ Hc].
  unfold zone_sig in Hs. simpl in Hs. injection Hs as _ E2 E3.
  rewrite <- Hc, E2, E3. auto.
Qed.

Lemma squares_apart robot z z' l l' :
  Zone.x z = fst (centre l) -> Zone.y z = snd (centre l) ->
  Zone.x z' = fst (centre l') -> Zone.y z' = snd (centre l') ->
  inside robot z -> inside robot z' -> l = l'.
Proof.
  unfold inside, ZONE_SIZE. intros -> -> -> -> H1 H2.
  destruct l, l'; try reflexivity; simpl in H1, H2; exfalso; lra.
Qed.

(** X8. The zones of a reachable state are disjoint: a robot stands in at
    most one of them, so [get_robot_zone] finds the zone containing the robot
    whatever the order of the map. *)
Theorem zones_disjoint (cfg : Config) (s : ItemManager) (robot : Robot.t)
  (l : ZoneLocation) (z : Zone.t) :
  reachable cfg s ->
  In (l, z) (zones s) ->
  inside robot z ->
  get_robot_zone (zones s) robot = Some (l, z)
  /\ forall l' z', In (l', z') (zones s) -> inside robot z' ->
                   l' = l /\ z' = z.
Proof.
  intros Hreach Hin Hins.
  pose proof (wf_zone_keys s (wf_reachable _ _ Hreach)) as Hnd.
  assert (Huniq : forall l' z', In (l', z') (zones s) -> inside robot z' ->
                                l' = l /\ z' = z).
  { intros l' z' Hin' Hins'.
    destruct (reachable_zone_centre _ _ _ _ Hreach Hin) as [Hx Hy].
    destruct (reachable_zone_centre _ _ _ _ Hreach Hin') as [Hx' Hy'].
    pose proof (squares_apart _ _ _ _ _ Hx Hy Hx' Hy' Hins Hins') as <-.
    split; [reflexivity|].
    pose proof (In_get_NoDup _ _ _ Hnd Hin) as E.
    pose proof (In_get_NoDup _ _ _ Hnd Hin') as E'. congruence. }
  split; [|exact Huniq].
  destruct (get_robot_zone (zones s) robot) as [[l' z']|] eqn:Hg.
  - destruct (Huniq l' z' (get_robot_zone_In _ _ _ _ Hg)) as [-> ->];
      [|reflexivity].
    clear Huniq. revert Hg. generalize (zones s). intros zs.
    induction zs as [|[l0 z0] zs IH]; simpl; [discriminate|].
    destruct (in_zone robot z0) eqn:E; [|exact IH].
    intros [= _ <-]. now apply in_zone_inside.
  - exfalso. revert Hin Hg. generalize (zones s). intros zs.
    induction zs as [|[l0 z0] zs IH]; simpl; [tauto|].
    intros [[= -> ->]|Hin'].
    + apply in_zone_inside in Hins. now rewrite Hins.
    + destruct (in_zone robot z0); [discriminate | now apply IH].
Qed.

Lemma zones_disjoint_witness :
  get_robot_zone (zones (state_after carry_green))
    (Robot.mk (3 # 1) (2 # 1) None None)
  = Some (TOP_LEFT,
          Zone.mk TOP_LEFT (257 # 100) (25 # 10)
                  [(RED, 1); (GREEN, 0); (BLUE, 0)]).
Proof.
  apply (zones_disjoint all_zones _ _ _ _
           (reachable_state_after _ run_carry_green)).
  - vm_compute. tauto.
  - apply in_zone_inside. vm_compute. reflexivity.
Defined.

(** ** How the handlers compose *)

Lemma set_set {K V} `{KeyLaws K} (d : list (K * V)) k v v' :
  Dict.set (Dict.set d k v) k v' = Dict.set d k v'.
Proof.
  induction d as [|[k0 v0] d IH]; simpl.
  - now rewrite keyb_refl.
  - destruct (keyb k k0) eqn:E; simpl; rewrite E; [reflexivity|].
    now rewrite IH.
Qed.

Lemma set_get_same {K V} `{KeyLaws K} (d : list (K * V)) k v :
  Dict.get d k = Some v -> Dict.set d k v = d.
Proof.
  induction d as [|[k0 v0] d IH]; simpl; [discriminate|].
  destruct (keyb k k0) eqn:E.
  - now intros [= ->].
  - intros Hg. now rewrite IH.
Qed.

(** X9. Picking an item up and offloading it at once, at a place where no
    zone takes it, undoes the pick-up: the offload succeeds and the state is
    the one before the pick-up (the stored item was never moved). *)
Theorem pick_up_then_arena_offload (s : ItemManager) (robot_id : string)
  (r1 : Response) (s1 : ItemManager) (robot1 : Robot.t)
  (polars : list (Q * Q)) :
  pick_up_item s robot_id = (r1, s1) ->
  success r1 = true ->
  Dict.get (robots s1) robot_id = Some robot1 ->
  refused s1 robot1 ->
  exists r2 evs,
    offload_item s1 robot_id polars = Ok (r2, s, evs) /\ success r2 = true.
Proof.
  intros Hp Hok Hr1 Href. unfold pick_up_item in Hp.
  destruct (Dict.get (robots s) robot_id) as [robot|] eqn:Hr;
    [destruct (Robot.item_held robot) eqn:Hh;
     [|destruct (first_item_in_range (items s) robot) as [item_id|]]|];
    injection Hp as <- <-; simpl in Hok; try discriminate.
  simpl in Hr1. rewrite get_set_same in Hr1. injection Hr1 as <-.
  assert (Hr1 : Dict.get
                  (robots (with_robots s
                             (Dict.set (robots s) robot_id
                                (Robot.with_item_held robot (Some item_id)))))
                  robot_id
                = Some (Robot.with_item_held robot (Some item_id)))
    by (simpl; apply get_set_same).
  eexists _, _.
  rewrite (offload_item_arena _ _ polars _ item_id Hr1 eq_refl Href).
  assert (Hs : arena_state
                 (with_robots s
                    (Dict.set (robots s) robot_id
                       (Robot.with_item_held robot (Some item_id))))
                 robot_id (Robot.with_item_held robot (Some item_id)) = s).
  { unfold arena_state. simpl. rewrite set_set.
    destruct robot as [x y h p]. simpl in Hh. subst h.
    unfold Robot.with_item_held. simpl.
    rewrite (set_get_same _ _ _ Hr). now destruct s. }
  rewrite Hs. split; reflexivity.
Qed.

(** Scenario A undone: [robot1] picks [item0] up on the seeded arena, far
    from every zone, and drops it at once. *)
Lemma pick_up_then_arena_offload_witness :
  exists r2 evs,
    offload_item (snd (pick_up_item (state_after seeded) "robot1")) "robot1" []
    = Ok (r2, state_after seeded, evs)
    /\ success r2 = true.
Proof.
  apply (pick_up_then_arena_offload (state_after seeded) "robot1"
           (fst (pick_up_item (state_after seeded) "robot1")) _
           (Robot.mk (-220 # 100) (-200 # 100) (Some "item0") None)).
  - now destruct (pick_up_item (state_after seeded) "robot1").
  - vm_compute. reflexivity.
  - vm_compute. reflexivity.
  - vm_compute. reflexivity.
Defined.

(** X10. Asking twice: after a successful pick-up, the next pick-up by the
    same robot is refused with the "already holding" message, and after a
    successful offload the next offload by the same robot is refused with
    the "does not hold any items" message; the refused call changes nothing
    and reaches no backend. *)
Theorem repeated_requests (s : ItemManager) (robot_id : string) :
  (forall r1 s1,
      pick_up_item s robot_id = (r1, s1) ->
      success r1 = true ->
      pick_up_item s1 robot_id
      = (mkResponse false
           ("Robot '" ++ robot_id ++ "' is already holding an item"), s1))
  /\ (forall polars r1 s1 evs polars',
        offload_item s robot_id polars = Ok (r1, s1, evs) ->
        success r1 = true ->
        offload_item s1 robot_id polars'
        = Ok (mkResponse false
                ("Robot '" ++ robot_id
                 ++ "' does not hold any items, so unable to offload."),
              s1, [])).
Proof.
  split.
  - intros r1 s1 Hp Hok. unfold pick_up_item in Hp.
    destruct (Dict.get (robots s) robot_id) as [robot|] eqn:Hr;
      [destruct (Robot.item_held robot) eqn:Hh;
       [|destruct (first_item_in_range (items s) robot) as [item_id|]]|];
      injection Hp as <- <-; simpl in Hok; try discriminate.
    unfold pick_up_item. simpl. now rewrite get_set_same.
  - intros polars r1 s1 evs polars' Hoff Hok.
    destruct (offload_item_cases _ _ _ _ _ _ Hoff)
      as [(_ & -> & _)
         |[(robot & _ & _ & -> & _)
          |[(robot & held & Hr & _ & _ & _ & -> & _)
           |(robot & held & l & z & item & z' & x & y & rest & Hr & _
             & _ & _ & _ & _ & _ & -> & _)]]]; try discriminate Hok;
      unfold offload_item; simpl; now rewrite get_set_same.
Qed.

Lemma offload_deposit_red :
  offload_item (state_after carry_red) "robot1" deposit_draws
  = Ok (mkResponse true
          "Item 'None' held by robot 'robot1' has been offloaded at zone 'ZoneLocation.TOP_LEFT'.",
        state_after deposit_red,
        [SetEntityState "item0" "world" (float (-2 + float (-2 # 10))) (float (-2 + float (-2 # 10))) 0]).
Proof. vm_compute. reflexivity. Qed.

Lemma repeated_requests_witness :
  offload_item (state_after deposit_red) "robot1" []
  = Ok (mkResponse false
          "Robot 'robot1' does not hold any items, so unable to offload.",
        state_after deposit_red, []).
Proof.
  destruct (repeated_requests (state_after carry_red) "robot1") as [_ Hsecond].
  exact (Hsecond deposit_draws _ _ _ [] offload_deposit_red eq_refl).
Defined.

(** X11. Where a deposited item reappears: after a zone deposit the item has
    its colour and its cluster as before, and [math.dist] from its new
    position to every item that the map recorded for that cluster before the
    call, the position it was carried at included, is not below the float
    0.3; the Euclidean distance of the floats is at least 0.3 - 1e-15. *)
Theorem deposit_keeps_items_apart (s : ItemManager) (robot_id : string)
  (polars : list (Q * Q)) (robot : Robot.t) (held : string)
  (l : ZoneLocation) (z : Zone.t)
  (r : Response) (s' : ItemManager) (evs : list event) :
  Dict.get (robots s) robot_id = Some robot ->
  Robot.item_held robot = Some held ->
  accepted s robot l z ->
  offload_item s robot_id polars = Ok (r, s', evs) ->
  exists item item',
    Dict.get (items s) held = Some item
    /\ Dict.get (items s') held = Some item'
    /\ Item.colour item' = Item.colour item
    /\ Item.cluster_id item' = Item.cluster_id item
    /\ forall other_id other,
        In (other_id, other) (items s) ->
        Item.cluster_id other = Item.cluster_id item ->
        (float (3 # 10)
         <= math_dist (Item.x other, Item.y other)
                      (Item.x item', Item.y item'))%Q
        /\ (Q2R (3 # 10) - Q2R tolerance
            <= euclid (as_float (Item.x other, Item.y other))
                      (as_float (Item.x item', Item.y item')))%R.
Proof.
  intros Hr Hh Hacc Hoff.
  destruct (offload_item_cases _ _ _ _ _ _ Hoff)
    as [(Hr' & _)
       |[(robot' & Hr' & Hh' & _)
        |[(robot' & held' & Hr' & Hh' & Href & _)
         |(robot' & held' & l' & z0 & item & z' & x & y & rest & Hr' & Hh'
           & _ & Hi & _ & Hg & _ & -> & _)]]]; try congruence.
  - exfalso. assert (robot' = robot) as -> by congruence.
    exact (refused_not_accepted _ _ _ _ Href Hacc).
  - assert (robot' = robot) as -> by congruence.
    assert (held' = held) as -> by congruence.
    exists item, (Item.with_xy item x y). split; [exact Hi|].
    split; [unfold deposit_state; simpl; apply get_set_same|].
    split; [reflexivity|]. split; [reflexivity|].
    intros other_id other Hin Hcl. simpl.
    pose proof (generate_item_position_sound _ _ _ _ _ _ _ Hg other
                  (In_values _ _ _ Hin)) as Hc.
    unfold item_clash in Hc. rewrite Hcl, String.eqb_refl in Hc. simpl in Hc.
    now apply not_clash_apart.
Qed.

(** The deposit of the worked run. *)
Lemma deposit_keeps_items_apart_witness :
  exists item item',
    Dict.get (items (state_after carry_red)) "item0" = Some item
    /\ Dict.get (items (state_after deposit_red)) "item0" = Some item'
    /\ Item.colour item' = Item.colour item
    /\ Item.cluster_id item' = Item.cluster_id item
    /\ forall other_id other,
        In (other_id, other) (items (state_after carry_red)) ->
        Item.cluster_id other = Item.cluster_id item ->
        (float (3 # 10)
         <= math_dist (Item.x other, Item.y other)
                      (Item.x item', Item.y item'))%Q
        /\ (Q2R (3 # 10) - Q2R tolerance
            <= euclid (as_float (Item.x other, Item.y other))
                      (as_float (Item.x item', Item.y item')))%R.
Proof.
  destruct accepted_carry_red as [Hr Hacc].
  exact (deposit_keeps_items_apart _ _ _ _ _ _ _ _ _ _ Hr eq_refl Hacc
           offload_deposit_red).
Defined.

(** ** Seeding *)

Lemma str_of_nat_inj a b : str_of_nat a = str_of_nat b -> a = b.
Proof.
  unfold str_of_nat. intros E.
  apply (f_equal NilEmpty.uint_of_string) in E.
  rewrite !NilEmpty.usu in E. injection E as E.
  now apply Unsigned.to_uint_inj.
Qed.

Lemma cluster_name_inj a b : cluster_name a = cluster_name b -> a = b.
Proof. unfold cluster_name. simpl. intros [= E]. now apply str_of_nat_inj. Qed.

Lemma item_name_inj a b : item_name a = item_name b -> a = b.
Proof. unfold item_name. simpl. intros [= E]. now apply str_of_nat_inj. Qed.

Lemma name_fresh (name : nat -> string) n :
  (forall a b, name a = name b -> a = b) ->
  ~ In (name n) (map name (seq 0 n)).
Proof.
  intros Hinj Hin. apply in_map_iff in Hin as (i & E & Hi).
  apply Hinj in E. subst i. apply in_seq in Hi. lia.
Qed.

Lemma notin_keys_mem {K V} `{KeyLaws K} (d : list (K * V)) k :
  ~ In k (Dict.keys d) -> Dict.mem d k = false.
Proof.
  intros Hn. unfold Dict.mem. destruct (Dict.get d k) as [v|] eqn:E;
    [|reflexivity].
  exfalso. apply Hn. apply get_In in E. unfold Dict.keys.
  change k with (fst (k, v)). now apply in_map.
Qed.

Lemma set_fresh (name : nat -> string) {V} (d : list (string * V)) n v :
  (forall a b, name a = name b -> a = b) ->
  Dict.keys d = map name (seq 0 n) ->
  Dict.set d (name n) v = (d ++ [(name n, v)])%list
  /\ Dict.keys (d ++ [(name n, v)])%list = map name (seq 0 (S n)).
Proof.
  intros Hinj Hk. split.
  - apply set_absent. apply notin_keys_mem. rewrite Hk.
    now apply name_fresh.
  - unfold Dict.keys in *. rewrite map_app, Hk, seq_S, map_app. reflexivity.
Qed.

Lemma ForallOrdPairs_snoc {A} (R : A -> A -> Prop) l x :
  ForallOrdPairs R l -> Forall (fun a => R a x) l ->
  ForallOrdPairs R (l ++ [x]).
Proof.
  induction 1 as [|a l Ha Hl IH]; simpl; intros Hx.
  - repeat constructor.
  - inversion Hx as [|? ? Hax Hlx]; subst. constructor.
    + apply Forall_app. split; [exact Ha | now constructor].
    + now apply IH.
Qed.

Lemma randint_range a b raw : a <= b -> a <= randint a b raw <= b.
Proof.
  intros Hab. unfold randint.
  pose proof (Z.mod_pos_bound raw (b - a + 1) ltac:(lia)). lia.
Qed.

Arguments randint : simpl never.

Lemma generate_cluster_location_band cs colour ints x y rest :
  generate_cluster_location cs colour ints = Ok (x, y, rest) ->
  in_band (Cluster.mk x y colour).
Proof.
  intros Hg. pose proof (generate_cluster_location_sound _ _ _ _ _ _ Hg)
    as [Ho _].
  revert x y rest Hg Ho.
  induction ints as [| a | raw_y raw_x l IH] using two_step_ind;
    intros x y rest; simpl; try discriminate.
  destruct (obstacle _ _) eqn:Hob; [apply IH|].
  destruct (existsb _ _); [apply IH|].
  intros [= <- <- <-] _. unfold in_band. simpl.
  split; [apply randint_range; lia|]. split.
  - destruct colour; apply randint_range; lia.
  - now apply obstacle_cells.
Qed.

Lemma colour_count_snoc cs k c colour :
  colour_count (cs ++ [(k, c)])%list colour
  = (colour_count cs colour
     + if Colour_eqb colour (Cluster.colour c) then 1 else 0)%nat.
Proof.
  unfold colour_count, Dict.values. rewrite map_app, filter_app, length_app.
  simpl. destruct (Colour_eqb colour (Cluster.colour c)); reflexivity.
Qed.

Lemma items_of_snoc its k item cluster_id :
  items_of cluster_id (its ++ [(k, item)])%list
  = (items_of cluster_id its
     + if String.eqb (Item.cluster_id item) cluster_id then 1 else 0)%nat.
Proof.
  unfold items_of. rewrite filter_app, length_app. simpl.
  destruct (String.eqb (Item.cluster_id item) cluster_id); reflexivity.
Qed.

Lemma get_keys {K V} `{KeyLaws K} (d : list (K * V)) k v :
  Dict.get d k = Some v -> In k (Dict.keys d).
Proof.
  intros Hg. apply get_In in Hg. unfold Dict.keys.
  change k with (fst (k, v)). now apply in_map.
Qed.

Lemma filter_none {A} (f : A -> bool) l :
  (forall a, In a l -> f a = false) -> filter f l = [].
Proof.
  induction l as [|a l IH]; simpl; intros Hall; [reflexivity|].
  rewrite (Hall a (or_introl eq_refl)). apply IH. intros b Hb. apply Hall.
  now right.
Qed.

Lemma items_of_unknown s k j cluster_id :
  seeding k j s -> ~ In cluster_id (Dict.keys (clusters s)) ->
  items_of cluster_id (items s) = 0%nat.
Proof.
  intros Hsd Hn. unfold items_of. rewrite filter_none; [reflexivity|].
  intros [id it] Hin. simpl.
  destruct (String.eqb (Item.cluster_id it) cluster_id) eqn:E;
    [|reflexivity].
  apply String.eqb_eq in E. subst cluster_id. exfalso. apply Hn.
  destruct (sd_colour _ _ _ Hsd _ _ Hin) as (c & Hg & _).
  eapply get_keys; eauto.
Qed.

Lemma clash_far x y colour c :
  cluster_clash x y c = false -> far_apart c (Cluster.mk x y colour).
Proof.
  unfold cluster_clash, far_apart. intros Hc.
  apply orb_false_iff in Hc as [_ Hnear]. simpl.
  apply Rnot_le_lt. intros Hle. rewrite <- RMicromega.Q2R_1 in Hle.
  apply dist_le_euclid in Hle; [congruence | discriminate].
Qed.

Lemma clash_item_far cluster_id x y colour item :
  item_clash cluster_id x y item = false ->
  item_far item (Item.mk x y colour cluster_id).
Proof.
  unfold item_clash, item_far. simpl. intros Hc Hcl.
  rewrite Hcl, String.eqb_refl in Hc. simpl in Hc.
  apply Qnot_lt_le. intros Hlt.
  apply dist_lt_computed in Hlt. congruence.
Qed.

Lemma seeding_add_cluster k j s colour x y ints rest :
  seeding k j s ->
  (k = 0 \/ 3 <= j <= 5)%nat ->
  (colour_count (clusters s) colour < 2)%nat ->
  generate_cluster_location (clusters s) colour ints = Ok (x, y, rest) ->
  seeding (S k) 0
    (with_clusters (with_cluster_counter s (S (cluster_counter s)))
       (Dict.set (clusters s) (cluster_name (cluster_counter s))
                 (Cluster.mk x y colour))).
Proof.
  intros Hsd Hj Hcount Hg. pose proof Hsd as [Hc Hz Hk Hcap Hik Hcol Hfull
                                               Hlast Htot Hap Hband Hiap].
  rewrite Hc.
  destruct (set_fresh cluster_name (clusters s) k (Cluster.mk x y colour)
              cluster_name_inj Hk) as [Hset Hkeys].
  assert (Hfresh : ~ In (cluster_name k) (Dict.keys (clusters s))).
  { rewrite Hk. apply name_fresh, cluster_name_inj. }
  destruct (generate_cluster_location_sound _ _ _ _ _ _ Hg) as [_ Hclash].
  constructor; simpl; rewrite ?Hset.
  - reflexivity.
  - discriminate.
  - exact Hkeys.
  - intros c. rewrite colour_count_snoc. simpl. specialize (Hcap c).
    destruct (Colour_eqb c colour) eqn:E; [|lia].
    apply Colour_eqb_true in E. subst c. lia.
  - exact Hik.
  - intros id it Hin. destruct (Hcol _ _ Hin) as (c & Hgc & Hcc).
    exists c. split; [now apply get_app_some | exact Hcc].
  - intros i Hi. destruct (Nat.eq_dec (S i) k) as [E|E].
    + rewrite (Hlast i E). destruct Hj as [Hj|Hj]; lia.
    + apply Hfull. lia.
  - intros i [= ->]. eapply items_of_unknown; eauto.
  - destruct Htot as (m & Hm & Hb). exists (m + j)%nat. split; [lia|].
    simpl. destruct Hj as [Hj|Hj].
    + subst k. rewrite (Hz eq_refl) in *. simpl in Hb. lia.
    + destruct k; simpl in *; lia.
  - unfold Dict.values. rewrite map_app. simpl.
    apply ForallOrdPairs_snoc; [exact Hap|].
    apply Forall_forall. intros c Hin. apply clash_far. now apply Hclash.
  - unfold Dict.values. rewrite map_app. simpl.
    apply Forall_app. split; [exact Hband|]. constructor; [|constructor].
    eapply generate_cluster_location_band; eauto.
  - exact Hiap.
Qed.

Lemma seeding_add_item k j s colour c x y polars rest :
  seeding (S k) j s ->
  Dict.get (clusters s) (cluster_name k) = Some c ->
  Cluster.colour c = colour ->
  generate_item_position (clusters s) (items s) (cluster_name k) polars
  = Ok (x, y, rest) ->
  seeding (S k) (S j)
    (with_item_counter
       (with_items s
          (Dict.set (items s) (item_name (item_counter s))
                    (Item.mk x y colour (cluster_name k))))
       (S (item_counter s))).
Proof.
  intros Hsd Hgc Hcc Hg. pose proof Hsd as [Hc Hz Hk Hcap Hik Hcol Hfull
                                             Hlast Htot Hap Hband Hiap].
  destruct (set_fresh item_name (items s) (item_counter s)
              (Item.mk x y colour (cluster_name k)) item_name_inj Hik)
    as [Hset Hkeys].
  pose proof (generate_item_position_sound _ _ _ _ _ _ _ Hg) as Hclash.
  constructor; simpl; rewrite ?Hset.
  - exact Hc.
  - discriminate.
  - exact Hk.
  - exact Hcap.
  - exact Hkeys.
  - intros id it Hin. apply in_app_or in Hin as [Hin|[[= <- <-]|[]]].
    + exact (Hcol _ _ Hin).
    + exists c. simpl. auto.
  - intros i Hi. rewrite items_of_snoc. cbn [Item.cluster_id].
    destruct (String.eqb (cluster_name k) (cluster_name i)) eqn:E.
    + apply String.eqb_eq, cluster_name_inj in E. lia.
    + specialize (Hfull i Hi). lia.
  - intros i [= ->]. rewrite items_of_snoc. cbn [Item.cluster_id].
    rewrite String.eqb_refl, (Hlast k eq_refl). lia.
  - destruct Htot as (m & Hm & Hb). exists m. split; [lia | exact Hb].
  - exact Hap.
  - exact Hband.
  - unfold Dict.values. rewrite map_app. simpl.
    apply ForallOrdPairs_snoc; [exact Hiap|].
    apply Forall_forall. intros it Hin. apply clash_item_far.
    now apply Hclash.
Qed.

Lemma seed_items_seeding n : forall k j s colour c polars s' evs polars',
  seeding (S k) j s ->
  Dict.get (clusters s) (cluster_name k) = Some c ->
  Cluster.colour c = colour ->
  seed_items n s (cluster_name k) colour polars = Ok (s', evs, polars') ->
  seeding (S k) (j + n) s'.
Proof.
  induction n as [|n IH]; intros k j s colour c polars s' evs polars' Hsd Hgc
                                 Hcc; simpl.
  - intros [= <- <- <-]. now rewrite Nat.add_0_r.
  - destruct (generate_item_position _ _ _ _) as [[[x y] polars1]| |] eqn:Hg;
      simpl; try discriminate.
    destruct (seed_items n _ _ _ _) as [[[s3 evs3] polars3]| |] eqn:Hs;
      simpl; try discriminate.
    intros [= <- <- <-]. rewrite Nat.add_succ_r, <- Nat.add_succ_l.
    eapply (IH k (S j)); [| | exact Hcc | exact Hs].
    + eapply seeding_add_item; eauto.
    + simpl. exact Hgc.
Qed.

Lemma seed_clusters_seeding n : forall k j s ints polars s' evs,
  seeding k j s ->
  (k = 0 \/ 3 <= j <= 5)%nat ->
  seed_clusters n s ints polars = Ok (s', evs) ->
  exists j', seeding (k + n) j' s'
             /\ ((k + n = 0)%nat \/ (3 <= j' <= 5)%nat).
Proof.
  induction n as [|n IH]; intros k j s ints polars s' evs Hsd Hj; simpl.
  - intros [= <- <-]. exists j. rewrite Nat.add_0_r. auto.
  - destruct (choose_colour _ _) as [[colour ints1]| |] eqn:Hch; simpl;
      try discriminate.
    destruct (generate_cluster_location _ _ _) as [[[x y] ints2]| |] eqn:Hg;
      simpl; try discriminate.
    destruct ints2 as [|raw ints3]; [discriminate|].
    destruct (seed_items _ _ _ _ _) as [[[s3 evs3] polars1]| |] eqn:Hs; simpl;
      try discriminate.
    destruct (seed_clusters n _ _ _) as [[s4 evs4]| |] eqn:Hc; simpl;
      try discriminate.
    intros [= <- <-].
    assert (Hcount : (colour_count (clusters s) colour < 2)%nat).
    { clear - Hch. revert Hch. induction ints as [|raw0 ints IH]; simpl;
        [discriminate|].
      destruct (colour_count (clusters s) (choice_Colour raw0) <? 2)%nat eqn:E;
        [|exact IH].
      intros [= <- _]. now apply Nat.ltb_lt. }
    pose proof (seeding_add_cluster _ _ _ _ _ _ _ _ Hsd Hj Hcount Hg) as Hsd2.
    pose proof (sd_counter _ _ _ Hsd) as Hk. subst k.
    assert (Hget : Dict.get
                     (Dict.set (clusters s) (cluster_name (cluster_counter s))
                               (Cluster.mk x y colour))
                     (cluster_name (cluster_counter s))
                   = Some (Cluster.mk x y colour))
      by apply get_set_same.
    pose proof (randint_range 3 5 raw ltac:(lia)) as Hr.
    pose proof (seed_items_seeding _ (cluster_counter s) 0 _ colour _ _ _ _ _
                  Hsd2 Hget eq_refl Hs) as Hsd3.
    destruct (IH (S (cluster_counter s)) _ _ _ _ _ _ Hsd3
                ltac:(right; simpl; lia) Hc)
      as (j' & Hsd4 & Hj').
    exists j'. rewrite Nat.add_succ_r. auto.
Qed.

Lemma seeding_blank cfg : seeding 0 0 (with_first_run (init cfg) false).
Proof.
  constructor; simpl.
  - reflexivity.
  - reflexivity.
  - reflexivity.
  - intros colour. unfold colour_count. simpl. lia.
  - reflexivity.
  - intros id it [].
  - intros i Hi. lia.
  - intros i Hi. discriminate.
  - exists 0%nat. simpl. lia.
  - constructor.
  - constructor.
  - constructor.
Qed.

Lemma ForallOrdPairs_map {A B} (f : A -> B) (R : B -> B -> Prop) l :
  ForallOrdPairs R (map f l) -> ForallOrdPairs (fun a b => R (f a) (f b)) l.
Proof.
  induction l as [|a l IH]; simpl; intros Hp; [constructor|].
  inversion Hp as [|? ? Ha Hl]; subst. constructor; [|auto].
  apply Forall_forall. intros b Hb. rewrite Forall_forall in Ha.
  apply Ha. now apply in_map.
Qed.

Lemma colour_count_sum cs :
  (colour_count cs RED + colour_count cs GREEN + colour_count cs BLUE)%nat
  = length cs.
Proof.
  unfold colour_count, Dict.values.
  induction cs as [|[k c] cs IH]; simpl; [reflexivity|].
  rewrite <- IH. destruct (Cluster.colour c); simpl; lia.
Qed.

Lemma keys_length {K V} (d : list (K * V)) : length (Dict.keys d) = length d.
Proof. unfold Dict.keys. apply length_map. Qed.

Lemma seeding_layout j s :
  seeding 6 j s -> (3 <= j <= 5)%nat -> arena_layout (clusters s) (items s).
Proof.
  intros [Hc Hz Hk Hcap Hik Hcol Hfull Hlast Htot Hap Hband Hiap] Hj.
  assert (Hlen : length (items s) = item_counter s).
  { rewrite <- keys_length, Hik, length_map, length_seq. reflexivity. }
  constructor.
  - exact Hk.
  - assert (H6 : length (clusters s) = 6%nat).
    { rewrite <- keys_length, Hk, length_map, length_seq. reflexivity. }
    pose proof (colour_count_sum (clusters s)) as Hsum.
    pose proof (Hcap RED). pose proof (Hcap GREEN). pose proof (Hcap BLUE).
    intros []; lia.
  - apply (ForallOrdPairs_map snd). exact Hap.
  - exact Hband.
  - now rewrite Hlen.
  - rewrite Hlen. destruct Htot as (m & -> & Hm). simpl in Hm. lia.
  - intros i Hi. destruct (Nat.eq_dec (S i) 6) as [E|E].
    + rewrite (Hlast i E). exact Hj.
    + apply Hfull. lia.
  - exact Hcol.
Qed.

Lemma items_of_meta cluster_id its :
  items_of cluster_id its
  = length (filter (fun m => String.eqb (snd m) cluster_id)
                   (map item_meta its)).
Proof.
  unfold items_of. induction its as [|[k v] its IH]; simpl; [reflexivity|].
  destruct (String.eqb (Item.cluster_id v) cluster_id); simpl; now rewrite IH.
Qed.

Lemma keys_meta its : Dict.keys its = map (fun m => fst (fst m)) (map item_meta its).
Proof. unfold Dict.keys. rewrite map_map. apply map_ext. now intros [k v]. Qed.

Lemma layout_meta cs its its' :
  map item_meta its' = map item_meta its ->
  arena_layout cs its -> arena_layout cs its'.
Proof.
  intros Hm [Hk Htwo Hap Hband Hik Htot Hcount Hcol].
  assert (Hlen : length its' = length its).
  { rewrite <- (length_map item_meta its'), Hm. apply length_map. }
  constructor; auto.
  - now rewrite keys_meta, Hm, <- keys_meta, Hlen.
  - now rewrite Hlen.
  - intros i Hi. rewrite items_of_meta, Hm, <- items_of_meta. auto.
  - intros id it Hin.
    assert (Hin' : In (item_meta (id, it)) (map item_meta its))
      by (rewrite <- Hm; now apply in_map).
    apply in_map_iff in Hin' as ([id0 it0] & E & Hin0).
    unfold item_meta in E. simpl in E. injection E as _ Ec Ecl.
    destruct (Hcol _ _ Hin0) as (c & Hg & Hcc). exists c.
    split; congruence.
Qed.

Lemma dragged_meta held a b :
  Forall2 (dragged held) a b -> map item_meta b = map item_meta a.
Proof.
  induction 1 as [|[k1 v1] [k2 v2] a b (E1 & E2 & E3 & _) Hab IH]; simpl;
    [reflexivity|].
  simpl in *. unfold item_meta at 1 3. simpl. now rewrite IH, E1, E2, E3.
Qed.

Lemma dragged_none held a b :
  Forall2 (dragged held) a b -> (forall i, ~ held i) -> b = a.
Proof.
  induction 1 as [|[k1 v1] [k2 v2] a b (E1 & _ & _ & E4) Hab IH]; intros Hn;
    [reflexivity|].
  simpl in *. rewrite (IH Hn). destruct E4 as [->|E4].
  - now subst.
  - now apply Hn in E4.
Qed.

(** Once the arena is seeded, no callback creates, deletes, recolours or
    reassigns an item, and the clusters stay as they are. *)
Lemma frozen_step s r s' :
  first_run s = false -> step s r = Ok s' ->
  first_run s' = false /\ clusters s' = clusters s
  /\ map item_meta (items s') = map item_meta (items s).
Proof.
  intros Hfr. destruct r as [robot_id|robot_id polars|env]; simpl.
  - intros [= <-]. unfold pick_up_item.
    destruct (Dict.get (robots s) robot_id) as [robot|];
      [destruct (Robot.item_held robot);
       [|destruct (first_item_in_range (items s) robot)]|]; auto.
  - destruct (offload_item s robot_id polars) as [[[resp s1] evs]| |] eqn:Ho;
      simpl; try discriminate. intros [= <-].
    destruct (offload_item_cases _ _ _ _ _ _ Ho)
      as [(_ & _ & -> & _)
         |[(robot & _ & _ & _ & -> & _)
          |[(robot & held & _ & _ & _ & _ & -> & _)
           |(robot & held & l & z & item & z' & x & y & rest & _ & _
             & _ & Hi & _ & _ & _ & -> & _)]]]; auto.
    simpl. split; [exact Hfr|]. split; [reflexivity|].
    eapply dragged_meta. apply dragged_set. exact Hi.
  - destruct (control_loop s env) as [[s1 evs]| |] eqn:Hc; simpl;
      try discriminate. intros [= <-].
    destruct (control_loop_seeded _ _ _ _ Hfr Hc)
      as (fresh & its' & _ & _ & Hdr & ->). simpl.
    split; [reflexivity|]. split; [reflexivity|].
    eapply dragged_meta; eauto.
Qed.

Lemma frozen_run rs : forall s s',
  first_run s = false -> run s rs = Ok s' ->
  first_run s' = false /\ clusters s' = clusters s
  /\ map item_meta (items s') = map item_meta (items s).
Proof.
  induction rs as [|r rs IH]; intros s s' Hfr; simpl.
  - intros [= <-]. auto.
  - destruct (step s r) as [s1| |] eqn:Hs; simpl; try discriminate.
    intros Hrun. destruct (frozen_step _ _ _ Hfr Hs) as (Hfr1 & Hc1 & Hm1).
    destruct (IH _ _ Hfr1 Hrun) as (Hfr2 & Hc2 & Hm2).
    split; [exact Hfr2|]. split; congruence.
Qed.

Lemma first_tick s env s' evs :
  first_run s = true -> robots s = [] ->
  seeding 0 0 (with_first_run s false) ->
  control_loop s env = Ok (s', evs) ->
  exists j s1,
    seeding 6 j s1 /\ (3 <= j <= 5)%nat
    /\ clusters s' = clusters s1 /\ items s' = items s1
    /\ first_run s' = false.
Proof.
  intros Hfr Hrs Hblank. unfold control_loop. rewrite Hfr.
  destruct (seed_clusters 6 _ _ _) as [[s1 seeding]| |] eqn:Hseed;
    try discriminate.
  cbn [bind spawn_item].
  destruct (seed_clusters_seeding _ _ _ _ _ _ _ _ Hblank
              ltac:(left; reflexivity) Hseed) as (j & Hsd & [Hj|Hj]);
    [discriminate|].
  destruct (seed_clusters_frame _ _ _ _ _ _ Hseed) as [Hfr1 Hrs1].
  simpl in Hfr1, Hrs1. rewrite Hrs in Hrs1.
  destruct (sync_robots _ _ _) as [[[rs its'] syncing]| |] eqn:Hs;
    try discriminate. cbn [bind].
  destruct (item_holders _ _) as [hs| |]; try discriminate. cbn [bind].
  destruct (item_log _) as [log| |]; try discriminate. cbn [bind].
  intros [= <- <-]. exists j, s1. simpl in Hs |- *. rewrite Hrs1 in Hs.
  destruct (sync_robots_spec _ _ _ _ _ _ Hs) as [_ Hdr].
  apply dragged_none in Hdr.
  - subst its'. auto.
  - intros i (rid & r & Hin & Hh).
    destruct (discover_fresh (model_names env) []) as (fresh & E & Hf).
    rewrite E in Hin. simpl in Hin. rewrite Forall_forall in Hf.
    specialize (Hf _ Hin). simpl in Hf. subst r. discriminate Hh.
Qed.

Lemma blank_step cfg r s' :
  step (init cfg) r = Ok s' ->
  s' = init cfg
  \/ exists env evs, control_loop (init cfg) env = Ok (s', evs).
Proof.
  destruct r as [robot_id|robot_id polars|env]; unfold step.
  - intros [= <-]. now left.
  - unfold offload_item. cbn [init robots Dict.get bind].
    intros [= <-]. now left.
  - destruct (control_loop (init cfg) env) as [[s1 evs]| |] eqn:Hc;
      cbn [bind]; try discriminate. intros [= <-]. right. eauto.
Qed.

Lemma reachable_cases cfg s :
  reachable cfg s ->
  s = init cfg
  \/ exists env s1 evs rs,
      control_loop (init cfg) env = Ok (s1, evs) /\ run s1 rs = Ok s.
Proof.
  intros [rs Hrun]. revert Hrun. induction rs as [|r rs IH]; simpl.
  - intros [= <-]. now left.
  - destruct (step (init cfg) r) as [s1| |] eqn:Hs; simpl; try discriminate.
    destruct (blank_step _ _ _ Hs) as [->|(env & evs & Hc)]; [exact IH|].
    intros Hrun. right. exists env, s1, evs, rs. auto.
Qed.

Lemma reachable_layout cfg s :
  reachable cfg s -> first_run s = false ->
  arena_layout (clusters s) (items s).
Proof.
  intros Hreach Hfr.
  destruct (reachable_cases _ _ Hreach) as [->|(env & s1 & evs & rs & Hc & Hrun)];
    [discriminate Hfr|].
  destruct (first_tick (init cfg) env s1 evs eq_refl eq_refl
              (seeding_blank cfg) Hc)
    as (j & s0 & Hsd & Hj & Hcs & Hits & Hfr1).
  destruct (frozen_run _ _ _ Hfr1 Hrun) as (_ & -> & Hm).
  rewrite Hcs. apply (layout_meta _ (items s0)); [now rewrite Hm, Hits|].
  now apply seeding_layout with (j := j).
Qed.

Lemma run_seeded : run (init all_zones) seeded = Ok (state_after seeded).
Proof. vm_compute. reflexivity. Qed.

Lemma unseeded_initial_clusters cfg s :
  reachable cfg s -> first_run s = true -> clusters s = [].
Proof.
  intros Hreach Hfr.
  destruct (reachable_cases _ _ Hreach) as [->|(env & s1 & evs & rs & Hc & Hrun)];
    [reflexivity|].
  destruct (control_loop_robots _ _ _ _ Hc) as [Hfr1 _].
  destruct (frozen_run _ _ _ Hfr1 Hrun) as (Hfr2 & _). congruence.
Qed.

(** X12. Nothing happens before the first tick: a reachable state that has
    not been seeded is the start-up state itself, because without robots
    every request is turned away. *)
Theorem unseeded_is_initial (cfg : Config) (s : ItemManager) :
  reachable cfg s -> first_run s = true -> s = init cfg.
Proof.
  intros Hreach Hfr.
  destruct (reachable_cases _ _ Hreach) as [->|(env & s1 & evs & rs & Hc & Hrun)];
    [reflexivity|].
  destruct (control_loop_robots _ _ _ _ Hc) as [Hfr1 _].
  destruct (frozen_run _ _ _ Hfr1 Hrun) as (Hfr2 & _). congruence.
Qed.

Lemma unseeded_is_initial_witness :
  state_after [PickUp "robot1"; Offload "robot1" []] = init all_zones.
Proof.
  apply (unseeded_is_initial all_zones).
  - exists [PickUp "robot1"; Offload "robot1" []]. vm_compute. reflexivity.
  - vm_compute. reflexivity.
Defined.

(** X13. Seeding creates six clusters, [cluster0] to [cluster5] in this
    order, and exactly two of each colour; they are there in every seeded
    reachable state. *)
Theorem clusters_seeded (cfg : Config) (s : ItemManager) :
  reachable cfg s -> first_run s = false ->
  Dict.keys (clusters s)
  = ["cluster0"; "cluster1"; "cluster2"; "cluster3"; "cluster4"; "cluster5"]
  /\ forall colour, colour_count (clusters s) colour = 2%nat.
Proof.
  intros Hreach Hfr. destruct (reachable_layout _ _ Hreach Hfr) as [Hk Htwo].
  split; [exact Hk | exact Htwo].
Qed.

Lemma clusters_seeded_witness :
  colour_count (clusters (state_after carry_green)) BLUE = 2%nat.
Proof.
  apply (clusters_seeded all_zones _ (reachable_state_after _ run_carry_green)).
  vm_compute. reflexivity.
Defined.

Lemma far_apart_sym a b : far_apart a b -> far_apart b a.
Proof.
  unfold far_apart, euclid. simpl. intros H.
  match goal with
  | H : (1 < sqrt ?u)%R |- (1 < sqrt ?v)%R => replace v with u by ring
  end. exact H.
Qed.

(** X14. In every reachable state each cluster centre is an integer point of
    the band of its colour ([-2..-1], [-1..1], [1..2] for red, green, blue;
    [y] in [-2..2]), on none of the four obstacle cells, and the centres of
    two clusters with different ids are more than 1.0 apart. *)
Theorem clusters_separated (cfg : Config) (s : ItemManager) :
  reachable cfg s ->
  (forall cluster_id c, In (cluster_id, c) (clusters s) -> in_band c)
  /\ (forall id1 c1 id2 c2,
        In (id1, c1) (clusters s) -> In (id2, c2) (clusters s) ->
        id1 <> id2 -> far_apart c1 c2).
Proof.
  intros Hreach. destruct (first_run s) eqn:Hfr.
  - rewrite (unseeded_initial_clusters cfg s Hreach Hfr).
    split; intros; contradiction.
  - destruct (reachable_layout _ _ Hreach Hfr) as [_ _ Hap Hband _ _ _ _].
    split.
    + intros id c Hin. rewrite Forall_forall in Hband.
      apply Hband. eapply In_values; eauto.
    + intros id1 c1 id2 c2 H1 H2 Hne.
      destruct (ForallOrdPairs_In Hap _ _ H1 H2) as [E|[H|H]].
      * congruence.
      * exact H.
      * now apply far_apart_sym.
Qed.

Lemma clusters_separated_witness :
  far_apart (Cluster.mk (-2) (-2) RED) (Cluster.mk 0 0 GREEN).
Proof.
  apply (proj2 (clusters_separated all_zones _
                  (reachable_state_after _ run_carry_green))
           "cluster0" _ "cluster3" _).
  - vm_compute. tauto.
  - vm_compute. tauto.
  - discriminate.
Defined.

(** X15. Seeding creates between 18 and 30 items, [item0], [item1], ... in
    this order, three to five for each of the six clusters, and each item has
    the colour of its cluster; in every seeded reachable state the item map
    still has exactly these ids, colours and clusters. *)
Theorem items_seeded (cfg : Config) (s : ItemManager) :
  reachable cfg s -> first_run s = false ->
  Dict.keys (items s) = map item_name (seq 0 (length (items s)))
  /\ (18 <= length (items s) <= 30)%nat
  /\ (forall i, (i < 6)%nat ->
                (3 <= items_of (cluster_name i) (items s) <= 5)%nat)
  /\ (forall item_id item,
        In (item_id, item) (items s) ->
        exists c, Dict.get (clusters s) (Item.cluster_id item) = Some c
                  /\ Cluster.colour c = Item.colour item).
Proof.
  intros Hreach Hfr.
  destruct (reachable_layout _ _ Hreach Hfr) as [_ _ _ _ Hik Htot Hcount Hcol].
  auto.
Qed.

Lemma items_seeded_witness :
  (18 <= length (items (state_after carry_green)) <= 30)%nat
  /\ (3 <= items_of (cluster_name 4) (items (state_after carry_green)) <= 5)%nat.
Proof.
  destruct (items_seeded all_zones _ (reachable_state_after _ run_carry_green))
    as (_ & Htot & Hcount & _).
  - vm_compute. reflexivity.
  - split; [exact Htot | apply Hcount; lia].
Defined.

(** X16. Once the arena is seeded it is never seeded again, and no later
    callback creates, deletes, recolours or reassigns an item or touches a
    cluster: along any run the clusters are equal and the item map keeps its
    ids, in order, each with its colour and cluster. *)
Theorem arena_frozen (s : ItemManager) (rs : list request) (s' : ItemManager) :
  first_run s = false ->
  run s rs = Ok s' ->
  first_run s' = false
  /\ clusters s' = clusters s
  /\ map item_meta (items s') = map item_meta (items s).
Proof. apply frozen_run. Qed.

Lemma arena_frozen_witness :
  clusters (state_after carry_green) = clusters (state_after deposit_red)
  /\ map item_meta (items (state_after carry_green))
     = map item_meta (items (state_after deposit_red)).
Proof.
  destruct (arena_frozen (state_after deposit_red) fetch_green
              (state_after carry_green)) as (_ & Hc & Hm).
  - vm_compute. reflexivity.
  - exact (proj2 run_fetch_green).
  - split; [exact Hc | exact Hm].
Defined.

Lemma item_far_sym a b : item_far a b -> item_far b a.
Proof.
  unfold item_far. intros H E. symmetry in E.
  rewrite math_dist_sym. exact (H E).
Qed.

(** X17. When the first tick returns, [math.dist] between any two items of
    one cluster is not below the float 0.3, whatever the draws were, and the
    Euclidean distance of their float coordinates is at least 0.3 - 1e-15. *)
Theorem items_separated_after_seeding (cfg : Config) (env : TickEnv)
  (s : ItemManager) (evs : list event) :
  control_loop (init cfg) env = Ok (s, evs) ->
  forall id1 item1 id2 item2,
    In (id1, item1) (items s) -> In (id2, item2) (items s) ->
    id1 <> id2 ->
    item_far item1 item2
    /\ (Item.cluster_id item1 = Item.cluster_id item2 ->
        (Q2R (3 # 10) - Q2R tolerance
         <= euclid (as_float (Item.x item1, Item.y item1))
                   (as_float (Item.x item2, Item.y item2)))%R).
Proof.
  intros Hc id1 item1 id2 item2 H1 H2 Hne.
  assert (Hfar : item_far item1 item2); [|split; [exact Hfar|]].
  2: { intros E. apply computed_apart. exact (Hfar E). }
  destruct (first_tick (init cfg) env s evs eq_refl eq_refl
              (seeding_blank cfg) Hc)
    as (j & s0 & Hsd & _ & _ & Hits & _).
  rewrite Hits in H1, H2.
  pose proof (ForallOrdPairs_map snd _ _ (sd_item_apart _ _ _ Hsd)) as Hap.
  destruct (ForallOrdPairs_In Hap _ _ H1 H2) as [E|[H|H]].
  - congruence.
  - exact H.
  - now apply item_far_sym.
Qed.

Lemma control_loop_seeded_run :
  exists evs,
    control_loop (init all_zones) seeding_env = Ok (state_after seeded, evs).
Proof. eexists. vm_compute. reflexivity. Qed.

Lemma items_separated_after_seeding_witness :
  item_far (Item.mk (-2) (-2) RED "cluster0")
           (Item.mk (-2) (float (-2 + float (4 # 10))) RED "cluster0").
Proof.
  destruct control_loop_seeded_run as (evs & Hc).
  apply (items_separated_after_seeding all_zones seeding_env _ evs Hc
           "item0" (Item.mk (-2) (-2) RED "cluster0") "item2"
           (Item.mk (-2) (float (-2 + float (4 # 10))) RED "cluster0")).
  - vm_compute. tauto.
  - vm_compute. tauto.
  - discriminate.
Defined.

(** ** Telemetry *)

Lemma returned_total_sum zs colour n :
  returned_total zs colour = Ok n -> n = returned_sum zs colour.
Proof.
  revert n. induction zs as [|[l z] zs IH]; intros n; simpl.
  - now intros [= <-].
  - unfold lookup, count.
    destruct (Dict.get (Zone.items_returned z) colour) as [k|]; simpl;
      [|discriminate].
    destruct (returned_total zs colour) as [m| |]; simpl; try discriminate.
    intros [= <-]. now rewrite (IH m eq_refl).
Qed.

Lemma item_log_sums zs log :
  item_log zs = Ok log ->
  red_count log = returned_sum zs RED
  /\ green_count log = returned_sum zs GREEN
  /\ blue_count log = returned_sum zs BLUE
  /\ total_count log = red_count log + green_count log + blue_count log
  /\ red_value log = 5 * red_count log
  /\ green_value log = 10 * green_count log
  /\ blue_value log = 15 * blue_count log
  /\ total_value log
     = 5 * red_count log + 10 * green_count log + 15 * blue_count log.
Proof.
  unfold item_log.
  destruct (returned_total zs RED) as [r| |] eqn:Hr; cbn [bind];
    try discriminate.
  destruct (returned_total zs GREEN) as [g| |] eqn:Hg; cbn [bind];
    try discriminate.
  destruct (returned_total zs BLUE) as [b| |] eqn:Hb; cbn [bind];
    try discriminate.
  intros [= <-]. cbn [red_count green_count blue_count total_count red_value
                        green_value blue_value total_value item_values].
  rewrite <- (returned_total_sum _ _ _ Hr), <- (returned_total_sum _ _ _ Hg),
    <- (returned_total_sum _ _ _ Hb).
  repeat split; lia.
Qed.

Lemma item_holders_describe its rs hs :
  item_holders its rs = Ok hs -> Forall2 (describes its) rs hs.
Proof.
  revert hs. induction rs as [|[robot_id robot] rs IH]; intros hs; simpl.
  - intros [= <-]. constructor.
  - destruct (Robot.item_held robot) as [held|] eqn:Hh; simpl.
    + unfold lookup. destruct (Dict.get its held) as [item|] eqn:Hi; simpl;
        [|discriminate].
      destruct (item_holders its rs) as [hs'| |]; simpl; try discriminate.
      intros [= <-]. constructor; [|now apply IH].
      unfold describes. simpl. rewrite Hh. split; [reflexivity|].
      exists item. auto.
    + destruct (item_holders its rs) as [hs'| |]; simpl; try discriminate.
      intros [= <-]. constructor; [|now apply IH].
      unfold describes. simpl. rewrite Hh. auto.
Qed.

Lemma seed_items_requests n : forall s cluster_id colour polars s' evs polars',
  seed_items n s cluster_id colour polars = Ok (s', evs, polars') ->
  Forall is_request evs.
Proof.
  induction n as [|n IH]; intros s cluster_id colour polars s' evs polars';
    simpl.
  - intros [= <- <- <-]. constructor.
  - destruct (generate_item_position _ _ _ _) as [[[x y] polars1]| |];
      simpl; try discriminate.
    destruct (seed_items n _ _ _ _) as [[[s3 evs3] polars3]| |] eqn:Hs;
      simpl; try discriminate.
    intros [= <- <- <-]. constructor; [exact I|]. eapply IH; eauto.
Qed.

Lemma seed_clusters_requests n : forall s ints polars s' evs,
  seed_clusters n s ints polars = Ok (s', evs) -> Forall is_request evs.
Proof.
  induction n as [|n IH]; intros s ints polars s' evs; simpl.
  - intros [= <- <-]. constructor.
  - destruct (choose_colour _ _) as [[colour ints1]| |]; simpl;
      try discriminate.
    destruct (generate_cluster_location _ _ _) as [[[x y] ints2]| |]; simpl;
      try discriminate.
    destruct ints2 as [|raw ints3]; [discriminate|].
    destruct (seed_items _ _ _ _ _) as [[[s3 evs3] polars1]| |] eqn:Hs; simpl;
      try discriminate.
    destruct (seed_clusters n _ _ _) as [[s4 evs4]| |] eqn:Hc; simpl;
      try discriminate.
    intros [= <- <-]. apply Forall_app. split.
    + eapply seed_items_requests; eauto.
    + eapply IH; eauto.
Qed.

Lemma sync_robots_requests position rs : forall its rs' its' evs,
  sync_robots position rs its = Ok (rs', its', evs) -> Forall is_request evs.
Proof.
  induction rs as [|[rid r] rs IH]; intros its rs' its' evs; simpl.
  - intros [= <- <- <-]. constructor.
  - destruct (Robot.item_held r) as [held|].
    + unfold lookup. destruct (Dict.get its held); simpl; [|discriminate].
      destruct (sync_robots _ rs _) as [[[rs1 its1] evs1]| |] eqn:Hs1;
        simpl; try discriminate.
      intros [= <- <- <-]. constructor; [exact I|].
      constructor; [exact I|]. eapply IH; eauto.
    + destruct (sync_robots _ rs _) as [[[rs1 its1] evs1]| |] eqn:Hs1;
        simpl; try discriminate.
      intros [= <- <- <-]. constructor; [exact I|]. eapply IH; eauto.
Qed.

(** What every tick publishes, last of all its events. *)
Lemma control_loop_publishes s env s' evs :
  control_loop s env = Ok (s', evs) ->
  exists before hs log,
    evs = (before ++ [PublishItemHolders hs; PublishItemLog log])%list
    /\ item_holders (items s') (robots s') = Ok hs
    /\ item_log (zones s) = Ok log
    /\ Forall is_request before.
Proof.
  intros Hc. pose proof (control_loop_zones _ _ _ _ Hc) as Hz.
  revert Hc Hz. unfold control_loop.
  destruct (if first_run s then _ else _) as [[s1 seeding]| |] eqn:Hseed;
    simpl; try discriminate.
  destruct (sync_robots _ _ _) as [[[rs its'] syncing]| |] eqn:Hs; simpl;
    try discriminate.
  destruct (item_holders _ _) as [hs| |] eqn:Hh; simpl; try discriminate.
  destruct (item_log _) as [log| |] eqn:Hl; simpl; try discriminate.
  intros [= <- <-] Hz. simpl in Hz |- *.
  exists (seeding
          ++ SpawnEntity "ready" RED 0 0 (-5 # 10) :: GetModelList :: syncing)%list,
         hs, log.
  split; [now rewrite <- app_assoc|]. split; [exact Hh|].
  split; [now rewrite <- Hz|].
  apply Forall_app. split.
  - destruct (first_run s).
    + eapply seed_clusters_requests; eauto.
    + injection Hseed as _ <-. constructor.
  - constructor; [exact I|]. constructor; [exact I|].
    eapply sync_robots_requests; eauto.
Qed.

(** X18. Every tick ends by publishing, once, the item holders and then the
    item log, after all its backend requests.  The log counts, per colour,
    the items returned over all zones; its total count is the sum of the
    three counts, each value is the count times the value of the colour
    (5, 10, 15), and the total value is the sum of the three values. *)
Theorem tick_publishes_log (s : ItemManager) (env : TickEnv)
  (s' : ItemManager) (evs : list event) :
  control_loop s env = Ok (s', evs) ->
  exists before hs log,
    evs = (before ++ [PublishItemHolders hs; PublishItemLog log])%list
    /\ Forall is_request before
    /\ red_count log = returned_sum (zones s) RED
    /\ green_count log = returned_sum (zones s) GREEN
    /\ blue_count log = returned_sum (zones s) BLUE
    /\ total_count log = red_count log + green_count log + blue_count log
    /\ red_value log = 5 * red_count log
    /\ green_value log = 10 * green_count log
    /\ blue_value log = 15 * blue_count log
    /\ total_value log = red_value log + green_value log + blue_value log.
Proof.
  intros Hc.
  destruct (control_loop_publishes _ _ _ _ Hc)
    as (before & hs & log & -> & _ & Hl & Hreq).
  destruct (item_log_sums _ _ Hl) as (Hr & Hg & Hb & Ht & Hrv & Hgv & Hbv & Htv).
  exists before, hs, log. repeat split; auto. lia.
Qed.

Lemma tick_publishes_log_witness :
  exists before hs log,
    snd (match control_loop (state_after deposit_red) (robot1_at (0, 0)%Q) with
         | Ok r => r
         | _ => (state_after deposit_red, [])
         end)
    = (before ++ [PublishItemHolders hs; PublishItemLog log])%list
    /\ red_count log = 1 /\ total_value log = 5.
Proof.
  destruct (control_loop (state_after deposit_red) (robot1_at (0, 0)%Q))
    as [[s' evs]| |] eqn:Hc; try (vm_compute in Hc; discriminate Hc).
  destruct (tick_publishes_log _ _ _ _ Hc)
    as (before & hs & log & E & _ & Hr & Hg & Hb & _ & Hrv & Hgv & Hbv & Htv).
  exists before, hs, log. split; [exact E|].
  assert (R : returned_sum (zones (state_after deposit_red)) RED = 1)
    by (vm_compute; reflexivity).
  assert (G : returned_sum (zones (state_after deposit_red)) GREEN = 0)
    by (vm_compute; reflexivity).
  assert (B : returned_sum (zones (state_after deposit_red)) BLUE = 0)
    by (vm_compute; reflexivity).
  split; lia.
Defined.

(** X19. The holders published by a tick are one record per tracked robot,
    in the order of the robot map: the record carries the robot id and, for a
    robot holding an item, the flag, the name of the item's colour and its
    value; for a robot holding nothing, no flag, the empty colour and 0. *)
Theorem tick_publishes_holders (s : ItemManager) (env : TickEnv)
  (s' : ItemManager) (evs : list event) :
  control_loop s env = Ok (s', evs) ->
  exists before hs log,
    evs = (before ++ [PublishItemHolders hs; PublishItemLog log])%list
    /\ Forall2 (describes (items s')) (robots s') hs.
Proof.
  intros Hc.
  destruct (control_loop_publishes _ _ _ _ Hc)
    as (before & hs & log & -> & Hh & _ & _).
  exists before, hs, log. split; [reflexivity|].
  now apply item_holders_describe.
Qed.

Lemma tick_publishes_holders_witness :
  exists hs,
    Forall2 (describes (items (state_after carry_red)))
            (robots (state_after carry_red)) hs
    /\ length hs = 2%nat.
Proof.
  assert (Hc : exists evs,
             control_loop (state_after (seeded ++ [PickUp "robot1"]))
                          (robot1_at top_left_centre)
             = Ok (state_after carry_red, evs))
    by (eexists; vm_compute; reflexivity).
  destruct Hc as (evs & Hc).
  destruct (tick_publishes_holders _ _ _ _ Hc) as (before & hs & log & _ & Hd).
  exists hs. split; [exact Hd|].
  apply Forall2_length in Hd. rewrite <- Hd. vm_compute. reflexivity.
Defined.

Lemma zones_le_refl zs : zones_le zs zs.
Proof.
  induction zs as [|[l z] zs IH]; constructor; auto. split; [reflexivity|].
  intros; lia.
Qed.

Lemma zones_le_trans a b c : zones_le a b -> zones_le b c -> zones_le a c.
Proof.
  intros Hab. revert c. induction Hab as [|x y a b [E1 H1] Hab IH];
    intros c Hbc; inversion Hbc as [|? z ? c' [E2 H2] Hbc']; subst.
  - constructor.
  - constructor; [|now apply IH].
    split; [congruence|]. intros col. specialize (H1 col).
    specialize (H2 col). lia.
Qed.

Lemma zones_le_set zs l z z' :
  Dict.get zs l = Some z ->
  (forall c, count z c <= count z' c) ->
  zones_le zs (Dict.set zs l z').
Proof.
  intros Hg Hle. induction zs as [|[l0 z0] zs IH]; simpl in *; [discriminate|].
  destruct (ZoneLocation_eqb l l0) eqn:E.
  - injection Hg as ->. constructor; [|apply zones_le_refl].
    split; [reflexivity | exact Hle].
  - constructor; [|now apply IH]. split; [reflexivity | intros; lia].
Qed.

Lemma step_zones_le s r s' :
  wf s -> step s r = Ok s' -> zones_le (zones s) (zones s').
Proof.
  intros Hwf. destruct r as [robot_id|robot_id polars|env]; simpl.
  - intros [= <-]. rewrite pick_up_item_zones. apply zones_le_refl.
  - destruct (offload_item s robot_id polars) as [[[resp s1] evs]| |] eqn:Ho;
      simpl; try discriminate. intros [= <-].
    destruct (offload_item_cases _ _ _ _ _ _ Ho)
      as [(_ & _ & -> & _)
         |[(robot & _ & _ & _ & -> & _)
          |[(robot & held & _ & _ & _ & _ & -> & _)
           |(robot & held & l & z & item & z' & x & y & rest & Hr & Hh
             & Hacc & Hi & Hup & _ & _ & -> & _)]]];
      try apply zones_le_refl.
    simpl.
    pose proof (get_robot_zone_In _ _ _ _ (proj1 Hacc)) as Hzin.
    destruct (count_up_ok z (Item.colour item) z' (wf_zones s Hwf _ _ Hzin)
                (accepted_match _ _ _ _ _ _ Hacc Hh Hi) Hup)
      as (_ & _ & Hinc & Hoth).
    apply (zones_le_set _ _ z).
    + exact (get_robot_zone_get _ _ _ _ (wf_zone_keys s Hwf) (proj1 Hacc)).
    + intros c. destruct (keyb_dec c (Item.colour item)) as [->|Hc].
      * lia.
      * rewrite (Hoth c Hc). lia.
  - destruct (control_loop s env) as [[s1 evs]| |] eqn:Hc; simpl;
      try discriminate. intros [= <-].
    rewrite (control_loop_zones _ _ _ _ Hc). apply zones_le_refl.
Qed.

Lemma run_zones_le rs : forall s s',
  wf s -> run s rs = Ok s' -> zones_le (zones s) (zones s').
Proof.
  induction rs as [|r rs IH]; intros s s' Hwf; simpl.
  - intros [= <-]. apply zones_le_refl.
  - destruct (step s r) as [s1| |] eqn:Hs; simpl; try discriminate.
    intros Hrun. eapply zones_le_trans.
    + eapply step_zones_le; eauto.
    + eapply IH; [eapply wf_step; eauto | exact Hrun].
Qed.

Lemma returned_sum_le zs zs' colour :
  zones_le zs zs' -> returned_sum zs colour <= returned_sum zs' colour.
Proof.
  induction 1 as [|x y a b [_ H1] Hab IH]; simpl; [lia|].
  specialize (H1 colour). lia.
Qed.

(** X20. The published score never goes down: between two states of a run,
    the count of every colour summed over the zones does not decrease, so
    neither do the counts, the values and the totals of the item log. *)
Theorem item_log_monotone (cfg : Config) (s : ItemManager)
  (rs : list request) (s' : ItemManager) (log log' : ItemLog) :
  reachable cfg s ->
  run s rs = Ok s' ->
  item_log (zones s) = Ok log ->
  item_log (zones s') = Ok log' ->
  red_count log <= red_count log'
  /\ green_count log <= green_count log'
  /\ blue_count log <= blue_count log'
  /\ total_count log <= total_count log'
  /\ total_value log <= total_value log'.
Proof.
  intros Hreach Hrun Hl Hl'.
  pose proof (run_zones_le _ _ _ (wf_reachable _ _ Hreach) Hrun) as Hle.
  destruct (item_log_sums _ _ Hl) as (Hr & Hg & Hb & Ht & _ & _ & _ & Htv).
  destruct (item_log_sums _ _ Hl') as (Hr' & Hg' & Hb' & Ht' & _ & _ & _ & Htv').
  pose proof (returned_sum_le _ _ RED Hle).
  pose proof (returned_sum_le _ _ GREEN Hle).
  pose proof (returned_sum_le _ _ BLUE Hle).
  repeat split; lia.
Qed.

Lemma item_log_monotone_witness :
  exists log log',
    item_log (zones (state_after carry_red)) = Ok log
    /\ item_log (zones (state_after carry_green)) = Ok log'
    /\ total_value log <= total_value log'.
Proof.
  assert (Hl : item_log (zones (state_after carry_red))
               = Ok (mkItemLog 0 0 0 0 0 0 0 0)) by (vm_compute; reflexivity).
  assert (Hl' : item_log (zones (state_after carry_green))
                = Ok (mkItemLog 1 0 0 1 5 0 0 5)) by (vm_compute; reflexivity).
  assert (Hrun : run (state_after carry_red)
                     (Offload "robot1" deposit_draws :: fetch_green)
                 = Ok (state_after carry_green)) by (vm_compute; reflexivity).
  eexists _, _. split; [exact Hl|]. split; [exact Hl'|].
  exact (proj2 (proj2 (proj2 (proj2
           (item_log_monotone all_zones _ _ _ _ _
              (reachable_state_after _ run_carry_red) Hrun Hl Hl'))))).
Defined.

(** ** The sampling loops *)

Lemma item_rejected cluster_id its p :
  existsb (item_clash cluster_id (fst p) (snd p)) (Dict.values its) = true
  <-> too_close cluster_id its p.
Proof.
  destruct p as [x y]. simpl. rewrite existsb_exists. unfold too_close. split.
  - intros (item & Hin & Hc). unfold Dict.values in Hin.
    apply in_map_iff in Hin as ([id it] & <- & Hin). simpl in Hc.
    unfold item_clash in Hc. apply andb_true_iff in Hc as [E Hd].
    apply String.eqb_eq in E. apply dist_lt_computed in Hd.
    exists id, it. auto.
  - intros (id & it & Hin & E & Hd). exists it. split.
    + eapply In_values; eauto.
    + unfold item_clash. rewrite E, String.eqb_refl. simpl.
      apply dist_lt_computed. exact Hd.
Qed.

(** X21. [generate_item_position] returns the first candidate, the float sum
    of the cluster centre and the draw, that [math.dist] puts less than the
    float 0.3 from no item of the cluster, and hands back the draws after
    it; with only rejected candidates it is still looping when the draws
    end; for a cluster id that is no key of the cluster map it raises the
    KeyError at the first round. *)
Theorem generate_item_position_first_accepted (cs : dict string Cluster.t)
  (its : dict string Item.t) (cluster_id : string) :
  (forall cluster pre d post,
      Dict.get cs cluster_id = Some cluster ->
      (forall e, In e pre ->
                 too_close cluster_id its (item_candidate cluster e)) ->
      ~ too_close cluster_id its (item_candidate cluster d) ->
      generate_item_position cs its cluster_id (pre ++ d :: post)
      = Ok (fst (item_candidate cluster d), snd (item_candidate cluster d),
            post))
  /\ (forall cluster polars,
        Dict.get cs cluster_id = Some cluster ->
        (forall e, In e polars ->
                   too_close cluster_id its (item_candidate cluster e)) ->
        generate_item_position cs its cluster_id polars = Starved)
  /\ (forall d polars,
        Dict.get cs cluster_id = None ->
        generate_item_position cs its cluster_id (d :: polars) = KeyError).
Proof.
  split; [|split].
  - intros cluster pre d post Hc Hpre Hd.
    induction pre as [|[ox oy] pre IH]; simpl.
    + destruct d as [ox oy]. unfold lookup. rewrite Hc. simpl.
      destruct (existsb _ _) eqn:E; [|reflexivity].
      exfalso. apply Hd.
      apply (item_rejected cluster_id its (item_candidate cluster (ox, oy))).
      exact E.
    + unfold lookup. rewrite Hc. simpl.
      pose proof (Hpre (ox, oy) (or_introl eq_refl)) as Hclose.
      apply (item_rejected cluster_id its (item_candidate cluster (ox, oy)))
        in Hclose. simpl in Hclose. rewrite Hclose.
      apply IH. intros e He. apply Hpre. now right.
  - intros cluster polars Hc Hall.
    induction polars as [|[ox oy] polars IH]; simpl; [reflexivity|].
    unfold lookup. rewrite Hc. simpl.
    pose proof (Hall (ox, oy) (or_introl eq_refl)) as Hclose.
    apply (item_rejected cluster_id its (item_candidate cluster (ox, oy)))
      in Hclose. simpl in Hclose. rewrite Hclose.
    apply IH. intros e He. apply Hall. now right.
  - intros [ox oy] polars Hc. simpl. unfold lookup. now rewrite Hc.
Qed.

(** The deposit draws of the worked run: the first is 0.14 from [item1]. *)
Lemma generate_item_position_first_accepted_witness :
  generate_item_position (clusters (state_after carry_red))
    (items (state_after carry_red)) "cluster0"
    ([(3 # 10, 1 # 10)%Q] ++ (-2 # 10, -2 # 10)%Q :: [(0, 0)%Q])
  = Ok (float (-2 + float (-2 # 10)), float (-2 + float (-2 # 10)), [(0, 0)%Q]).
Proof.
  apply (proj1 (generate_item_position_first_accepted
                  (clusters (state_after carry_red))
                  (items (state_after carry_red)) "cluster0")
           (Cluster.mk (-2) (-2) RED)).
  - vm_compute. reflexivity.
  - intros e [<-|[]].
    apply (item_rejected "cluster0" (items (state_after carry_red))
             (item_candidate (Cluster.mk (-2) (-2) RED) (3 # 10, 1 # 10)%Q)).
    vm_compute. reflexivity.
  - intros Hclose.
    apply (item_rejected "cluster0" (items (state_after carry_red))
             (item_candidate (Cluster.mk (-2) (-2) RED) (-2 # 10, -2 # 10)%Q))
      in Hclose.
    vm_compute in Hclose. discriminate Hclose.
Defined.

Lemma obstacle_iff x y :
  obstacle x y = true <-> In (x, y) [(1, 1); (1, -1); (-1, 1); (-1, -1)].
Proof.
  split.
  - intros Ho. destruct (obstacle x y) eqn:E; [|discriminate].
    unfold obstacle in E.
    repeat (apply orb_true_iff in E as [E|E]);
      apply andb_true_iff in E as [Ex Ey];
      apply Z.eqb_eq in Ex, Ey; subst; simpl; tauto.
  - intros Hin. destruct (obstacle x y) eqn:E; [reflexivity|].
    exfalso. exact (obstacle_cells x y E Hin).
Qed.

Lemma euclid_same p : euclid p p = 0%R.
Proof.
  unfold euclid.
  replace ((Q2R (fst p) - Q2R (fst p)) * (Q2R (fst p) - Q2R (fst p))
           + (Q2R (snd p) - Q2R (snd p)) * (Q2R (snd p) - Q2R (snd p)))%R
    with 0%R by ring.
  apply sqrt_0.
Qed.

Lemma cluster_clash_iff x y c :
  cluster_clash x y c = true
  <-> (euclid (inject_Z (Cluster.x c), inject_Z (Cluster.y c))
              (inject_Z x, inject_Z y) <= 1)%R.
Proof.
  unfold cluster_clash. rewrite orb_true_iff. split.
  - intros [E|E].
    + apply andb_true_iff in E as [Ex Ey]. apply Z.eqb_eq in Ex, Ey.
      rewrite Ex, Ey, euclid_same. apply Rle_0_1.
    + rewrite <- RMicromega.Q2R_1. apply dist_le_euclid; [discriminate|].
      exact E.
  - intros Hle. right. rewrite <- RMicromega.Q2R_1 in Hle.
    apply dist_le_euclid in Hle; [exact Hle | discriminate].
Qed.

Lemma cluster_rejected cs p :
  obstacle (fst p) (snd p)
  || existsb (cluster_clash (fst p) (snd p)) (Dict.values cs) = true
  <-> blocked cs p.
Proof.
  destruct p as [x y]. simpl. unfold blocked. simpl fst. simpl snd.
  rewrite orb_true_iff, obstacle_iff, existsb_exists. split.
  - intros [Ho|(c & Hin & Hc)]; [now left|]. right.
    unfold Dict.values in Hin. apply in_map_iff in Hin as ([id c0] & <- & Hin).
    exists id, c0. split; [exact Hin|]. now apply cluster_clash_iff.
  - intros [Ho|(id & c & Hin & Hc)]; [now left|]. right.
    exists c. split; [eapply In_values; eauto | now apply cluster_clash_iff].
Qed.

Lemma generate_cluster_location_round cs colour raw_y raw_x rest :
  generate_cluster_location cs colour (raw_y :: raw_x :: rest)
  = if obstacle (fst (cluster_candidate colour raw_y raw_x))
                (snd (cluster_candidate colour raw_y raw_x))
       || existsb (cluster_clash (fst (cluster_candidate colour raw_y raw_x))
                                 (snd (cluster_candidate colour raw_y raw_x)))
                  (Dict.values cs)
    then generate_cluster_location cs colour rest
    else Ok (fst (cluster_candidate colour raw_y raw_x),
             snd (cluster_candidate colour raw_y raw_x), rest).
Proof.
  cbn [generate_cluster_location cluster_candidate fst snd].
  destruct (obstacle _ _); [reflexivity|].
  destruct (existsb _ _); reflexivity.
Qed.

(** X22. [generate_cluster_location] takes two draws per round, [y] first,
    and returns the first candidate cell that is no obstacle and more than
    1.0 from every existing cluster centre, handing back the draws after it;
    when every complete round is rejected it is still looping when the draws
    end, a single left-over draw included. *)
Theorem generate_cluster_location_first_accepted (cs : dict string Cluster.t)
  (colour : Colour) :
  (forall pre raw_y raw_x post,
      (forall r, In r pre ->
                 blocked cs (cluster_candidate colour (fst r) (snd r))) ->
      ~ blocked cs (cluster_candidate colour raw_y raw_x) ->
      generate_cluster_location cs colour
        (rounds pre ++ raw_y :: raw_x :: post)
      = Ok (fst (cluster_candidate colour raw_y raw_x),
            snd (cluster_candidate colour raw_y raw_x), post))
  /\ (forall pre tail,
        (forall r, In r pre ->
                   blocked cs (cluster_candidate colour (fst r) (snd r))) ->
        (length tail <= 1)%nat ->
        generate_cluster_location cs colour (rounds pre ++ tail) = Starved).
Proof.
  split.
  - intros pre raw_y raw_x post Hpre Hd.
    induction pre as [|[ry rx] pre IH].
    + cbn [rounds flat_map app]. rewrite generate_cluster_location_round.
      destruct (obstacle _ _ || existsb _ _) eqn:E; [|reflexivity].
      exfalso. apply Hd. now apply cluster_rejected.
    + cbn [rounds flat_map app fst snd].
      rewrite generate_cluster_location_round.
      pose proof (Hpre (ry, rx) (or_introl eq_refl)) as Hb.
      apply cluster_rejected in Hb. cbn [fst snd] in Hb. rewrite Hb.
      apply IH. intros r Hr. apply Hpre. now right.
  - intros pre tail Hpre Htail.
    induction pre as [|[ry rx] pre IH].
    + cbn [rounds flat_map app]. destruct tail as [|a [|b tail]];
        [reflexivity | reflexivity | simpl in Htail; lia].
    + cbn [rounds flat_map app fst snd].
      rewrite generate_cluster_location_round.
      pose proof (Hpre (ry, rx) (or_introl eq_refl)) as Hb.
      apply cluster_rejected in Hb. cbn [fst snd] in Hb. rewrite Hb.
      apply IH. intros r Hr. apply Hpre. now right.
Qed.

(** A green cluster sought on the seeded arena: the cell [(0, 0)] of the
    first round is taken by [cluster3], the cell [(1, 2)] is free. *)
Lemma generate_cluster_location_first_accepted_witness :
  generate_cluster_location (clusters (state_after carry_red)) GREEN
    (rounds [(2, 1)] ++ 4 :: 2 :: [7])
  = Ok (1, 2, [7]).
Proof.
  apply (proj1 (generate_cluster_location_first_accepted
                  (clusters (state_after carry_red)) GREEN) [(2, 1)] 4 2 [7]).
  - intros r [<-|[]]. apply cluster_rejected. vm_compute. reflexivity.
  - intros Hb. apply cluster_rejected in Hb. vm_compute in Hb.
    discriminate Hb.
Defined.

(** ** Pose synchronisation *)

Lemma sync_robots_untouched position rs item_id : forall its rs' its' evs,
  sync_robots position rs its = Ok (rs', its', evs) ->
  (forall robot_id robot,
      In (robot_id, robot) rs -> Robot.item_held robot <> Some item_id) ->
  Dict.get its' item_id = Dict.get its item_id.
Proof.
  induction rs as [|[rid r] rs IH]; intros its rs' its' evs; simpl.
  - now intros [= _ <- _].
  - intros Hs Hno. destruct (Robot.item_held r) as [held|] eqn:Hh.
    + unfold lookup in Hs. destruct (Dict.get its held) as [item|];
        simpl in Hs; [|discriminate].
      destruct (sync_robots _ rs _) as [[[rs1 its1] evs1]| |] eqn:Hs1;
        simpl in Hs; try discriminate. injection Hs as _ <- _.
      rewrite (IH _ _ _ _ Hs1); [|intros k v Hin; apply (Hno k v); now right].
      apply get_set_other. intros ->.
      apply (Hno rid r); [now left | exact Hh].
    + destruct (sync_robots _ rs _) as [[[rs1 its1] evs1]| |] eqn:Hs1;
        simpl in Hs; try discriminate. injection Hs as _ <- _.
      apply (IH _ _ _ _ Hs1). intros k v Hin. apply (Hno k v). now right.
Qed.

Lemma sync_robots_drag position rs : forall its rs' its' evs,
  NoDup (Dict.keys rs) ->
  sync_robots position rs its = Ok (rs', its', evs) ->
  forall robot_id robot item_id item,
    In (robot_id, robot) rs ->
    Robot.item_held robot = Some item_id ->
    (forall other robot',
        In (other, robot') rs -> Robot.item_held robot' = Some item_id ->
        other = robot_id) ->
    Dict.get its item_id = Some item ->
    Dict.get its' item_id
    = Some (Item.with_xy item (round2 (fst (position robot_id)))
                         (round2 (snd (position robot_id))))
    /\ In (SetEntityState item_id robot_id 0 0 (15 # 100)) evs.
Proof.
  induction rs as [|[rid r] rs IH]; intros its rs' its' evs Hnd Hs robot_id
                                           robot item_id item Hin Hh Huniq Hi;
    [contradiction|].
  simpl in Hnd. inversion Hnd as [|? ? Hnotin Hnd']; subst.
  simpl in Hs. destruct Hin as [[= -> ->]|Hin].
  - rewrite Hh in Hs. unfold lookup in Hs. rewrite Hi in Hs. simpl in Hs.
    destruct (sync_robots _ rs _) as [[[rs1 its1] evs1]| |] eqn:Hs1;
      simpl in Hs; try discriminate. injection Hs as _ <- <-.
    split; [|right; now left].
    rewrite (sync_robots_untouched _ _ item_id _ _ _ _ Hs1).
    + apply get_set_same.
    + intros k v Hkv Hheld. apply Hnotin.
      rewrite <- (Huniq k v (or_intror Hkv) Hheld).
      unfold Dict.keys. change k with (fst (k, v)). now apply in_map.
  - assert (Hne : rid <> robot_id).
    { intros ->. apply Hnotin. unfold Dict.keys.
      change robot_id with (fst (robot_id, robot)). now apply in_map. }
    assert (Hrest : forall other robot',
               In (other, robot') rs ->
               Robot.item_held robot' = Some item_id -> other = robot_id)
      by (intros k v Hkv; apply Huniq; now right).
    destruct (Robot.item_held r) as [held|] eqn:Hhr.
    + assert (Hhne : held <> item_id).
      { intros ->. apply Hne. apply (Huniq rid r); [now left | exact Hhr]. }
      unfold lookup in Hs. destruct (Dict.get its held) as [it|];
        simpl in Hs; [|discriminate].
      destruct (sync_robots _ rs _) as [[[rs1 its1] evs1]| |] eqn:Hs1;
        simpl in Hs; try discriminate. injection Hs as _ <- <-.
      destruct (IH _ _ _ _ Hnd' Hs1 robot_id robot item_id item Hin Hh Hrest)
        as [Hg Hev].
      * rewrite get_set_other; [exact Hi | now apply not_eq_sym].
      * split; [exact Hg | right; right; exact Hev].
    + destruct (sync_robots _ rs _) as [[[rs1 its1] evs1]| |] eqn:Hs1;
        simpl in Hs; try discriminate. injection Hs as _ <- <-.
      destruct (IH _ _ _ _ Hnd' Hs1 robot_id robot item_id item Hin Hh Hrest Hi)
        as [Hg Hev].
      split; [exact Hg | right; exact Hev].
Qed.

Lemma control_loop_sync s env s' evs :
  first_run s = false ->
  control_loop s env = Ok (s', evs) ->
  exists syncing,
    sync_robots (entity_position env)
                (fold_left discover (model_names env) (robots s)) (items s)
    = Ok (robots s', items s', syncing)
    /\ forall e, In e syncing -> In e evs.
Proof.
  intros Hfr. unfold control_loop. rewrite Hfr. simpl.
  destruct (sync_robots _ _ _) as [[[rs its'] syncing]| |] eqn:Hs; simpl;
    try discriminate.
  destruct (item_holders _ _) as [hs| |]; simpl; try discriminate.
  destruct (item_log _) as [log| |]; simpl; try discriminate.
  intros [= <- <-]. exists syncing. split; [reflexivity|].
  intros e He. simpl. right. right. apply in_or_app. now left.
Qed.

(** X23. A tick carries a held item along: when exactly one robot holds an
    item, the tick stores for the item the rounded position that the backend
    reports for that robot, which is also the robot's new position, and
    sends the pose-set that puts the item 0.15 above the robot in the
    robot's frame. *)
Theorem tick_drags_held_item (cfg : Config) (s : ItemManager) (env : TickEnv)
  (s' : ItemManager) (evs : list event) (robot_id : string)
  (robot : Robot.t) (item_id : string) :
  reachable cfg s ->
  control_loop s env = Ok (s', evs) ->
  Dict.get (robots s) robot_id = Some robot ->
  Robot.item_held robot = Some item_id ->
  (forall other robot',
      In (other, robot') (robots s) ->
      Robot.item_held robot' = Some item_id -> other = robot_id) ->
  exists item robot',
    Dict.get (items s) item_id = Some item
    /\ Dict.get (robots s') robot_id = Some robot'
    /\ Robot.x robot' = round2 (fst (entity_position env robot_id))
    /\ Robot.y robot' = round2 (snd (entity_position env robot_id))
    /\ Robot.item_held robot' = Some item_id
    /\ Dict.get (items s') item_id
       = Some (Item.with_xy item (Robot.x robot') (Robot.y robot'))
    /\ In (SetEntityState item_id robot_id 0 0 (15 # 100)) evs.
Proof.
  intros Hreach Hc Hr Hh Huniq.
  assert (Hfr : first_run s = false).
  { destruct (first_run s) eqn:E; [|reflexivity].
    destruct (reachable_cases _ _ Hreach)
      as [->|(env0 & s1 & evs0 & rs & Hc0 & Hrun)]; [discriminate Hr|].
    destruct (control_loop_robots _ _ _ _ Hc0) as [Hfr1 _].
    destruct (frozen_run _ _ _ Hfr1 Hrun) as (Hfr2 & _). congruence. }
  pose proof (wf_reachable _ _ Hreach) as Hwf.
  destruct (registry_reachable _ _ Hreach) as [Hnd _].
  pose proof (wf_held s Hwf _ _ _ (get_In _ _ _ Hr) Hh) as Hm.
  unfold Dict.mem in Hm.
  destruct (Dict.get (items s) item_id) as [item|] eqn:Hi; [|discriminate].
  destruct (control_loop_sync _ _ _ _ Hfr Hc) as (syncing & Hs & Hev).
  destruct (control_loop_robots _ _ _ _ Hc) as [_ Hrs].
  destruct (discover_appends (model_names env) (robots s))
    as (fresh & Hd & Hf & Hnd').
  rewrite Hd in Hs, Hrs.
  destruct (sync_robots_drag _ _ _ _ _ _ (Hnd' Hnd) Hs robot_id robot item_id
              item) as [Hg Hin]; auto.
  - apply in_or_app. left. now apply get_In.
  - intros other robot' Hin Hheld. apply in_app_or in Hin as [Hin|Hin].
    + eapply Huniq; eauto.
    + rewrite Forall_forall in Hf. destruct (Hf _ Hin) as (E & _).
      simpl in E. subst robot'. discriminate Hheld.
  - exists item, (snd (synced (entity_position env) (robot_id, robot))).
    split; [reflexivity|]. split.
    + rewrite Hrs, get_map_synced, (get_app_some _ _ _ _ Hr). reflexivity.
    + simpl. repeat split; auto.
Qed.

(** The tick of the worked run that takes [robot1], holding [item0], to the
    top-left zone. *)
Lemma tick_drags_held_item_witness :
  exists item robot',
    Dict.get (items (state_after (seeded ++ [PickUp "robot1"]))) "item0"
    = Some item
    /\ Dict.get (robots (state_after carry_red)) "robot1" = Some robot'
    /\ Dict.get (items (state_after carry_red)) "item0"
       = Some (Item.with_xy item (Robot.x robot') (Robot.y robot')).
Proof.
  assert (Hc : exists evs,
             control_loop (state_after (seeded ++ [PickUp "robot1"]))
                          (robot1_at top_left_centre)
             = Ok (state_after carry_red, evs))
    by (eexists; vm_compute; reflexivity).
  destruct Hc as (evs & Hc).
  assert (Hreach : reachable all_zones
                     (state_after (seeded ++ [PickUp "robot1"])))
    by (exists (seeded ++ [PickUp "robot1"])%list; vm_compute; reflexivity).
  assert (Hr : Dict.get (robots (state_after (seeded ++ [PickUp "robot1"])))
                        "robot1"
               = Some (Robot.mk (-220 # 100) (-200 # 100) (Some "item0") None))
    by (vm_compute; reflexivity).
  destruct (tick_drags_held_item all_zones _ _ _ _ "robot1" _ "item0"
              Hreach Hc Hr eq_refl)
    as (item & robot' & Hi & Hr' & _ & _ & _ & Hi' & _).
  - intros other robot' Hin Hheld. vm_compute in Hin.
    destruct Hin as [E|[E|[]]]; injection E as <- <-;
      [reflexivity | discriminate Hheld].
  - exists item, robot'. auto.
Defined.

(** ** Packaging *)

Lemma fold_left_flat_map {A B C} (f : C -> B -> C) (g : A -> list B) l c :
  fold_left f (flat_map g l) c
  = fold_left (fun acc a => fold_left f (g a) acc) l c.
Proof.
  revert c. induction l as [|a l IH]; intros c; simpl; [reflexivity|].
  now rewrite fold_left_app, IH.
Qed.

Lemma fold_left_map_pair {A B C} (f : A -> C -> B -> C) (a : A) l c :
  fold_left (fun acc p => f (fst p) acc (snd p)) (map (pair a) l) c
  = fold_left (f a) l c.
Proof.
  revert c. induction l as [|b l IH]; intros c; simpl; [reflexivity|].
  apply IH.
Qed.

Lemma package_files_found walk data_files directory_list :
  package_files walk data_files directory_list
  = (data_files
     ++ fold_left (fun pd f => add_file (fst f) pd (snd f))
                  (found_files walk directory_list) [])%list.
Proof.
  unfold package_files, found_files. f_equal.
  rewrite fold_left_flat_map. generalize (@nil (string * list string)).
  induction directory_list as [|d ds IH]; intros pd; simpl; [reflexivity|].
  rewrite IH. f_equal. rewrite fold_left_flat_map.
  generalize (walk d). intros entries. revert pd.
  induction entries as [|[p fs] entries IHe]; intros pd; simpl; [reflexivity|].
  rewrite IHe. f_equal. unfold add_walked. simpl.
  symmetry. apply (fold_left_map_pair add_file).
Qed.

Lemma installed_under_snoc key found p f :
  installed_under key (found ++ [(p, f)])
  = (installed_under key found
     ++ if String.eqb (install_path p) key then [path_join p f] else [])%list.
Proof.
  unfold installed_under. rewrite filter_app, map_app. simpl.
  destruct (String.eqb (install_path p) key); reflexivity.
Qed.

Lemma grouped_step pd found p f :
  NoDup (Dict.keys pd) ->
  (forall key, Dict.get pd key
               = match installed_under key found with
                 | [] => None
                 | l => Some l
                 end) ->
  NoDup (Dict.keys (add_file p pd f))
  /\ forall key, Dict.get (add_file p pd f) key
                 = match installed_under key (found ++ [(p, f)]) with
                   | [] => None
                   | l => Some l
                   end.
Proof.
  intros Hnd Hget. unfold add_file.
  pose proof (Hget (install_path p)) as Hhere. split.
  - destruct (Dict.get pd (install_path p)) as [files|] eqn:E.
    + rewrite keys_set_present; [exact Hnd | eapply get_mem; eauto].
    + rewrite set_absent by (unfold Dict.mem; now rewrite E).
      unfold Dict.keys. rewrite map_app. simpl.
      apply NoDup_app; [exact Hnd | repeat constructor; simpl; tauto|].
      intros k Hk [<-|[]].
      apply (mem_notin_keys pd (install_path p));
        [unfold Dict.mem; now rewrite E | exact Hk].
  - intros key. rewrite installed_under_snoc.
    destruct (String.eqb (install_path p) key) eqn:Ek.
    + apply String.eqb_eq in Ek. subst key.
      destruct (Dict.get pd (install_path p)) as [files|] eqn:E;
        rewrite get_set_same.
      * destruct (installed_under (install_path p) found) as [|a l];
          [discriminate|]. injection Hhere as ->. reflexivity.
      * destruct (installed_under (install_path p) found) as [|a l];
          [reflexivity | discriminate].
    + assert (Hne : key <> install_path p).
      { intros ->. rewrite String.eqb_refl in Ek. discriminate. }
      rewrite app_nil_r.
      destruct (Dict.get pd (install_path p)) as [files|];
        rewrite get_set_other by exact Hne; apply Hget.
Qed.

Lemma grouped_fold more : forall pd found,
  NoDup (Dict.keys pd) ->
  (forall key, Dict.get pd key
               = match installed_under key found with
                 | [] => None
                 | l => Some l
                 end) ->
  NoDup (Dict.keys (fold_left (fun pd f => add_file (fst f) pd (snd f))
                              more pd))
  /\ forall key,
      Dict.get (fold_left (fun pd f => add_file (fst f) pd (snd f)) more pd)
               key
      = match installed_under key (found ++ more) with
        | [] => None
        | l => Some l
        end.
Proof.
  induction more as [|[p f] more IH]; intros pd found Hnd Hget; simpl.
  - rewrite app_nil_r. auto.
  - destruct (grouped_step pd found p f Hnd Hget) as [Hnd' Hget'].
    destruct (IH _ _ Hnd' Hget') as [Hnd2 Hget2].
    split; [exact Hnd2|]. intros key. rewrite Hget2, <- app_assoc.
    reflexivity.
Qed.

Lemma first_seen_snoc l k :
  first_seen (l ++ [k])
  = (if existsb (String.eqb k) l then first_seen l
     else first_seen l ++ [k])%list.
Proof.
  induction l as [|a l IH]; simpl; [reflexivity|].
  rewrite IH. destruct (String.eqb k a) eqn:E; simpl.
  - destruct (existsb (String.eqb k) l); [reflexivity|].
    rewrite filter_app. simpl. rewrite E. simpl. now rewrite app_nil_r.
  - destruct (existsb (String.eqb k) l); [reflexivity|].
    rewrite filter_app. simpl. rewrite E. reflexivity.
Qed.

Lemma installed_under_nil key found :
  installed_under key found = []
  <-> existsb (String.eqb key) (map (fun f => install_path (fst f)) found)
      = false.
Proof.
  unfold installed_under. induction found as [|[p f] found IH]; simpl;
    [tauto|].
  rewrite (String.eqb_sym key). destruct (String.eqb (install_path p) key);
    simpl; [split; discriminate | exact IH].
Qed.

Lemma ordered_fold more : forall pd found,
  (forall key, Dict.get pd key
               = match installed_under key found with
                 | [] => None
                 | l => Some l
                 end) ->
  Dict.keys pd = first_seen (map (fun f => install_path (fst f)) found) ->
  Dict.keys (fold_left (fun pd f => add_file (fst f) pd (snd f)) more pd)
  = first_seen (map (fun f => install_path (fst f)) (found ++ more)).
Proof.
  induction more as [|[p f] more IH]; intros pd found Hget Hkeys; simpl.
  - now rewrite app_nil_r.
  - replace (found ++ (p, f) :: more)%list
      with ((found ++ [(p, f)]) ++ more)%list by now rewrite <- app_assoc.
    apply IH.
    + intros key. unfold add_file. rewrite installed_under_snoc.
      pose proof (Hget (install_path p)) as Hhere.
      destruct (String.eqb (install_path p) key) eqn:Ek.
      * apply String.eqb_eq in Ek. subst key.
        destruct (Dict.get pd (install_path p)) as [files|] eqn:E;
          rewrite get_set_same.
        -- destruct (installed_under (install_path p) found) as [|a l];
             [discriminate|]. injection Hhere as ->. reflexivity.
        -- destruct (installed_under (install_path p) found) as [|a l];
             [reflexivity | discriminate].
      * assert (Hne : key <> install_path p).
        { intros ->. rewrite String.eqb_refl in Ek. discriminate. }
        rewrite app_nil_r.
        destruct (Dict.get pd (install_path p)) as [files|];
          rewrite get_set_other by exact Hne; apply Hget.
    + rewrite map_app. simpl. rewrite first_seen_snoc. unfold add_file.
      pose proof (Hget (install_path p)) as Hhere.
      destruct (Dict.get pd (install_path p)) as [files|] eqn:E.
      * rewrite keys_set_present by (eapply get_mem; eauto).
        destruct (existsb _ _) eqn:Ex; [exact Hkeys|].
        apply installed_under_nil in Ex. rewrite Ex in Hhere. discriminate.
      * rewrite set_absent by (unfold Dict.mem; now rewrite E).
        unfold Dict.keys. rewrite map_app. simpl. fold (Dict.keys pd).
        destruct (existsb _ _) eqn:Ex; [|now rewrite Hkeys].
        destruct (installed_under (install_path p) found) eqn:Ei;
          [|discriminate].
        apply installed_under_nil in Ei. congruence.
Qed.

(** X24. [package_files] leaves the given data files in front and appends
    one entry per install path, no path twice and in the order in which the
    walk first meets a file installed there; the entry of an install path
    lists exactly the files found under the paths installed there, in the
    order of the walk, so every found file is installed once and no entry is
    empty. *)
Theorem package_files_groups (walk : string -> list (string * list string))
  (data_files : list (string * list string)) (directory_list : list string) :
  exists added,
    package_files walk data_files directory_list = (data_files ++ added)%list
    /\ NoDup (Dict.keys added)
    /\ Dict.keys added
       = first_seen (map (fun f => install_path (fst f))
                         (found_files walk directory_list))
    /\ forall key,
        Dict.get added key
        = match installed_under key (found_files walk directory_list) with
          | [] => None
          | files => Some files
          end.
Proof.
  rewrite package_files_found. eexists. split; [reflexivity|].
  destruct (grouped_fold (found_files walk directory_list) [] [])
    as [Hnd Hget]; [constructor | intros key; reflexivity|].
  split; [exact Hnd|]. split; [|exact Hget].
  apply (ordered_fold (found_files walk directory_list) [] []).
  - intros key. reflexivity.
  - reflexivity.
Qed.

(** ** Discovery and failure paths of the tick *)

Lemma discover_mem_mono rs name k :
  Dict.mem rs k = true -> Dict.mem (discover rs name) k = true.
Proof.
  intros Hm. unfold discover.
  destruct (names_robot name && negb (Dict.mem rs name)); [|exact Hm].
  now apply mem_set.
Qed.

Lemma discover_complete names : forall rs name,
  In name names -> names_robot name = true ->
  Dict.mem (fold_left discover names rs) name = true.
Proof.
  assert (Hmono : forall names rs k,
             Dict.mem rs k = true ->
             Dict.mem (fold_left discover names rs) k = true).
  { intros ns. induction ns as [|n ns IH]; intros rs k Hm; simpl; [exact Hm|].
    apply IH. now apply discover_mem_mono. }
  induction names as [|n names IH]; intros rs name Hin Hn; [contradiction|].
  simpl. destruct Hin as [->|Hin]; [|now apply IH].
  apply Hmono. unfold discover. rewrite Hn. simpl.
  destruct (Dict.mem rs name) eqn:E; simpl; [exact E|].
  unfold Dict.mem. now rewrite get_set_same.
Qed.

Lemma mem_map_synced position rs k :
  Dict.mem (map (synced position) rs) k = Dict.mem rs k.
Proof.
  unfold Dict.mem. rewrite get_map_synced. now destruct (Dict.get rs k).
Qed.

(** X25. After a tick every reported model whose name contains [robot] is
    tracked, every tracked robot was tracked before or is such a model, and
    each tracked robot stands at the position the backend reported for it,
    rounded to two decimals. *)
Theorem tick_tracks_robots (s : ItemManager) (env : TickEnv)
  (s' : ItemManager) (evs : list event) :
  control_loop s env = Ok (s', evs) ->
  (forall name, In name (model_names env) -> names_robot name = true ->
                Dict.mem (robots s') name = true)
  /\ (forall robot_id robot',
        In (robot_id, robot') (robots s') ->
        (exists robot, In (robot_id, robot) (robots s))
        \/ (In robot_id (model_names env) /\ names_robot robot_id = true))
  /\ (forall robot_id robot',
        In (robot_id, robot') (robots s') ->
        Robot.x robot' = round2 (fst (entity_position env robot_id))
        /\ Robot.y robot' = round2 (snd (entity_position env robot_id))).
Proof.
  intros Hc. destruct (control_loop_robots _ _ _ _ Hc) as [_ Hrs].
  rewrite Hrs. split; [|split].
  - intros name Hin Hn. rewrite mem_map_synced. now apply discover_complete.
  - intros rid r' Hin. apply in_map_iff in Hin as ([k v] & E & Hin).
    unfold synced in E. simpl in E. injection E as -> _.
    destruct (discover_appends (model_names env) (robots s))
      as (fresh & Hd & Hf & _).
    rewrite Hd in Hin. apply in_app_or in Hin as [Hin|Hin]; [left; eauto|].
    right. rewrite Forall_forall in Hf.
    destruct (Hf _ Hin) as (_ & Hn & Hm). auto.
  - intros rid r' Hin. apply in_map_iff in Hin as ([k v] & E & Hin).
    unfold synced in E. simpl in E. injection E as <- <-. auto.
Qed.

Lemma tick_tracks_robots_witness :
  Dict.mem (robots (state_after seeded)) "robot2" = true.
Proof.
  destruct control_loop_seeded_run as (evs & Hc).
  apply (proj1 (tick_tracks_robots _ _ _ _ Hc)).
  - vm_compute. tauto.
  - vm_compute. reflexivity.
Defined.

(** X26. The zone rule reads the held item only for a committed zone.  For a
    robot whose held-item field names no item of the map (or is empty), a
    zone of a reachable state whose counters are all zero still answers
    yes, while a zone with a counter other than zero raises the KeyError;
    without a zone the answer is no. *)
Theorem zone_rule_without_item (cfg : Config) (s : ItemManager)
  (l : ZoneLocation) (z : Zone.t) (its : dict string Item.t)
  (robot : Robot.t) :
  reachable cfg s ->
  In (l, z) (zones s) ->
  held_item its robot = KeyError ->
  allowed_drop_in_zone its robot None = Ok false
  /\ ((forall c, count z c = 0) ->
      allowed_drop_in_zone its robot (Some z) = Ok true)
  /\ (forall c, count z c <> 0 ->
                allowed_drop_in_zone its robot (Some z) = KeyError).
Proof.
  intros Hreach Hin Hheld.
  pose proof (wf_zones s (wf_reachable _ _ Hreach) _ _ Hin) as Hok.
  split; [reflexivity|]. unfold allowed_drop_in_zone. split.
  - intros Hzero. now rewrite (fresh_match z Hok Hzero).
  - intros c Hc. now rewrite (committed_match z c Hok Hc), Hheld.
Qed.

Lemma zone_rule_without_item_witness :
  allowed_drop_in_zone [] (Robot.mk 0 0 None None)
    (Some (Zone.mk TOP_LEFT (257 # 100) (25 # 10)
                   [(RED, 1); (GREEN, 0); (BLUE, 0)]))
  = KeyError.
Proof.
  apply (proj2 (proj2 (zone_rule_without_item all_zones _ TOP_LEFT _ []
                         (Robot.mk 0 0 None None)
                         (reachable_state_after _ run_carry_green)
                         ltac:(vm_compute; tauto) eq_refl)) RED).
  vm_compute. discriminate.
Defined.

Lemma mem_set_fresh {K V} `{KeyLaws K} (d : list (K * V)) k v :
  Dict.mem (Dict.set d k v) k = true.
Proof. unfold Dict.mem. now rewrite get_set_same. Qed.

Lemma choose_colour_no_KeyError cs ints : choose_colour cs ints <> KeyError.
Proof.
  induction ints as [|raw ints IH]; simpl; [discriminate|].
  destruct (colour_count cs (choice_Colour raw) <? 2)%nat;
    [discriminate | exact IH].
Qed.

Lemma generate_cluster_location_no_KeyError cs colour ints :
  generate_cluster_location cs colour ints <> KeyError.
Proof.
  induction ints as [| a | raw_y raw_x l IH] using two_step_ind;
    try discriminate.
  rewrite generate_cluster_location_round.
  destruct (_ || _); [exact IH | discriminate].
Qed.

Lemma seed_items_no_KeyError n : forall s cluster_id colour polars,
  Dict.mem (clusters s) cluster_id = true ->
  seed_items n s cluster_id colour polars <> KeyError.
Proof.
  induction n as [|n IH]; intros s cluster_id colour polars Hm; simpl;
    [discriminate|].
  destruct (generate_item_position _ _ _ _) as [[[x y] polars1]| |] eqn:Hg;
    simpl; try discriminate.
  - destruct (seed_items n _ _ _ _) as [[[s3 evs3] polars3]| |] eqn:Hs;
      simpl; try discriminate.
    exfalso. revert Hs. apply IH. exact Hm.
  - exfalso. revert Hg. now apply generate_item_position_known.
Qed.

Lemma seed_clusters_no_KeyError n : forall s ints polars,
  seed_clusters n s ints polars <> KeyError.
Proof.
  induction n as [|n IH]; intros s ints polars; simpl; [discriminate|].
  destruct (choose_colour _ _) as [[colour ints1]| |] eqn:Hch; simpl;
    try discriminate; [|now apply choose_colour_no_KeyError in Hch].
  destruct (generate_cluster_location _ _ _) as [[[x y] ints2]| |] eqn:Hg;
    simpl; try discriminate;
    [|now apply generate_cluster_location_no_KeyError in Hg].
  destruct ints2 as [|raw ints3]; [discriminate|].
  destruct (seed_items _ _ _ _ _) as [[[s3 evs3] polars1]| |] eqn:Hs; simpl;
    try discriminate.
  - destruct (seed_clusters n _ _ _) as [[s4 evs4]| |] eqn:Hc; simpl;
      try discriminate. now apply IH in Hc.
  - exfalso. revert Hs. apply seed_items_no_KeyError. simpl.
    apply mem_set_fresh.
Qed.

Lemma tick_after_seeding s1 seeding env :
  wf s1 ->
  (forall robot_id robot held,
      In (robot_id, robot) (robots s1) ->
      Robot.item_held robot = Some held ->
      Dict.mem (items s1) held = true) ->
  exists s' evs,
    (let '(s2, ready) := spawn_item s1 "ready" 0 0 RED (-5 # 10) in
     let s3 := with_robots s2
                 (fold_left discover (model_names env) (robots s2)) in
     '(rs, its, syncing) <- sync_robots (entity_position env) (robots s3)
                              (items s3) ;;
     let s4 := with_items (with_robots s3 rs) its in
     holders <- item_holders (items s4) (robots s4) ;;
     log <- item_log (zones s4) ;;
     Ok (s4, (seeding ++ [ready; GetModelList] ++ syncing
              ++ [PublishItemHolders holders; PublishItemLog log])%list))
    = Ok (s', evs).
Proof.
  intros Hwf Hh. cbn [spawn_item].
  assert (Hrs : forall robot_id robot held,
             In (robot_id, robot)
                (fold_left discover (model_names env) (robots s1)) ->
             Robot.item_held robot = Some held ->
             Dict.mem (items s1) held = true).
  { intros rid r h Hin Hheld. apply In_discover in Hin as [Hin|Hin].
    - eapply Hh; eauto.
    - congruence. }
  simpl.
  destruct (sync_robots_total (entity_position env) _ _ Hrs)
    as (rs' & its' & syncing & Hs).
  rewrite Hs. simpl.
  pose proof (wf_sync s1 _ _ _ _ _ Hwf Hrs Hs) as [Hh' Hc' Hz' Hk'].
  simpl in Hh', Hz'.
  destruct (item_holders_total its' rs' Hh') as (hs & ->). simpl.
  destruct (item_log_total (zones s1) Hz') as (log & ->). simpl. eauto.
Qed.

(** X27. A tick has no failure path.  In every reachable state it returns;
    the one exception is the seeding tick of a state that has not run yet,
    which may exhaust the supplied random draws before every cluster and
    item is placed.  It never raises a KeyError. *)
Theorem tick_never_raises (cfg : Config) (s : ItemManager) (env : TickEnv) :
  reachable cfg s ->
  (exists s' evs, control_loop s env = Ok (s', evs))
  \/ (first_run s = true /\ control_loop s env = Starved).
Proof.
  intros Hreach. pose proof (wf_reachable _ _ Hreach) as Hwf.
  destruct (first_run s) eqn:Hfr;
    [|left; now apply control_loop_total].
  unfold control_loop. rewrite Hfr.
  destruct (seed_clusters 6 _ _ _) as [[s1 seeding]| |] eqn:Hseed.
  - left. cbn [bind].
    assert (Hwf0 : wf (with_first_run s false))
      by (destruct Hwf; constructor; assumption).
    pose proof (seed_clusters_wf _ _ _ _ _ _ Hwf0 Hseed) as Hwf1.
    apply tick_after_seeding; [exact Hwf1 | apply (wf_held _ Hwf1)].
  - exfalso. revert Hseed. apply seed_clusters_no_KeyError.
  - right. split; reflexivity.
Qed.

Lemma tick_never_raises_witness :
  (exists s' evs, control_loop (state_after seeded) seeding_env = Ok (s', evs))
  \/ (first_run (state_after seeded) = true
      /\ control_loop (state_after seeded) seeding_env = Starved).
Proof.
  exact (tick_never_raises all_zones (state_after seeded) seeding_env
           (reachable_state_after _ run_seeded)).
Defined.
